(** * The attribute subsystem of dom.js: Attributes, Attr, reflectAttribute

    A shallow embedding of the [Attributes] and [Attr] classes and of
    [reflectAttribute], followed by the properties of the attribute
    collection that hold of the code and the evaluations of the code at
    the inputs where it departs from its documentation.

    Conventions of the embedding:
    - JavaScript values that reach the collection are [JSVal];
    - every [Attr] object lives in a heap ([heap], a list indexed by the
      object's identity), because the same object is referenced from
      [byQName] and from [byNSAndLName] and both must see its mutations;
    - [byQName] is a [gmap] (only looked up, never enumerated);
      [byNSAndLName] is an insertion-ordered association list, because
      [O.keys] enumerates it: its keys always contain "|" and are
      therefore never array indices, so enumeration order is insertion
      order;
    - a method is a function [State -> Res A]: it returns or throws, and
      in both cases leaves a state behind;
    - calls of [onchange] hooks and of the owner document's
      [mutateAttr]/[mutateRemoveAttr] are recorded, with their arguments,
      in [trace]; hooks are external collaborators and are not run. *)

From Stdlib Require Import String Ascii.
From stdpp Require Import base option list strings gmap.

Local Open Scope string_scope.
Local Open Scope list_scope.
Local Open Scope nat_scope.

(** ** JavaScript values *)

Inductive JSVal : Type :=
| VUndefined
| VNull
| VBool (b : bool)
| VString (s : string).

#[global] Instance JSVal_eq_dec : EqDecision JSVal.
Proof. solve_decision. Defined.

#[global] Instance JSVal_inhabited : Inhabited JSVal := populate VUndefined.

(** ToBoolean *)
Definition truthy (v : JSVal) : bool :=
  match v with
  | VUndefined | VNull => false
  | VBool b => b
  | VString s => negb (String.eqb s "")
  end.

(** [a || b] *)
Definition js_or (a b : JSVal) : JSVal := if truthy a then a else b.

(** [x + "|"] for [x] a string or null: ToString(null) is "null". *)
Definition to_string_or_null (x : option string) : string :=
  match x with
  | Some s => s
  | None => "null"
  end.

(** [x || ""] and [x || null] for [x] a string, null or undefined. *)
Definition or_empty (x : option string) : string :=
  match x with
  | Some s => s
  | None => ""
  end.

Definition or_null (x : option string) : option string :=
  match x with
  | Some s => if String.eqb s "" then None else Some s
  | None => None
  end.

(** Truthiness of a string-or-null. *)
Definition opt_truthy (x : option string) : bool :=
  match x with
  | Some s => negb (String.eqb s "")
  | None => false
  end.

(** The exceptions the code can raise. *)
Inductive Exn : Type :=
| InvalidCharacterError
| NamespaceError
| AssertionError
| TypeError.

#[global] Instance Exn_eq_dec : EqDecision Exn.
Proof. solve_decision. Defined.

(** ** Objects used as ordered maps

    [Object.create(null)] with non-index string keys: assignment to an
    existing key keeps its position, assignment to a new key appends,
    [O.keys] lists the keys in insertion order. *)
Module OMap.
Section omap.
Context {V : Type}.

Fixpoint lookup (k : string) (m : list (string * V)) : option V :=
  match m with
  | [] => None
  | (k', v) :: m' => if String.eqb k k' then Some v else lookup k m'
  end.

Fixpoint assign (k : string) (v : V) (m : list (string * V)) : list (string * V) :=
  match m with
  | [] => [(k, v)]
  | (k', v') :: m' =>
      if String.eqb k k' then (k', v) :: m' else (k', v') :: assign k v m'
  end.

Fixpoint delete (k : string) (m : list (string * V)) : list (string * V) :=
  match m with
  | [] => []
  | (k', v') :: m' =>
      if String.eqb k k' then delete k m' else (k', v') :: delete k m'
  end.

Definition keys (m : list (string * V)) : list string := List.map fst m.

Definition has (k : string) (m : list (string * V)) : bool :=
  match lookup k m with
  | Some _ => true
  | None => false
  end.
End omap.
End OMap.

(** ** Attribute declarations, elements, Attr objects *)

(** An [onchange] hook is identified by a number; what it is called with
    is recorded in the trace. *)
Record Declaration : Type := {
  onchange : option nat;
  idlToContent : option (JSVal -> Exn + JSVal);
  contentToIDL : option (JSVal -> Exn + JSVal);
  idlname : option string;
  boolean : bool;
  (** property read [legalValues[k]] of the declared object *)
  legalValues : option (string -> JSVal);
  storeAsContent : bool
}.

(** [const SimpleAttributeDeclaration = {}] *)
Definition SimpleAttributeDeclaration : Declaration :=
  {| onchange := None; idlToContent := None; contentToIDL := None;
     idlname := None; boolean := false; legalValues := None;
     storeAsContent := false |}.

(** What the collection reads of its owning element. *)
Record Element : Type := {
  isHTML : bool;
  rooted : bool;
  _attrDecls : gmap string Declaration
}.

(** An Attr object. Its [ownerElement] is always the element of the
    collection that created it, [element] in the state below, and is
    read there. *)
Module Attr.
Record t : Type := {
  declaration : option Declaration;
  localName : string;
  prefix : option string;
  namespaceURI : option string;
  (** the [data] property behind the [value] accessor; absent
      (undefined) until the first assignment *)
  data : JSVal;
  (** own property created by the raw [set]; the class defines no
      accessor of that name *)
  idlvalue : JSVal
}.

(** [function Attr(elt, decl, lname, prefix, namespace)] *)
Definition new (decl : option Declaration) (lname : string)
    (prefix namespace : option string) : t :=
  {| declaration := decl;
     localName := lname;
     prefix := or_null prefix;
     namespaceURI := or_null namespace;
     data := VUndefined;
     idlvalue := VUndefined |}.

(** the [name] getter *)
Definition name (a : t) : string :=
  if opt_truthy (prefix a)
  then or_empty (prefix a) +:+ ":" +:+ localName a
  else localName a.

Definition with_data (v : JSVal) (a : t) : t :=
  {| declaration := declaration a; localName := localName a;
     prefix := prefix a; namespaceURI := namespaceURI a;
     data := v; idlvalue := idlvalue a |}.

Definition with_prefix (p : option string) (a : t) : t :=
  {| declaration := declaration a; localName := localName a;
     prefix := p; namespaceURI := namespaceURI a;
     data := data a; idlvalue := idlvalue a |}.

Definition with_idlvalue (v : JSVal) (a : t) : t :=
  {| declaration := declaration a; localName := localName a;
     prefix := prefix a; namespaceURI := namespaceURI a;
     data := data a; idlvalue := v |}.

(** [this.declaration && this.declaration.onchange] *)
Definition hook (a : t) : option nat :=
  match declaration a with
  | Some d => onchange d
  | None => None
  end.
End Attr.

#[global] Instance Attr_inhabited : Inhabited Attr.t :=
  populate (Attr.new None "" None None).

(** ** The state of one collection *)

(** What [byQName] holds under a qualified name: one Attr, or an array
    of them (with the array's own [idlvalue] property, which the raw
    [set] can create on it), or the value undefined. *)
Inductive QEntry : Type :=
| QUndefined
| One (a : nat)
| Many (l : list nat) (idlvalue : JSVal).

Inductive Event : Type :=
| Onchange (hook : nat) (localName oldval newval : JSVal)
| MutateAttr (attr : nat) (oldval : JSVal)
| MutateRemoveAttr (attr : nat).

#[global] Instance Event_eq_dec : EqDecision Event.
Proof. solve_decision. Defined.

(** [element], [length], [byQName], [byNSAndLName] and [keys] are the
    five fields of the [Attributes] object; [heap] holds the Attr
    objects created so far and [trace] the notifications sent so far,
    oldest first. *)
Record State : Type := {
  element : Element;
  length : nat;
  byQName : gmap string QEntry;
  byNSAndLName : list (string * nat);
  keys : list string;
  heap : list Attr.t;
  trace : list Event
}.

(** [function Attributes(element)] *)
Definition Attributes (elt : Element) : State :=
  {| element := elt; length := 0; byQName := ∅; byNSAndLName := [];
     keys := []; heap := []; trace := [] |}.

Definition set_byQName (f : gmap string QEntry -> gmap string QEntry) (s : State) : State :=
  {| element := element s; length := length s; byQName := f (byQName s);
     byNSAndLName := byNSAndLName s; keys := keys s; heap := heap s;
     trace := trace s |}.

Definition set_byNSAndLName (f : list (string * nat) -> list (string * nat)) (s : State) : State :=
  {| element := element s; length := length s; byQName := byQName s;
     byNSAndLName := f (byNSAndLName s); keys := keys s; heap := heap s;
     trace := trace s |}.

(** [this.keys = O.keys(this.byNSAndLName); this.length = this.keys.length],
    which follows every update of [byNSAndLName] in the source. *)
Definition refresh_keys (s : State) : State :=
  {| element := element s;
     length := List.length (OMap.keys (byNSAndLName s));
     byQName := byQName s;
     byNSAndLName := byNSAndLName s;
     keys := OMap.keys (byNSAndLName s);
     heap := heap s;
     trace := trace s |}.

Definition set_heap (f : list Attr.t -> list Attr.t) (s : State) : State :=
  {| element := element s; length := length s; byQName := byQName s;
     byNSAndLName := byNSAndLName s; keys := keys s; heap := f (heap s);
     trace := trace s |}.

Definition emit (e : Event) (s : State) : State :=
  {| element := element s; length := length s; byQName := byQName s;
     byNSAndLName := byNSAndLName s; keys := keys s; heap := heap s;
     trace := trace s ++ [e] |}.

(** ** Methods: state and exceptions *)

Inductive Res (A : Type) : Type :=
| Ret (a : A) (s : State)
| Throw (e : Exn) (s : State).
Arguments Ret {A} a s.
Arguments Throw {A} e s.

Definition M (A : Type) : Type := State -> Res A.

Definition ret {A} (a : A) : M A := fun s => Ret a s.
Definition throw {A} (e : Exn) : M A := fun s => Throw e s.
Definition bind {A B} (m : M A) (k : A -> M B) : M B :=
  fun s => match m s with
           | Ret a s' => k a s'
           | Throw e s' => Throw e s'
           end.
Definition gets {A} (f : State -> A) : M A := fun s => Ret (f s) s.
Definition modify (f : State -> State) : M unit := fun s => Ret tt (f s).
Definition when (b : bool) (m : M unit) : M unit := if b then m else ret tt.

Notation "'let!' x := m 'in' k" := (bind m (fun x => k))
  (at level 10, x name, m at level 100, k at level 200).
Notation "m ;;; k" := (bind m (fun _ => k))
  (at level 100, k at level 200, right associativity).

(** The state a call leaves behind, whether it returned or threw. *)
Definition state_of {A} (r : Res A) : State :=
  match r with
  | Ret _ s => s
  | Throw _ s => s
  end.

(** [assert(c)] raises when [c] is false. *)
Definition assert (c : bool) : M unit :=
  if c then ret tt else throw AssertionError.

(** [new impl.Attr(...)]: the new object's identity is the next heap index. *)
Definition alloc (a : Attr.t) : M nat :=
  fun s => Ret (List.length (heap s)) (set_heap (fun h => h ++ [a]) s).

Definition deref (a : nat) : M Attr.t := gets (fun s => heap s !!! a).

Definition update (a : nat) (f : Attr.t -> Attr.t) : M unit :=
  modify (set_heap (fun h => <[a := f (h !!! a)]> h)).

(** ** Helpers of the library that the source calls *)

(** Modelled from the spec: [isValidName], [isValidQName] (the XML Name
    and QName checks), [toLowerCase] and the two namespace constants are
    defined elsewhere in dom.js; the collection is parametric in them. *)
Class Externals : Type := {
  isValidName : string -> bool;
  isValidQName : string -> bool;
  toLowerCase : string -> string;
  XML_NAMESPACE : string;
  XMLNS_NAMESPACE : string
}.

(** [A.indexOf(target, attr)]: position of the first element identical
    to [attr]; [None] stands for -1. *)
Fixpoint indexOf (l : list nat) (a : nat) : option nat :=
  match l with
  | [] => None
  | x :: l' => if Nat.eqb x a then Some 0 else S <$> indexOf l' a
  end.

(** [substring(s, from)]: to the end of the string. *)
Definition substring_from (from : nat) (s : string) : string :=
  String.substring from (String.length s - from) s.

(** [ns === C] for a namespace argument and a string constant. *)
Definition ns_is (ns : option string) (c : string) : bool :=
  match ns with
  | Some n => String.eqb n c
  | None => false
  end.

Definition opt_string_eqb (a b : option string) : bool :=
  bool_decide (a = b).

Section Attributes.
Context `{Externals}.

(** *** Attr.prototype.value *)

Definition Attr_value (a : nat) : M JSVal :=
  let! this := deref a in
  ret (Attr.data this).

Definition Attr_set_value (a : nat) (v : JSVal) : M unit :=
  let! this := deref a in
  if bool_decide (Attr.data this = v) then ret tt
  else
    let oldval := Attr.data this in
    update a (Attr.with_data v) ;;;
    match Attr.hook this with
    | Some h =>
        modify (emit (Onchange h (VString (Attr.localName this)) oldval v))
    | None => ret tt
    end ;;;
    let! elt := gets element in
    when (rooted elt) (modify (emit (MutateAttr a oldval))).

(** *** Attributes.prototype *)

(** [this.byQName[qname]] followed by the test [!attr] *)
Definition lookupQName (qname : string) : M (option QEntry) :=
  let! m := gets byQName in
  ret match m !! qname with
      | Some QUndefined => None
      | o => o
      end.

Definition normalize (qname : string) : M string :=
  let! elt := gets element in
  ret (if isHTML elt then toLowerCase qname else qname).

Definition item (index : nat) : M (option nat) :=
  let! ks := gets keys in
  let! m := gets byNSAndLName in
  ret (OMap.lookup (default "undefined" (ks !! index)) m).

Definition getAttribute (qname : string) : M JSVal :=
  let! qname := normalize qname in
  let! attr := lookupQName qname in
  match attr with
  | None | Some QUndefined => ret VNull
  | Some (One a) => Attr_value a
  | Some (Many l _) =>
      match l !! 0 with
      | Some a => Attr_value a
      | None => throw TypeError
      end
  end.

Definition getAttributeNS (ns : option string) (lname : string) : M JSVal :=
  let! m := gets byNSAndLName in
  match OMap.lookup (to_string_or_null ns +:+ "|" +:+ lname) m with
  | Some a => Attr_value a
  | None => ret VNull
  end.

Definition hasAttribute (qname : string) : M bool :=
  let! qname := normalize qname in
  let! m := gets byQName in
  ret (bool_decide (is_Some (m !! qname))).

Definition hasAttributeNS (ns : option string) (lname : string) : M bool :=
  let key := to_string_or_null ns +:+ "|" +:+ lname in
  let! m := gets byNSAndLName in
  ret (OMap.has key m).

Definition _newAttr (qname : string) : M nat :=
  let! elt := gets element in
  let! attr := alloc (Attr.new (_attrDecls elt !! qname) qname None None) in
  modify (set_byQName <[qname := One attr]>) ;;;
  modify (set_byNSAndLName (OMap.assign ("|" +:+ qname) attr)) ;;;
  modify refresh_keys ;;;
  ret attr.

Definition _addQName (attr : nat) : M unit :=
  let! this := deref attr in
  let qname := Attr.name this in
  let! existing := lookupQName qname in
  match existing with
  | None | Some QUndefined =>
      modify (set_byQName <[qname := One attr]>)
  | Some (Many l iv) =>
      modify (set_byQName <[qname := Many (l ++ [attr]) iv]>)
  | Some (One e) =>
      modify (set_byQName <[qname := Many [e; attr] VUndefined]>)
  end.

Definition _removeQName (attr : nat) : M unit :=
  let! this := deref attr in
  let qname := Attr.name this in
  let! m := gets byQName in
  match m !! qname with
  | Some (Many target iv) =>
      match indexOf target attr with
      | None => throw AssertionError
      | Some idx =>
          if Nat.eqb (List.length target) 2
          then modify (set_byQName
                 <[qname := match target !! (1 - idx) with
                            | Some b => One b
                            | None => QUndefined
                            end]>)
          else modify (set_byQName <[qname := Many (delete idx target) iv]>)
      end
  | Some (One b) =>
      assert (Nat.eqb b attr) ;;;
      modify (set_byQName (delete qname))
  | Some QUndefined | None =>
      throw AssertionError
  end.

Definition setAttribute (qname : string) (value : JSVal) : M unit :=
  if negb (isValidName qname) then throw InvalidCharacterError
  else
    let! qname := normalize qname in
    if String.eqb (String.substring 0 5 qname) "xmlns" then throw NamespaceError
    else
      let! found := lookupQName qname in
      let! attr :=
        match found with
        | None | Some QUndefined => let! a := _newAttr qname in ret (Some a)
        | Some (One a) => ret (Some a)
        | Some (Many l _) => ret (l !! 0)
        end in
      match attr with
      | Some a => Attr_set_value a value
      | None => throw TypeError
      end.

Definition setAttributeNS (ns : option string) (qname : string) (value : JSVal) : M unit :=
  if negb (isValidName qname) then throw InvalidCharacterError
  else if negb (isValidQName qname) then throw NamespaceError
  else
    let '(prefix, lname) :=
      match String.index 0 ":" qname with
      | None => (None, qname)
      | Some pos => (Some (String.substring 0 pos qname),
                     substring_from (pos + 1) qname)
      end in
    let key := to_string_or_null ns +:+ "|" +:+ lname in
    let ns := if opt_string_eqb ns (Some "") then None else ns in
    let is_xmlns := String.eqb qname "xmlns" || opt_string_eqb prefix (Some "xmlns") in
    if (negb (opt_string_eqb prefix None) && opt_string_eqb ns None)
       || (opt_string_eqb prefix (Some "xml") && negb (ns_is ns XML_NAMESPACE))
       || (is_xmlns && negb (ns_is ns XMLNS_NAMESPACE))
       || (ns_is ns XMLNS_NAMESPACE && negb is_xmlns)
    then throw NamespaceError
    else
      let! m := gets byNSAndLName in
      let! attr :=
        match OMap.lookup key m with
        | None =>
            let! elt := gets element in
            let decl := if opt_truthy prefix then None
                        else _attrDecls elt !! lname in
            let! attr := alloc (Attr.new decl lname prefix ns) in
            modify (set_byNSAndLName (OMap.assign key attr)) ;;;
            modify refresh_keys ;;;
            _addQName attr ;;;
            ret attr
        | Some attr =>
            let! this := deref attr in
            when (negb (opt_string_eqb (Attr.prefix this) prefix))
              (_removeQName attr ;;;
               update attr (Attr.with_prefix prefix) ;;;
               _addQName attr) ;;;
            ret attr
        end in
      Attr_set_value attr value.

(** In the two removal methods [this] is the collection, which has no
    [localName] and no [idlvalue] property: the hook receives
    undefined for both. *)
Definition notify_removed (attr : nat) : M unit :=
  let! removed := deref attr in
  match Attr.hook removed with
  | Some h => modify (emit (Onchange h VUndefined VUndefined VNull))
  | None => ret tt
  end ;;;
  let! elt := gets element in
  when (rooted elt) (modify (emit (MutateRemoveAttr attr))).

Definition removeAttribute (qname : string) : M unit :=
  let! qname := normalize qname in
  let! found := lookupQName qname in
  match found with
  | None | Some QUndefined => ret tt
  | Some entry =>
      let! attr :=
        match entry with
        | Many l iv =>
            if Nat.ltb 2 (List.length l)
            then modify (set_byQName <[qname := Many (tail l) iv]>) ;;;
                 ret (head l)
            else modify (set_byQName
                   <[qname := match l !! 1 with
                              | Some b => One b
                              | None => QUndefined
                              end]>) ;;;
                 ret (l !! 0)
        | One a =>
            modify (set_byQName (delete qname)) ;;;
            ret (Some a)
        | QUndefined => ret None
        end in
      match attr with
      | None => throw TypeError
      | Some attr =>
          let! removed := deref attr in
          let key := or_empty (Attr.namespaceURI removed) +:+ "|"
                     +:+ Attr.localName removed in
          modify (set_byNSAndLName (OMap.delete key)) ;;;
          modify refresh_keys ;;;
          notify_removed attr
      end
  end.

Definition removeAttributeNS (ns : option string) (lname : string) : M unit :=
  let key := or_empty ns +:+ "|" +:+ lname in
  let! m := gets byNSAndLName in
  match OMap.lookup key m with
  | None => ret tt
  | Some attr =>
      modify (set_byNSAndLName (OMap.delete key)) ;;;
      modify refresh_keys ;;;
      _removeQName attr ;;;
      notify_removed attr
  end.

(** The raw [get] and [set] of the reflection fast path. *)
Definition get (qname : string) : M JSVal :=
  let! attr := lookupQName qname in
  match attr with
  | None | Some QUndefined => ret (VString "")
  | Some (One a) => let! this := deref a in ret (Attr.idlvalue this)
  | Some (Many _ iv) => ret iv
  end.

Definition set (qname : string) (value : JSVal) : M unit :=
  let! attr := lookupQName qname in
  match attr with
  | None | Some QUndefined =>
      let! a := _newAttr qname in
      update a (Attr.with_idlvalue value)
  | Some (One a) => update a (Attr.with_idlvalue value)
  | Some (Many l _) => modify (set_byQName <[qname := Many l value]>)
  end.
End Attributes.

(** ** reflectAttribute *)

(** The accessor property that [reflectAttribute] defines on a class's
    prototype; both functions run against the collection of the element
    they are called on. *)
Record Accessor : Type := {
  getter : M JSVal;
  setter : JSVal -> M unit
}.

(** What [reflectAttribute] reads and writes of [c.prototype]: the
    declarations visible through [_attrDecls] (own or inherited) and the
    accessor properties. *)
Record Class : Type := {
  proto_attrDecls : gmap string Declaration;
  proto_properties : gmap string Accessor
}.

(** An element of class [c]: [_attrDecls] is found on the prototype. *)
Definition instantiate (c : Class) (html root : bool) : Element :=
  {| isHTML := html; rooted := root; _attrDecls := proto_attrDecls c |}.

Definition with_contentToIDL (f : JSVal -> Exn + JSVal) (d : Declaration) : Declaration :=
  {| onchange := onchange d; idlToContent := idlToContent d;
     contentToIDL := Some f; idlname := idlname d; boolean := boolean d;
     legalValues := legalValues d; storeAsContent := storeAsContent d |}.

(** Run a conversion function of a declaration inside a method. *)
Definition convert (f : JSVal -> Exn + JSVal) (v : JSVal) : M JSVal :=
  match f v with
  | inl e => throw e
  | inr r => ret r
  end.

Section Reflection.
Context `{Externals}.

(** Modelled from the spec: [Element.prototype.getAttribute] and
    [setAttribute], which the generated accessors call through [this],
    are not in the source; as the header comment of the source says,
    they call the methods of the same name on the element's
    [Attributes] object. *)
Definition Element_getAttribute (name : string) : M JSVal := getAttribute name.
Definition Element_setAttribute (name : string) (v : JSVal) : M unit :=
  setAttribute name v.

(** The conversion synthesized for a declaration with [legalValues]:
    [function(v) { return declaration.legalValues[v.toLowerCase()] || ""; }] *)
Definition legal_contentToIDL (lv : string -> JSVal) (v : JSVal) : Exn + JSVal :=
  match v with
  | VString s => inr (js_or (lv (toLowerCase s)) (VString ""))
  | _ => inl TypeError
  end.

Definition reflectAttribute (c : Class) (name : string)
    (declaration : option Declaration) : Exn + Class :=
  let declaration := default SimpleAttributeDeclaration declaration in
  if bool_decide (is_Some (proto_attrDecls c !! name)) then inl AssertionError
  else
    let fixed :=
      match legalValues declaration with
      | Some lv =>
          if bool_decide (is_Some (contentToIDL declaration))
             || bool_decide (is_Some (idlToContent declaration))
          then inl AssertionError
          else inr (with_contentToIDL (legal_contentToIDL lv) declaration)
      | None => inr declaration
      end in
    match fixed with
    | inl e => inl e
    | inr declaration =>
        let get :=
          match contentToIDL declaration with
          | Some f => let! raw := Element_getAttribute name in convert f raw
          | None => let! raw := Element_getAttribute name in
                    ret (js_or raw (VString ""))
          end in
        let set :=
          match idlToContent declaration with
          | Some f => fun v => let! content := convert f v in
                               Element_setAttribute name content
          | None => fun v => Element_setAttribute name v
          end in
        inr {| proto_attrDecls := <[name := declaration]> (proto_attrDecls c);
               proto_properties :=
                 <[(if opt_truthy (idlname declaration)
                    then or_empty (idlname declaration) else name)
                   := {| getter := get; setter := set |}]>
                   (proto_properties c) |}
    end.
End Reflection.

(** Read and write the reflected property [prop] of an element of class
    [c]; a property that is not an accessor of the class raises. *)
Definition read_property (c : Class) (prop : string) : M JSVal :=
  match proto_properties c !! prop with
  | Some acc => getter acc
  | None => throw TypeError
  end.

Definition write_property (c : Class) (prop : string) (v : JSVal) : M unit :=
  match proto_properties c !! prop with
  | Some acc => setter acc v
  | None => throw TypeError
  end.

(** ** Sequences of calls and reachable states *)

Inductive Call : Type :=
| CsetAttribute (qname : string) (value : JSVal)
| CsetAttributeNS (ns : option string) (qname : string) (value : JSVal)
| CremoveAttribute (qname : string)
| CremoveAttributeNS (ns : option string) (lname : string)
| Cset (qname : string) (value : JSVal).

Section Reachable.
Context `{Externals}.

Definition call (c : Call) : M unit :=
  match c with
  | CsetAttribute q v => setAttribute q v
  | CsetAttributeNS ns q v => setAttributeNS ns q v
  | CremoveAttribute q => removeAttribute q
  | CremoveAttributeNS ns l => removeAttributeNS ns l
  | Cset q v => set q v
  end.

(** The state after a sequence of calls; a caller may catch an
    exception and go on, so the sequence continues after a throw. *)
Definition calls (cs : list Call) (s : State) : State :=
  fold_left (fun s c => state_of (call c s)) cs s.

Inductive reachable : State -> Prop :=
| reachable_new elt : reachable (Attributes elt)
| reachable_call s c : reachable s -> reachable (state_of (call c s)).
End Reachable.

(** ** A concrete instance of the external helpers *)

Module AsciiHost.
Definition is_upper (c : ascii) : bool :=
  Nat.leb 65 (nat_of_ascii c) && Nat.leb (nat_of_ascii c) 90.
Definition is_lower (c : ascii) : bool :=
  Nat.leb 97 (nat_of_ascii c) && Nat.leb (nat_of_ascii c) 122.
Definition is_digit (c : ascii) : bool :=
  Nat.leb 48 (nat_of_ascii c) && Nat.leb (nat_of_ascii c) 57.

Definition name_start (c : ascii) : bool :=
  is_upper c || is_lower c || Ascii.eqb c "_" || Ascii.eqb c ":".
Definition name_char (c : ascii) : bool :=
  name_start c || is_digit c || Ascii.eqb c "-" || Ascii.eqb c ".".

Fixpoint all_chars (p : ascii -> bool) (s : string) : bool :=
  match s with
  | EmptyString => true
  | String c s' => p c && all_chars p s'
  end.

Definition valid_name (s : string) : bool :=
  match s with
  | EmptyString => false
  | String c s' => name_start c && all_chars name_char s'
  end.

Definition ncname (s : string) : bool :=
  valid_name s && all_chars (fun c => negb (Ascii.eqb c ":")) s.

Definition valid_qname (s : string) : bool :=
  match String.index 0 ":" s with
  | None => ncname s
  | Some pos => ncname (String.substring 0 pos s)
                && ncname (substring_from (pos + 1) s)
  end.

Definition lower_char (c : ascii) : ascii :=
  if is_upper c then ascii_of_nat (nat_of_ascii c + 32) else c.

Fixpoint lower (s : string) : string :=
  match s with
  | EmptyString => EmptyString
  | String c s' => String (lower_char c) (lower s')
  end.

(** Modelled from the spec: the helpers that are not in the source,
    on ASCII strings: the Name and QName productions of XML, ASCII
    lower-casing, and the XML and XMLNS namespace names. *)
#[export] Instance host : Externals :=
  {| isValidName := valid_name;
     isValidQName := valid_qname;
     toLowerCase := lower;
     XML_NAMESPACE := "http://www.w3.org/XML/1998/namespace";
     XMLNS_NAMESPACE := "http://www.w3.org/2000/xmlns/" |}.
End AsciiHost.

(** ** Well-formed states

    Every array in [byQName] has at least two elements, no entry of
    [byQName] is undefined, every reference is to an allocated Attr,
    and [keys] and [length] are those of [byNSAndLName]. *)

Definition entry_ok (n : nat) (e : QEntry) : Prop :=
  match e with
  | QUndefined => False
  | One a => a < n
  | Many l _ => 2 ≤ List.length l ∧ Forall (λ a, a < n) l
  end.

Record wf (s : State) : Prop := {
  wf_byQName : map_Forall (λ _ e, entry_ok (List.length (heap s)) e) (byQName s);
  wf_byNSAndLName : Forall (λ p, p.2 < List.length (heap s)) (byNSAndLName s);
  wf_keys : keys s = OMap.keys (byNSAndLName s);
  wf_length : length s = List.length (byNSAndLName s)
}.

(** What a call leaves of the collection when it only touches Attr
    objects or the trace. *)
Record same_indices (s s' : State) : Prop := {
  same_element : element s' = element s;
  same_length : length s' = length s;
  same_byQName : byQName s' = byQName s;
  same_byNSAndLName : byNSAndLName s' = byNSAndLName s;
  same_keys : keys s' = keys s;
  same_heap_size : List.length (heap s') = List.length (heap s)
}.

Section Specification.
Context `{Externals}.

(** The first Attr object under an entry of [byQName]: the one the
    qualified-name methods operate on. *)
Definition first_attr (e : option QEntry) : option nat :=
  match e with
  | Some (One a) => Some a
  | Some (Many l _) => l !! 0
  | Some QUndefined | None => None
  end.

(** The name under which the qualified-name methods look [qname] up. *)
Definition qualified (s : State) (qname : string) : string :=
  if isHTML (element s) then toLowerCase qname else qname.

(** The test [substring(qname, 0, 5) === "xmlns"]. *)
Definition reserved (qname : string) : bool :=
  String.eqb (String.substring 0 5 qname) "xmlns".

(** The names that [setAttribute] accepts on the collection [s]: the
    legal XML names whose normalized form is not reserved. For any
    other name the method throws (InvalidCharacterError or
    NamespaceError). *)
Definition accepted (s : State) (qname : string) : bool :=
  isValidName qname && negb (reserved (qualified s qname)).
End Specification.

(** ** Observations and the scenarios of the specification *)

(** What a caller sees of a call: the value returned or the exception. *)
Definition result {A} (r : Res A) : Exn + A :=
  match r with
  | Ret a _ => inr a
  | Throw e _ => inl e
  end.

(** The Attr objects referenced from each of the two indices. *)
Definition entry_attrs (e : QEntry) : list nat :=
  match e with
  | QUndefined => []
  | One a => [a]
  | Many l _ => l
  end.

Definition byNSAndLName_attrs (s : State) : list nat := (byNSAndLName s).*2.

Definition byQName_attrs (s : State) : list nat :=
  map_fold (λ _ e acc, entry_attrs e ++ acc) [] (byQName s).

(** The two indices hold the same Attr objects, and the sequence [keys]
    and [length] are those of the namespace index. *)
Definition indices_agree (s : State) : Prop :=
  (∀ a, a ∈ byNSAndLName_attrs s ↔ a ∈ byQName_attrs s)
  ∧ keys s = OMap.keys (byNSAndLName s)
  ∧ length s = List.length (byNSAndLName s).

(** What the removal methods can send: a hook call with undefined for
    the local name and for the old value, or the document's
    [mutateRemoveAttr]. *)
Definition removal_event (e : Event) : Prop :=
  match e with
  | Onchange _ l o n => l = VUndefined ∧ o = VUndefined ∧ n = VNull
  | MutateRemoveAttr _ => True
  | MutateAttr _ _ => False
  end.

Definition html_element : Element :=
  {| isHTML := true; rooted := false; _attrDecls := ∅ |}.

Definition xml_element : Element :=
  {| isHTML := false; rooted := false; _attrDecls := ∅ |}.

Section Scenarios.
Context `{Externals}.

(** What each call of a sequence returned or threw. *)
Fixpoint outcomes (cs : list Call) (s : State) : list (Exn + unit) :=
  match cs with
  | [] => []
  | c :: cs' => result (call c s) :: outcomes cs' (state_of (call c s))
  end.

(** The duplicate-qualified-name scenario in the order in which the
    specification gives it: [setAttributeNS(nsA, "foo", "x")], then
    [setAttribute("foo", "y")]. *)
Definition duplicate_scenario_as_stated (elt : Element) (nsA : string) : Prop :=
  let s := calls [CsetAttributeNS (Some nsA) "foo" (VString "x");
                  CsetAttribute "foo" (VString "y")] (Attributes elt) in
  let s' := state_of (removeAttribute "foo" s) in
  (∃ a b iv, a ≠ b ∧ byQName s !! "foo" = Some (Many [a; b] iv))
  ∧ result (getAttribute "foo" s) = inr (VString "x")
  ∧ length s' = 1
  ∧ result (getAttributeNS (Some "") "foo" s') = inr (VString "y").
End Scenarios.

(** ** Concrete declarations, elements and classes *)

(** [{ onchange: f }]: a declaration with a hook, here hook number 1. *)
Definition hook_declaration : Declaration :=
  {| onchange := Some 1; idlToContent := None; contentToIDL := None;
     idlname := None; boolean := false; legalValues := None;
     storeAsContent := false |}.

(** An HTML element whose type declares "id" with an [onchange] hook. *)
Definition element_with_hook : Element :=
  {| isHTML := true; rooted := false;
     _attrDecls := {["id" := hook_declaration]} |}.

(** [{ boolean: true }] *)
Definition boolean_declaration : Declaration :=
  {| onchange := None; idlToContent := None; contentToIDL := None;
     idlname := None; boolean := true; legalValues := None;
     storeAsContent := false |}.

(** [{ legalValues: {ltr: "ltr", rtl: "rtl", auto: "auto"} }], the
    object having no other property. *)
Definition dir_legalValues (k : string) : JSVal :=
  if String.eqb k "ltr" then VString "ltr"
  else if String.eqb k "rtl" then VString "rtl"
  else if String.eqb k "auto" then VString "auto"
  else VUndefined.

Definition dir_declaration : Declaration :=
  {| onchange := None; idlToContent := None; contentToIDL := None;
     idlname := None; boolean := false; legalValues := Some dir_legalValues;
     storeAsContent := true |}.

(** A class with no reflected attribute yet. *)
Definition empty_class : Class :=
  {| proto_attrDecls := ∅; proto_properties := ∅ |}.

(** The two Attr objects of the duplicate-qualified-name scenario: the
    one [setAttribute("foo", y)] creates and the one
    [setAttributeNS(nsA, "foo", x)] creates. *)
Definition plain_foo (elt : Element) (y : string) : Attr.t :=
  Attr.with_data (VString y)
    (Attr.new (_attrDecls elt !! "foo") "foo" None None).

Definition namespaced_foo (elt : Element) (nsA x : string) : Attr.t :=
  Attr.with_data (VString x)
    (Attr.new (_attrDecls elt !! "foo") "foo" None (Some nsA)).

(** ** Agreement of the two indices

    The properties that make the two indices agree: every Attr of the
    namespace index is stored under the key that [removeAttribute]
    recomputes for it, and is in the bucket of its qualified name;
    every Attr of a bucket is in the namespace index. *)

(** "|" is not legal in a local name. *)
Fixpoint no_bar (s : string) : bool :=
  match s with
  | EmptyString => true
  | String c s' => negb (Ascii.eqb c "|") && no_bar s'
  end.

(** [(attr.namespaceURI || "") + "|" + attr.localName] *)
Definition key_of (a : Attr.t) : string :=
  or_empty (Attr.namespaceURI a) +:+ "|" +:+ Attr.localName a.

(** [a] is in the bucket of [q]. *)
Definition inQ (s : State) (q : string) (a : nat) : Prop :=
  ∃ e, byQName s !! q = Some e ∧ a ∈ entry_attrs e.

(** The names an Attr of the collection can have: no "|" in the local
    name, never the empty namespace, no prefix without a namespace. *)
Definition well_named (x : Attr.t) : Prop :=
  no_bar (Attr.localName x) = true
  ∧ Attr.namespaceURI x ≠ Some ""
  ∧ (Attr.namespaceURI x = None → opt_truthy (Attr.prefix x) = false).

(** Two Attr objects with the same names. *)
Definition same_names (x y : Attr.t) : Prop :=
  Attr.localName x = Attr.localName y
  ∧ Attr.prefix x = Attr.prefix y
  ∧ Attr.namespaceURI x = Attr.namespaceURI y.

(** The agreement, on a namespace index [N], the relation [R] "is in
    the bucket of" and the heap lookup [I]. *)
Record linked (N : list (string * nat)) (R : string → nat → Prop)
    (I : nat → Attr.t) : Prop := {
  linked_keys : NoDup N.*1;
  linked_key : ∀ k a, (k, a) ∈ N → k = key_of (I a);
  linked_named : ∀ k a, (k, a) ∈ N → well_named (I a);
  linked_ns_q : ∀ k a, (k, a) ∈ N → R (Attr.name (I a)) a;
  linked_q_ns : ∀ q a, R q a → q = Attr.name (I a) ∧ a ∈ N.*2
}.

(** No bucket holds the same Attr twice. *)
Definition buckets_nodup (s : State) : Prop :=
  ∀ q e, byQName s !! q = Some e → NoDup (entry_attrs e).

Record consistent (s : State) : Prop := {
  consistent_wf : wf s;
  consistent_linked : linked (byNSAndLName s) (inQ s) (λ a, heap s !!! a);
  consistent_buckets : buckets_nodup s
}.

(** Calls that give [setAttributeNS] a namespace that is not null, and
    the raw [set] a name without "|". *)
Definition legal (c : Call) : Prop :=
  match c with
  | CsetAttributeNS ns _ _ => ns ≠ None
  | Cset q _ => no_bar q = true
  | _ => True
  end.

(** ** Further notions used to state properties of the methods *)

(** The split of a qualified name at its first colon, as
    [setAttributeNS] makes it: prefix (null when there is no colon) and
    local name. *)
Definition split_qname (qname : string) : option string * string :=
  match String.index 0 ":" qname with
  | None => (None, qname)
  | Some pos => (Some (String.substring 0 pos qname),
                 substring_from (pos + 1) qname)
  end.

(** [if (ns === "") ns = null] *)
Definition normalize_ns (ns : option string) : option string :=
  if opt_string_eqb ns (Some "") then None else ns.

(** What the [value] setter of the Attr [this], of identity [a], sends
    when it is assigned [v]: nothing when [v] is the value it has; else
    the hook of its declaration, if any, with the local name, the old
    and the new value, and then [mutateAttr] when the element is
    rooted. *)
Definition value_events (root : bool) (a : nat) (this : Attr.t) (v : JSVal) : list Event :=
  if bool_decide (Attr.data this = v) then []
  else
    match Attr.hook this with
    | Some h => [Onchange h (VString (Attr.localName this)) (Attr.data this) v]
    | None => []
    end
    ++ (if root then [MutateAttr a (Attr.data this)] else []).

(** The keys of the namespace index are distinct and all contain "|". *)
Record keys_ok (s : State) : Prop := {
  keys_nodup : NoDup (byNSAndLName s).*1;
  keys_bar : Forall (λ k, no_bar k = false) (byNSAndLName s).*1
}.

(** One change of the namespace index: none, one assignment under a key
    that contains "|", or one deletion. *)
Definition index_step (m m' : list (string * nat)) : Prop :=
  m' = m
  ∨ (∃ k a, no_bar k = false ∧ m' = OMap.assign k a m)
  ∨ (∃ k, m' = OMap.delete k m).

(** Everything but [byQName] is the same in the two states. *)
Record same_but_byQName (s s' : State) : Prop := {
  sbq_element : element s' = element s;
  sbq_length : length s' = length s;
  sbq_byNSAndLName : byNSAndLName s' = byNSAndLName s;
  sbq_keys : keys s' = keys s;
  sbq_heap : heap s' = heap s;
  sbq_trace : trace s' = trace s
}.

(** The name of the accessor property that [reflectAttribute] defines:
    [declaration.idlname || name]. *)
Definition property_name (name : string) (declaration : option Declaration) : string :=
  let d := default SimpleAttributeDeclaration declaration in
  if opt_truthy (idlname d) then or_empty (idlname d) else name.

(** ** States and classes at which the properties are evaluated *)

(** An XML element with two attributes, "a" and "b", set in this
    order. *)
Definition two_attributes : State :=
  @calls AsciiHost.host
        [CsetAttribute "a" (VString "1"); CsetAttribute "b" (VString "2")]
        (Attributes xml_element).

(** An XML element on which "foo" names two attributes: one without a
    namespace and one in the namespace "urn:a". *)
Definition two_foo : State :=
  @calls AsciiHost.host
        [CsetAttribute "foo" (VString "y");
         CsetAttributeNS (Some "urn:a") "foo" (VString "x")]
        (Attributes xml_element).

(** The class after [reflectAttribute(c, "dir", dir_declaration)] on a
    class without reflected attributes. *)
Definition class_with_dir : Class :=
  match @reflectAttribute AsciiHost.host empty_class "dir" (Some dir_declaration) with
  | inr c => c
  | inl _ => empty_class
  end.

(** The class after [reflectAttribute(c, "title")], with the default
    declaration. *)
Definition class_with_title : Class :=
  match @reflectAttribute AsciiHost.host empty_class "title" None with
  | inr c => c
  | inl _ => empty_class
  end.

(** * Proofs *)

(** Unfold the monad and read the fields of updated states. *)
Ltac msimpl :=
  unfold deref, update, alloc, when, assert in *;
  unfold bind, gets, modify, ret, throw in *;
  cbn beta iota delta
      [state_of set_byQName set_byNSAndLName set_heap refresh_keys emit
       element length byQName byNSAndLName keys heap trace] in *.

Lemma entry_ok_mono n n' e : n ≤ n' → entry_ok n e → entry_ok n' e.
Proof.
  intros Hle. destruct e as [|a|l iv]; simpl; [done|lia|].
  intros [Hlen Hall]. split; [done|].
  eapply Forall_impl; [exact Hall|]. simpl. lia.
Qed.

Lemma OMap_lookup_elem {V} k (m : list (string * V)) v :
  OMap.lookup k m = Some v → ∃ k', (k', v) ∈ m.
Proof.
  induction m as [|[k' v'] m IH]; simpl; [done|].
  destruct (String.eqb k k').
  - intros [= ->]. exists k'. left.
  - intros Hl. destruct (IH Hl) as [k'' Hk]. exists k''. by right.
Qed.

Lemma OMap_lookup_bound k (m : list (string * nat)) a n :
  Forall (λ p, p.2 < n) m → OMap.lookup k m = Some a → a < n.
Proof.
  intros Hall Hl. destruct (OMap_lookup_elem _ _ _ Hl) as [k' Hin].
  rewrite Forall_forall in Hall. exact (Hall _ Hin).
Qed.

Lemma OMap_assign_Forall {V} (P : string * V → Prop) k v m :
  (∀ k', P (k', v)) → Forall P m → Forall P (OMap.assign k v m).
Proof.
  intros Hv. induction 1 as [|[k' v'] m Hp Hall IH]; simpl.
  - repeat constructor. apply Hv.
  - destruct (String.eqb k k'); constructor; auto.
Qed.

Lemma OMap_delete_Forall {V} (P : string * V → Prop) k m :
  Forall P m → Forall P (OMap.delete k m).
Proof.
  induction 1 as [|[k' v'] m Hp Hall IH]; simpl; [constructor|].
  destruct (String.eqb k k'); [done|by constructor].
Qed.

Lemma OMap_keys_length {V} (m : list (string * V)) :
  List.length (OMap.keys m) = List.length m.
Proof. unfold OMap.keys. apply length_map. Qed.

Lemma Forall_bound_mono {A} (f : A → nat) n n' (l : list A) :
  n ≤ n' → Forall (λ p, f p < n) l → Forall (λ p, f p < n') l.
Proof.
  intros Hle Hall. eapply Forall_impl; [exact Hall|].
  simpl. intros. lia.
Qed.

Section Invariant.
Context `{Externals}.

Lemma Attributes_wf elt : wf (Attributes elt).
Proof.
  split; simpl; [apply map_Forall_empty|constructor|done|done].
Qed.

Lemma same_indices_wf s s' : same_indices s s' → wf s → wf s'.
Proof.
  intros [He Hl Hq Hn Hk Hh] [W1 W2 W3 W4].
  split; rewrite ?Hh, ?Hq, ?Hn, ?Hk, ?Hl; done.
Qed.

Lemma same_indices_refl s : same_indices s s.
Proof. by split. Qed.

Lemma same_indices_trans s1 s2 s3 :
  same_indices s1 s2 → same_indices s2 s3 → same_indices s1 s3.
Proof. intros [] []. split; congruence. Qed.

(** Assigning [value] never throws and touches only the Attr object
    and the trace. *)
Lemma Attr_set_value_spec a v s :
  ∃ s', Attr_set_value a v s = Ret tt s'
        ∧ same_indices s s'
        ∧ (a < List.length (heap s) → Attr.data (heap s' !!! a) = v).
Proof.
  unfold Attr_set_value. msimpl.
  case_bool_decide as Hd.
  - eexists. split; [reflexivity|]. split; [apply same_indices_refl|done].
  - destruct (Attr.hook (heap s !!! a)); msimpl;
      destruct (rooted (element s)); msimpl;
      (eexists; split; [reflexivity|]; split;
       [split; msimpl; try done; by rewrite length_insert
       |intros Hlt; msimpl; by rewrite list_lookup_total_insert_eq]).
Qed.

Lemma notify_removed_spec a s :
  ∃ s', notify_removed a s = Ret tt s' ∧ same_indices s s'
        ∧ heap s' = heap s.
Proof.
  unfold notify_removed. msimpl.
  destruct (Attr.hook (heap s !!! a)); msimpl;
    destruct (rooted (element s)); msimpl;
    (eexists; split; [reflexivity|by split]).
Qed.
End Invariant.

Section Preservation.
Context `{Externals}.

Lemma wf_set_byQName_insert q e s :
  wf s → entry_ok (List.length (heap s)) e →
  wf (set_byQName <[q := e]> s).
Proof.
  intros [W1 W2 W3 W4] He. split; msimpl; try done.
  by apply map_Forall_insert_2.
Qed.

Lemma wf_set_byQName_delete q s :
  wf s → wf (set_byQName (delete q) s).
Proof.
  intros [W1 W2 W3 W4]. split; msimpl; try done.
  by apply map_Forall_delete.
Qed.

Lemma wf_assign k a s :
  wf s → a < List.length (heap s) →
  wf (refresh_keys (set_byNSAndLName (OMap.assign k a) s)).
Proof.
  intros [W1 W2 W3 W4] Ha. split; msimpl; try done.
  - by apply OMap_assign_Forall.
  - apply OMap_keys_length.
Qed.

Lemma wf_delete k s :
  wf s → wf (refresh_keys (set_byNSAndLName (OMap.delete k) s)).
Proof.
  intros [W1 W2 W3 W4]. split; msimpl; try done.
  - by apply OMap_delete_Forall.
  - apply OMap_keys_length.
Qed.

Lemma wf_update a x s :
  wf s → wf (set_heap (λ h, <[a := x h]> h) s).
Proof.
  intros [W1 W2 W3 W4]. split; msimpl; try done;
    by rewrite length_insert.
Qed.

Lemma wf_alloc x s :
  wf s → wf (set_heap (λ h, h ++ [x]) s).
Proof.
  intros [W1 W2 W3 W4]. split; msimpl; try done;
    rewrite length_app; simpl.
  - eapply map_Forall_impl; [exact W1|].
    intros q e. apply entry_ok_mono. lia.
  - eapply (Forall_bound_mono snd); [|exact W2]. lia.
Qed.

Lemma _newAttr_spec qname s :
  ∃ s', _newAttr qname s = Ret (List.length (heap s)) s'
        ∧ element s' = element s
        ∧ byQName s' = <[qname := One (List.length (heap s))]> (byQName s)
        ∧ heap s' = heap s ++ [Attr.new (_attrDecls (element s) !! qname) qname None None]
        ∧ (wf s → wf s').
Proof.
  unfold _newAttr. msimpl. eexists. split; [reflexivity|].
  refine (conj eq_refl (conj eq_refl (conj eq_refl _))).
  intros W.
  apply (wf_assign _ _ (set_byQName _ (set_heap _ s))).
  - apply wf_set_byQName_insert; [by apply wf_alloc|].
    msimpl. rewrite length_app. simpl. lia.
  - msimpl. rewrite length_app. simpl. lia.
Qed.

Lemma _addQName_spec attr s :
  wf s → attr < List.length (heap s) →
  ∃ s', _addQName attr s = Ret tt s'
        ∧ wf s' ∧ element s' = element s ∧ heap s' = heap s
        ∧ byNSAndLName s' = byNSAndLName s.
Proof.
  intros W Ha. unfold _addQName, lookupQName. msimpl.
  destruct (byQName s !! Attr.name (heap s !!! attr)) as [[|e|l iv]|] eqn:E;
    msimpl; (eexists; split; [reflexivity|]; split; [|done]);
    apply wf_set_byQName_insert; try done; simpl.
  - split; [done|]. repeat constructor; [|done].
    exact (map_Forall_lookup_1 _ _ _ _ (wf_byQName _ W) E).
  - destruct (map_Forall_lookup_1 _ _ _ _ (wf_byQName _ W) E) as [Hl Hall].
    split; [rewrite length_app; lia|].
    apply Forall_app. split; [done|]. by repeat constructor.
Qed.

Lemma indexOf_lt l a i : indexOf l a = Some i → i < List.length l.
Proof.
  revert i. induction l as [|x l IH]; simpl; [done|].
  destruct (Nat.eqb x a).
  - intros i [= <-]. lia.
  - destruct (indexOf l a) as [j|]; simpl; [|done].
    intros i [= <-]. specialize (IH j eq_refl). lia.
Qed.

Lemma _removeQName_spec attr s :
  wf s →
  wf (state_of (_removeQName attr s))
  ∧ element (state_of (_removeQName attr s)) = element s
  ∧ heap (state_of (_removeQName attr s)) = heap s.
Proof.
  intros W. unfold _removeQName. msimpl.
  destruct (byQName s !! Attr.name (heap s !!! attr)) as [[|e|l iv]|] eqn:E;
    msimpl; try done.
  - destruct (Nat.eqb e attr); msimpl; [|done].
    split; [|done]. by apply wf_set_byQName_delete.
  - destruct (map_Forall_lookup_1 _ _ _ _ (wf_byQName _ W) E) as [Hl Hall].
    destruct (indexOf l attr) as [idx|] eqn:Ei; msimpl; [|done].
    pose proof (indexOf_lt _ _ _ Ei) as Hidx.
    destruct (Nat.eqb (List.length l) 2) eqn:E2; msimpl.
    + apply Nat.eqb_eq in E2. split; [|done].
      apply wf_set_byQName_insert; [done|].
      destruct (lookup_lt_is_Some_2 l (1 - idx)) as [b Hb]; [lia|].
      rewrite Hb. simpl.
      rewrite Forall_lookup in Hall. exact (Hall _ _ Hb).
    + apply Nat.eqb_neq in E2. split; [|done].
      apply wf_set_byQName_insert; [done|]. simpl. split.
      * rewrite length_delete; [lia|]. by apply lookup_lt_is_Some_2.
      * by apply Forall_delete.
Qed.
End Preservation.

Section Methods.
Context `{Externals}.

Lemma wf_first_attr s q e :
  wf s → byQName s !! q = Some e →
  ∃ a, first_attr (Some e) = Some a ∧ a < List.length (heap s).
Proof.
  intros W E.
  pose proof (map_Forall_lookup_1 _ _ _ _ (wf_byQName _ W) E) as Hok.
  destruct e as [|a|l iv]; simpl in *; [done|by exists a|].
  destruct Hok as [Hl Hall].
  destruct (lookup_lt_is_Some_2 l 0) as [a Ha]; [lia|].
  exists a. split; [done|].
  rewrite Forall_lookup in Hall. exact (Hall _ _ Ha).
Qed.

(** What an accepted [setAttribute] does. *)
Lemma setAttribute_accepted qname value s :
  wf s → isValidName qname = true → reserved (qualified s qname) = false →
  ∃ s' a, setAttribute qname value s = Ret tt s'
          ∧ wf s' ∧ element s' = element s
          ∧ first_attr (byQName s' !! qualified s qname) = Some a
          ∧ Attr.data (heap s' !!! a) = value
          ∧ (byQName s !! qualified s qname = None →
             List.length (heap s') = S (List.length (heap s))).
Proof.
  intros W Hvalid Hres. unfold setAttribute, normalize, lookupQName.
  rewrite Hvalid. cbn [negb]. msimpl. fold (qualified s qname).
  unfold reserved in Hres. rewrite Hres.
  set (q := qualified s qname) in *. msimpl.
  destruct (byQName s !! q) as [e|] eqn:E.
  - destruct (wf_first_attr _ _ _ W E) as (a & Hfirst & Ha).
    destruct (Attr_set_value_spec a value s) as (s' & Eset & Hsame & Hdata).
    exists s', a.
    rewrite (same_byQName _ _ Hsame), E.
    destruct e as [|a0|l iv]; simpl in Hfirst; [done| |]; msimpl.
    + injection Hfirst as ->.
      split; [done|]. split; [by eapply same_indices_wf|].
      split; [apply Hsame|]. split; [done|]. split; [auto|done].
    + rewrite Hfirst.
      split; [done|]. split; [by eapply same_indices_wf|].
      split; [apply Hsame|]. split; [done|]. split; [auto|done].
  - msimpl.
    destruct (_newAttr_spec q s) as (s1 & E1 & Hel & Hq & Hheap & Hwf).
    rewrite E1. msimpl.
    destruct (Attr_set_value_spec (List.length (heap s)) value s1)
      as (s' & Eset & Hsame & Hdata).
    exists s', (List.length (heap s)). rewrite Eset.
    split; [done|]. split; [eapply same_indices_wf; eauto|].
    split; [by rewrite (same_element _ _ Hsame)|].
    rewrite (same_byQName _ _ Hsame), Hq, lookup_insert_eq.
    split; [done|]. split.
    + apply Hdata. rewrite Hheap, length_app. simpl. lia.
    + intros _. rewrite (same_heap_size _ _ Hsame), Hheap, length_app.
      simpl. lia.
Qed.

Lemma setAttribute_wf qname value s :
  wf s → wf (state_of (setAttribute qname value s)).
Proof.
  intros W.
  destruct (isValidName qname) eqn:Hvalid;
    [|unfold setAttribute; by rewrite Hvalid].
  destruct (reserved (qualified s qname)) eqn:Hres.
  - unfold setAttribute, normalize. rewrite Hvalid. cbn [negb]. msimpl.
    fold (qualified s qname). unfold reserved in Hres. by rewrite Hres.
  - destruct (setAttribute_accepted qname value s W Hvalid Hres)
      as (s' & a & -> & W' & _). exact W'.
Qed.

Lemma set_wf qname value s : wf s → wf (state_of (set qname value s)).
Proof.
  intros W. unfold set, lookupQName. msimpl.
  destruct (byQName s !! qname) as [[|a|l iv]|] eqn:E; msimpl.
  - destruct (_newAttr_spec qname s) as (s1 & -> & _ & _ & _ & Hwf).
    msimpl. apply wf_update. auto.
  - by apply (wf_update a (λ h, Attr.with_idlvalue value (h !!! a))).
  - apply wf_set_byQName_insert; [done|].
    exact (map_Forall_lookup_1 _ _ _ _ (wf_byQName _ W) E).
  - destruct (_newAttr_spec qname s) as (s1 & -> & _ & _ & _ & Hwf).
    msimpl. apply wf_update. auto.
Qed.

Lemma removeAttribute_wf qname s :
  wf s → wf (state_of (removeAttribute qname s)).
Proof.
  intros W. unfold removeAttribute, normalize, lookupQName. msimpl.
  fold (qualified s qname). set (q := qualified s qname).
  destruct (byQName s !! q) as [e|] eqn:E; [|done].
  pose proof (map_Forall_lookup_1 _ _ _ _ (wf_byQName _ W) E) as Hok.
  destruct e as [|a|l iv]; simpl in Hok; [done| |].
  - msimpl.
    match goal with
    | |- context [notify_removed a ?s1] =>
        destruct (notify_removed_spec a s1) as (s' & -> & Hsame & _);
        msimpl; apply (same_indices_wf s1); [done|]
    end.
    apply wf_delete. by apply wf_set_byQName_delete.
  - destruct Hok as [Hl Hall].
    destruct l as [|a [|b l]]; simpl in Hl; try lia.
    destruct (Nat.ltb 2 (List.length (a :: b :: l))) eqn:E2; msimpl;
      simpl;
      match goal with
      | |- context [notify_removed a ?s1] =>
          destruct (notify_removed_spec a s1) as (s' & -> & Hsame & _);
          msimpl; apply (same_indices_wf s1); [done|]
      end;
      apply wf_delete; apply wf_set_byQName_insert; try done; simpl.
    + apply Nat.ltb_lt in E2. simpl in E2.
      split; [lia|]. by inversion Hall.
    + inversion Hall as [|? ? _ Hall']. by inversion Hall'.
Qed.

Lemma removeAttributeNS_wf ns lname s :
  wf s → wf (state_of (removeAttributeNS ns lname s)).
Proof.
  intros W. unfold removeAttributeNS. msimpl.
  destruct (OMap.lookup _ (byNSAndLName s)) as [attr|] eqn:E; [|done].
  msimpl.
  match goal with
  | |- context [_removeQName attr ?s1] =>
      assert (W1 : wf s1) by (by apply wf_delete);
      destruct (_removeQName_spec attr s1 W1) as (W2 & _ & _);
      destruct (_removeQName attr s1) as [[] s2|e s2]; msimpl; [|done]
  end.
  destruct (notify_removed_spec attr s2) as (s' & -> & Hsame & _).
  msimpl. by apply (same_indices_wf s2).
Qed.

Lemma setAttributeNS_wf ns qname value s :
  wf s → wf (state_of (setAttributeNS ns qname value s)).
Proof.
  intros W. unfold setAttributeNS.
  destruct (negb (isValidName qname)); [done|].
  destruct (negb (isValidQName qname)); [done|].
  destruct (match String.index 0 ":" qname with
            | Some pos => _ | None => _ end) as [prefix lname].
  match goal with |- context [if ?c then throw NamespaceError else _] =>
    destruct c; [done|] end.
  msimpl.
  destruct (OMap.lookup _ (byNSAndLName s)) as [attr|] eqn:E; msimpl.
  - pose proof (OMap_lookup_bound _ _ _ _ (wf_byNSAndLName _ W) E) as Ha.
    destruct (negb (opt_string_eqb (Attr.prefix (heap s !!! attr)) prefix));
      msimpl.
    + destruct (_removeQName_spec attr s W) as (W1 & _ & Hheap1).
      destruct (_removeQName attr s) as [[] s1|e s1]; msimpl; [|done].
      simpl in W1, Hheap1.
      match goal with
      | |- context [_addQName attr ?s2] =>
          destruct (_addQName_spec attr s2) as (s3 & -> & W3 & _);
          [by apply wf_update
          |msimpl; rewrite length_insert, Hheap1; exact Ha|]
      end.
      msimpl.
      destruct (Attr_set_value_spec attr value s3) as (s' & -> & Hsame & _).
      by apply (same_indices_wf s3).
    + destruct (Attr_set_value_spec attr value s) as (s' & -> & Hsame & _).
      by apply (same_indices_wf s).
  - match goal with
    | |- context [_addQName ?a ?s2] =>
        destruct (_addQName_spec a s2) as (s3 & -> & W3 & _);
        [apply wf_assign; [by apply wf_alloc|]
        |msimpl
        |msimpl];
        try (msimpl; rewrite length_app; simpl; lia)
    end.
    match goal with
    | |- context [Attr_set_value ?a value s3] =>
        destruct (Attr_set_value_spec a value s3) as (s' & -> & Hsame & _)
    end.
    by apply (same_indices_wf s3).
Qed.

Lemma call_wf c s : wf s → wf (state_of (call c s)).
Proof.
  destruct c; simpl;
    auto using setAttribute_wf, setAttributeNS_wf, removeAttribute_wf,
               removeAttributeNS_wf, set_wf.
Qed.

(** Every state of a collection is well formed, whatever calls were
    made on it and whichever of them threw. *)
Lemma reachable_wf s : reachable s → wf s.
Proof.
  induction 1 as [elt|s c _ IH]; [apply Attributes_wf|by apply call_wf].
Qed.
End Methods.

Lemma with_data_same a : Attr.with_data (Attr.data a) a = a.
Proof. by destruct a. Qed.

Section Assignment.
Context `{Externals}.

(** The heap after an assignment to [value]. *)
Lemma Attr_set_value_heap a v s :
  ∃ s', Attr_set_value a v s = Ret tt s'
        ∧ same_indices s s'
        ∧ heap s' = <[a := Attr.with_data v (heap s !!! a)]> (heap s).
Proof.
  unfold Attr_set_value. msimpl.
  case_bool_decide as Hd.
  - exists s. split; [done|]. split; [apply same_indices_refl|].
    destruct (decide (a < List.length (heap s))) as [Hlt|Hge].
    + destruct (lookup_lt_is_Some_2 _ _ Hlt) as [x Hx].
      symmetry. apply list_insert_id.
      rewrite (list_lookup_total_correct _ _ _ Hx) in *.
      by rewrite <- Hd, with_data_same.
    + symmetry. apply list_insert_ge. lia.
  - destruct (Attr.hook (heap s !!! a)); msimpl;
      destruct (rooted (element s)); msimpl;
      (eexists; split; [reflexivity|]; split; [|done];
       split; msimpl; try done; by rewrite length_insert).
Qed.
End Assignment.

(** ** The indices agree when no namespace is null *)

Lemma no_bar_app a b : no_bar (a +:+ b) = no_bar a && no_bar b.
Proof.
  induction a as [|c a IH]; simpl; [done|].
  rewrite IH. by rewrite andb_assoc.
Qed.

Lemma no_bar_substring n m s : no_bar s = true → no_bar (String.substring n m s) = true.
Proof.
  revert n m. induction s as [|c s IH]; intros n m Hs.
  - by destruct n, m.
  - simpl in Hs. apply andb_true_iff in Hs as [Hc Hs].
    destruct n as [|n]; simpl.
    + destruct m as [|m]; simpl; [done|].
      rewrite Hc. simpl. by apply IH.
    + by apply IH.
Qed.

Lemma append_nil_l s : "" +:+ s = s.
Proof. reflexivity. Qed.

Lemma append_cons c a s : String c a +:+ s = String c (a +:+ s).
Proof. reflexivity. Qed.

(** A key determines the namespace part and the local name. *)
Lemma key_split a a' l l' :
  no_bar l = true → no_bar l' = true →
  a +:+ "|" +:+ l = a' +:+ "|" +:+ l' → a = a' ∧ l = l'.
Proof.
  intros Hl Hl'. revert a'.
  induction a as [|c a IH]; intros [|c' a'] Heq;
    repeat (rewrite append_cons in Heq || rewrite append_nil_l in Heq).
  - by injection Heq as ->.
  - injection Heq as <- Heq. subst l.
    rewrite no_bar_app in Hl. simpl in Hl.
    by rewrite andb_false_r in Hl.
  - injection Heq as -> Heq. subst l'.
    rewrite no_bar_app in Hl'. simpl in Hl'.
    by rewrite andb_false_r in Hl'.
  - injection Heq as -> Heq. destruct (IH _ Heq) as [-> ->]. done.
Qed.

Section OMapFacts.
Context {V : Type}.
Implicit Types (m : list (string * V)).

Lemma OMap_lookup_Some_elem k m v : OMap.lookup k m = Some v → (k, v) ∈ m.
Proof.
  induction m as [|[k' v'] m IH]; simpl; [done|].
  destruct (String.eqb_spec k k') as [->|Hne].
  - intros [= ->]. left.
  - intros Hl. right. auto.
Qed.

Lemma OMap_lookup_None k m : OMap.lookup k m = None ↔ k ∉ m.*1.
Proof.
  induction m as [|[k' v'] m IH]; simpl.
  - split; [intros _; apply not_elem_of_nil|done].
  - rewrite not_elem_of_cons.
    destruct (String.eqb_spec k k') as [->|Hne]; simpl.
    + split; [done|]. intros [Hne _]. done.
    + rewrite IH. tauto.
Qed.

Lemma OMap_elem_lookup k m v :
  NoDup m.*1 → (k, v) ∈ m → OMap.lookup k m = Some v.
Proof.
  induction m as [|[k' v'] m IH]; simpl.
  - intros _ Hin. by apply elem_of_nil in Hin.
  - intros Hnd Hin. apply NoDup_cons in Hnd as [Hk' Hnd].
    apply elem_of_cons in Hin as [[= -> ->]|Hin].
    + by rewrite String.eqb_refl.
    + destruct (String.eqb_spec k k') as [->|Hne]; [|auto].
      exfalso. apply Hk'. apply list_elem_of_fmap. by exists (k', v).
Qed.

Lemma OMap_assign_fresh k v m :
  OMap.lookup k m = None → OMap.assign k v m = m ++ [(k, v)].
Proof.
  induction m as [|[k' v'] m IH]; simpl; [done|].
  destruct (String.eqb k k'); [done|].
  intros Hl. by rewrite IH.
Qed.

Lemma OMap_elem_delete k k' v m :
  (k', v) ∈ OMap.delete k m ↔ (k', v) ∈ m ∧ k' ≠ k.
Proof.
  induction m as [|[k'' v''] m IH]; simpl.
  - split; [intros Hin; by apply elem_of_nil in Hin|].
    intros [Hin _]. by apply elem_of_nil in Hin.
  - destruct (String.eqb_spec k k'') as [->|Hne].
    + rewrite IH, elem_of_cons. split; [tauto|].
      intros [[[= -> ->]|Hin] Hk]; [done|tauto].
    + rewrite !elem_of_cons, IH. split.
      * intros [[= -> ->]|[Hin Hk]]; [split; [by left|done]|tauto].
      * intros [[[= -> ->]|Hin] Hk]; [by left|tauto].
Qed.

Lemma OMap_delete_keys_NoDup k m :
  NoDup m.*1 → NoDup (OMap.delete k m).*1.
Proof.
  induction m as [|[k' v'] m IH]; simpl; [done|].
  intros Hnd. apply NoDup_cons in Hnd as [Hk' Hnd].
  destruct (String.eqb k k'); [auto|].
  simpl. apply NoDup_cons. split; [|auto].
  intros Hin. apply Hk'.
  apply list_elem_of_fmap in Hin as [[k'' v''] [Heq Hin]].
  simpl in Heq. subst k''.
  apply OMap_elem_delete in Hin as [Hin _].
  apply list_elem_of_fmap. by exists (k', v'').
Qed.
End OMapFacts.

Lemma indexOf_elem l a : a ∈ l → ∃ idx, indexOf l a = Some idx.
Proof.
  induction l as [|x l IH]; intros Hin; [by apply elem_of_nil in Hin|].
  simpl. destruct (Nat.eqb_spec x a) as [->|Hne]; [by eexists|].
  apply elem_of_cons in Hin as [->|Hin]; [done|].
  destruct (IH Hin) as [idx ->]. by eexists.
Qed.

Lemma indexOf_lookup l a idx : indexOf l a = Some idx → l !! idx = Some a.
Proof.
  revert idx. induction l as [|x l IH]; intros idx; simpl; [done|].
  destruct (Nat.eqb_spec x a) as [->|Hne].
  - by intros [= <-].
  - destruct (indexOf l a) as [j|]; simpl; [|done].
    intros [= <-]. simpl. auto.
Qed.

Lemma elem_of_delete_NoDup (l : list nat) i a b :
  NoDup l → l !! i = Some a → b ∈ delete i l ↔ b ∈ l ∧ b ≠ a.
Proof.
  intros Hnd Hi.
  rewrite <- (take_drop_middle l i a Hi) in Hnd at 1.
  rewrite <- (take_drop_middle l i a Hi) at 2.
  rewrite delete_take_drop.
  apply NoDup_app in Hnd as (_ & Hdisj & Hnd2).
  apply NoDup_cons in Hnd2 as [Ha2 _].
  rewrite !elem_of_app, elem_of_cons. split.
  - intros [Hin|Hin].
    + split; [by left|]. intros ->. apply (Hdisj a Hin). left.
    + split; [by right; right|]. by intros ->.
  - intros [[Hin|[->|Hin]] Hne]; [by left|done|by right].
Qed.

Lemma same_names_name x y : same_names x y → Attr.name x = Attr.name y.
Proof. intros (Hl & Hp & _). unfold Attr.name. by rewrite Hl, Hp. Qed.

Lemma same_names_key_of x y : same_names x y → key_of x = key_of y.
Proof. intros (Hl & _ & Hn). unfold key_of. by rewrite Hl, Hn. Qed.

Lemma same_names_well_named x y : same_names x y → well_named y → well_named x.
Proof. intros (Hl & Hp & Hn). unfold well_named. by rewrite Hl, Hp, Hn. Qed.

Lemma same_names_refl x : same_names x x.
Proof. by repeat split. Qed.

Lemma elem_of_snd {A B} (a : A) (b : B) (l : list (A * B)) : (a, b) ∈ l → b ∈ l.*2.
Proof. intros Hin. apply list_elem_of_fmap. by exists (a, b). Qed.

Lemma elem_of_snd_inv {A B} (b : B) (l : list (A * B)) : b ∈ l.*2 → ∃ a, (a, b) ∈ l.
Proof.
  intros Hin. apply list_elem_of_fmap in Hin as [[a b'] [-> Hin]]. by exists a.
Qed.

Lemma NoDup_keys_functional {V} k (a b : V) (N : list (string * V)) :
  NoDup N.*1 → (k, a) ∈ N → (k, b) ∈ N → a = b.
Proof.
  intros Hnd Ha Hb.
  pose proof (OMap_elem_lookup _ _ _ Hnd Ha) as Ea.
  pose proof (OMap_elem_lookup _ _ _ Hnd Hb) as Eb.
  congruence.
Qed.

Section Linked.
Variables (N : list (string * nat)) (R R' : string → nat → Prop)
          (I I' : nat → Attr.t).
Hypothesis HL : linked N R I.

Lemma linked_ext :
  (∀ q a, R' q a ↔ R q a) →
  (∀ k a, (k, a) ∈ N → same_names (I' a) (I a)) →
  linked N R' I'.
Proof.
  intros HR HI. destruct HL as [L1 L2 L3 L4 L5]. split; [done|..].
  - intros k a Hin. rewrite (same_names_key_of _ _ (HI k a Hin)). eauto.
  - intros k a Hin. eapply same_names_well_named; eauto.
  - intros k a Hin. rewrite HR, (same_names_name _ _ (HI k a Hin)). eauto.
  - intros q a Hq. apply HR in Hq. destruct (L5 q a Hq) as [-> Hin].
    split; [|done].
    destruct (elem_of_snd_inv _ _ Hin) as [k Hk].
    by rewrite (same_names_name _ _ (HI k a Hk)).
Qed.

Lemma linked_remove k0 a0 :
  (k0, a0) ∈ N →
  (∀ q b, R' q b ↔ R q b ∧ b ≠ a0) →
  linked (OMap.delete k0 N) R' I.
Proof.
  intros H0 HR. destruct HL as [L1 L2 L3 L4 L5]. split.
  - by apply OMap_delete_keys_NoDup.
  - intros k a Hin. apply OMap_elem_delete in Hin as [Hin _]. eauto.
  - intros k a Hin. apply OMap_elem_delete in Hin as [Hin _]. eauto.
  - intros k a Hin. apply OMap_elem_delete in Hin as [Hin Hk].
    apply HR. split; [eauto|]. intros ->.
    apply Hk. rewrite (L2 _ _ Hin), (L2 _ _ H0). done.
  - intros q b Hq. apply HR in Hq as [Hq Hne].
    destruct (L5 q b Hq) as [-> Hin]. split; [done|].
    destruct (elem_of_snd_inv _ _ Hin) as [k Hk].
    apply (elem_of_snd k). apply OMap_elem_delete. split; [done|].
    intros ->. apply Hne. by apply (NoDup_keys_functional k0 b a0 N).
Qed.

Lemma linked_insert k0 a0 :
  OMap.lookup k0 N = None → a0 ∉ N.*2 →
  k0 = key_of (I' a0) → well_named (I' a0) →
  (∀ k a, (k, a) ∈ N → same_names (I' a) (I a)) →
  (∀ q b, R' q b ↔ R q b ∨ (q = Attr.name (I' a0) ∧ b = a0)) →
  linked (N ++ [(k0, a0)]) R' I'.
Proof.
  intros Hk0 Ha0 Hkey Hnamed HI HR. destruct HL as [L1 L2 L3 L4 L5].
  split.
  - rewrite fmap_app. apply NoDup_app. split; [done|]. split.
    + intros k Hk Hin. apply list_elem_of_singleton in Hin. simpl in Hin.
      subst k. by apply OMap_lookup_None in Hk0.
    + simpl. apply NoDup_singleton.
  - intros k a Hin. apply elem_of_app in Hin as [Hin|Hin].
    + rewrite (same_names_key_of _ _ (HI k a Hin)). eauto.
    + apply list_elem_of_singleton in Hin. by injection Hin as -> ->.
  - intros k a Hin. apply elem_of_app in Hin as [Hin|Hin].
    + eapply same_names_well_named; eauto.
    + apply list_elem_of_singleton in Hin. by injection Hin as -> ->.
  - intros k a Hin. apply HR. apply elem_of_app in Hin as [Hin|Hin].
    + left. rewrite (same_names_name _ _ (HI k a Hin)). eauto.
    + apply list_elem_of_singleton in Hin. injection Hin as -> ->. by right.
  - intros q b Hq. rewrite fmap_app, elem_of_app.
    apply HR in Hq as [Hq|[-> ->]].
    + destruct (L5 q b Hq) as [-> Hin]. split; [|by left].
      destruct (elem_of_snd_inv _ _ Hin) as [k Hk].
      by rewrite (same_names_name _ _ (HI k b Hk)).
    + split; [done|]. right. simpl. apply list_elem_of_singleton. done.
Qed.

Lemma linked_rename k0 a0 :
  (k0, a0) ∈ N →
  Attr.localName (I' a0) = Attr.localName (I a0) →
  Attr.namespaceURI (I' a0) = Attr.namespaceURI (I a0) →
  well_named (I' a0) →
  (∀ k a, (k, a) ∈ N → a ≠ a0 → same_names (I' a) (I a)) →
  (∀ q b, R' q b ↔ (R q b ∧ b ≠ a0) ∨ (q = Attr.name (I' a0) ∧ b = a0)) →
  linked N R' I'.
Proof.
  intros H0 Hl Hn Hnamed HI HR. destruct HL as [L1 L2 L3 L4 L5].
  split; [done|..].
  - intros k a Hin. destruct (decide (a = a0)) as [->|Hne].
    + rewrite (L2 _ _ Hin). unfold key_of. by rewrite Hl, Hn.
    + rewrite (same_names_key_of _ _ (HI k a Hin Hne)). eauto.
  - intros k a Hin. destruct (decide (a = a0)) as [->|Hne]; [done|].
    eapply same_names_well_named; eauto.
  - intros k a Hin. apply HR. destruct (decide (a = a0)) as [->|Hne].
    + by right.
    + left. rewrite (same_names_name _ _ (HI k a Hin Hne)). eauto.
  - intros q b Hq. apply HR in Hq as [[Hq Hne]|[-> ->]].
    + destruct (L5 q b Hq) as [-> Hin]. split; [|done].
      destruct (elem_of_snd_inv _ _ Hin) as [k Hk].
      by rewrite (same_names_name _ _ (HI k b Hk Hne)).
    + split; [done|]. by apply (elem_of_snd k0).
Qed.
End Linked.

Lemma inQ_insert s qn e' q b :
  inQ (set_byQName <[qn := e']> s) q b
  ↔ (q = qn ∧ b ∈ entry_attrs e') ∨ (q ≠ qn ∧ inQ s q b).
Proof.
  unfold inQ. msimpl. destruct (decide (q = qn)) as [->|Hne].
  - rewrite lookup_insert_eq. split.
    + intros (e & [= <-] & Hin). by left.
    + intros [[_ Hin]|[Hne _]]; [|done]. by exists e'.
  - rewrite lookup_insert_ne by done. split.
    + intros Hq. by right.
    + intros [[Heq _]|[_ Hq]]; done.
Qed.

Lemma inQ_delete s qn q b :
  inQ (set_byQName (delete qn) s) q b ↔ q ≠ qn ∧ inQ s q b.
Proof.
  unfold inQ. msimpl. destruct (decide (q = qn)) as [->|Hne].
  - rewrite lookup_delete_eq. split.
    + by intros (e & [=] & _).
    + by intros [Hne _].
  - rewrite lookup_delete_ne by done. split; [by intros Hq|by intros [_ Hq]].
Qed.

Lemma inQ_lookup s q e b :
  byQName s !! q = Some e → inQ s q b ↔ b ∈ entry_attrs e.
Proof.
  intros E. unfold inQ. rewrite E. split.
  - by intros (e' & [= <-] & Hin).
  - intros Hin. by exists e.
Qed.

Lemma inQ_lookup_None s q b : byQName s !! q = None → ¬ inQ s q b.
Proof. intros E (e & E' & _). congruence. Qed.

Lemma buckets_nodup_insert s qn e' :
  buckets_nodup s → NoDup (entry_attrs e') →
  buckets_nodup (set_byQName <[qn := e']> s).
Proof.
  intros Hb He q e. msimpl. destruct (decide (q = qn)) as [->|Hne].
  - rewrite lookup_insert_eq. by intros [= <-].
  - rewrite lookup_insert_ne by done. apply Hb.
Qed.

Lemma buckets_nodup_delete s qn :
  buckets_nodup s → buckets_nodup (set_byQName (delete qn) s).
Proof.
  intros Hb q e. msimpl. destruct (decide (q = qn)) as [->|Hne].
  - by rewrite lookup_delete_eq.
  - rewrite lookup_delete_ne by done. apply Hb.
Qed.

Section Buckets.
Context `{Externals}.

Lemma _addQName_linked attr s :
  wf s → attr < List.length (heap s) → buckets_nodup s →
  (∀ q, ¬ inQ s q attr) →
  ∃ s', _addQName attr s = Ret tt s'
        ∧ wf s' ∧ buckets_nodup s'
        ∧ element s' = element s ∧ heap s' = heap s
        ∧ byNSAndLName s' = byNSAndLName s
        ∧ (∀ q b, inQ s' q b
                  ↔ inQ s q b ∨ (q = Attr.name (heap s !!! attr) ∧ b = attr)).
Proof.
  intros W Ha Hb Hfresh.
  destruct (_addQName_spec attr s W Ha) as (s' & E' & W' & Hel & Hh & Hn).
  exists s'. split; [done|]. split; [done|].
  unfold _addQName, lookupQName in E'. msimpl.
  set (qn := Attr.name (heap s !!! attr)) in *.
  destruct (byQName s !! qn) as [[|e|l iv]|] eqn:E; msimpl;
    injection E' as <-; (split; [|split; [done|split; [done|split; [done|]]]]).
  - apply buckets_nodup_insert; [done|]. apply NoDup_singleton.
  - intros q b. rewrite inQ_insert. simpl. rewrite list_elem_of_singleton.
    pose proof (map_Forall_lookup_1 _ _ _ _ (wf_byQName _ W) E). done.
  - apply buckets_nodup_insert; [done|]. simpl.
    apply NoDup_cons. split; [|apply NoDup_singleton].
    rewrite list_elem_of_singleton. intros ->.
    apply (Hfresh qn). apply (inQ_lookup _ _ _ _ E). simpl.
    by apply list_elem_of_singleton.
  - intros q b. rewrite inQ_insert. simpl.
    destruct (decide (q = qn)) as [->|Hne].
    + rewrite (inQ_lookup _ _ _ _ E). simpl.
      rewrite elem_of_cons, !list_elem_of_singleton. tauto.
    + tauto.
  - apply buckets_nodup_insert; [done|]. simpl.
    apply NoDup_app. split; [exact (Hb _ _ E)|]. split; [|apply NoDup_singleton].
    intros x Hx Hx'. apply list_elem_of_singleton in Hx'. subst x.
    apply (Hfresh qn). by apply (inQ_lookup _ _ _ _ E).
  - intros q b. rewrite inQ_insert. simpl.
    destruct (decide (q = qn)) as [->|Hne].
    + rewrite (inQ_lookup _ _ _ _ E). simpl.
      rewrite elem_of_app, list_elem_of_singleton. tauto.
    + tauto.
  - apply buckets_nodup_insert; [done|]. apply NoDup_singleton.
  - intros q b. rewrite inQ_insert. simpl. rewrite list_elem_of_singleton.
    pose proof (inQ_lookup_None s qn b E) as Hnone.
    destruct (decide (q = qn)) as [->|Hne]; [tauto|tauto].
Qed.

Lemma _removeQName_core attr s :
  wf s → buckets_nodup s → inQ s (Attr.name (heap s !!! attr)) attr →
  ∃ s', _removeQName attr s = Ret tt s'
        ∧ buckets_nodup s'
        ∧ byNSAndLName s' = byNSAndLName s
        ∧ (∀ q b, inQ s' q b
                  ↔ inQ s q b
                    ∧ ¬ (q = Attr.name (heap s !!! attr) ∧ b = attr)).
Proof.
  intros W Hb Hin.
  set (qn := Attr.name (heap s !!! attr)) in *.
  destruct Hin as (e & E & Hin).
  pose proof (map_Forall_lookup_1 _ _ _ _ (wf_byQName _ W) E) as Hok.
  pose proof (Hb _ _ E) as Hnd.
  unfold _removeQName. msimpl. fold qn. rewrite E.
  destruct e as [|b0|l iv]; simpl in Hok, Hin, Hnd; [done| |].
  - apply list_elem_of_singleton in Hin. subst b0.
    rewrite Nat.eqb_refl. msimpl.
    eexists. split; [reflexivity|].
    split; [by apply buckets_nodup_delete|]. split; [done|].
    intros q b. rewrite inQ_delete.
    destruct (decide (q = qn)) as [->|Hne]; [|tauto].
    rewrite (inQ_lookup _ _ _ _ E). simpl. rewrite list_elem_of_singleton.
    tauto.
  - destruct Hok as [Hlen Hbound].
    destruct (indexOf_elem _ _ Hin) as [idx Eidx].
    pose proof (indexOf_lookup _ _ _ Eidx) as Hidx.
    pose proof (indexOf_lt _ _ _ Eidx) as Hlt.
    rewrite Eidx. msimpl.
    destruct (Nat.eqb_spec (List.length l) 2) as [Hl2|Hl2]; msimpl.
    + destruct l as [|x [|y [|z l]]]; simpl in Hl2; try lia.
      assert (Hother : ∃ o, [x; y] !! (1 - idx) = Some o
                            ∧ ∀ b, b = o ↔ b ∈ [x; y] ∧ b ≠ attr).
      { apply NoDup_cons in Hnd as [Hxy _].
        rewrite list_elem_of_singleton in Hxy.
        destruct idx as [|[|idx]]; simpl in Hidx, Hlt; try lia;
          injection Hidx as ->; eexists; (split; [reflexivity|]);
          intros b; rewrite elem_of_cons, list_elem_of_singleton;
          intuition congruence. }
      destruct Hother as (o & -> & Ho).
      eexists. split; [reflexivity|].
      split; [apply buckets_nodup_insert; [done|apply NoDup_singleton]|].
      split; [done|].
      intros q b. rewrite inQ_insert. simpl. rewrite list_elem_of_singleton.
      destruct (decide (q = qn)) as [->|Hne]; [|tauto].
      rewrite (inQ_lookup _ _ _ _ E). simpl. rewrite Ho. tauto.
    + eexists. split; [reflexivity|].
      split.
      { apply buckets_nodup_insert; [done|]. simpl.
        rewrite delete_take_drop.
        rewrite <- (take_drop_middle l idx attr Hidx) in Hnd.
        apply NoDup_app in Hnd as (Hn1 & Hdisj & Hn2).
        apply NoDup_cons in Hn2 as [Hn2 Hn3].
        apply NoDup_app. split; [done|]. split; [|done].
        intros x Hx Hx'. apply (Hdisj x Hx). by right. }
      split; [done|].
      intros q b. rewrite inQ_insert. simpl.
      destruct (decide (q = qn)) as [->|Hne]; [|tauto].
      rewrite (inQ_lookup _ _ _ _ E). simpl.
      rewrite (elem_of_delete_NoDup l idx attr b Hnd Hidx). tauto.
Qed.

Lemma _removeQName_linked attr s :
  wf s → buckets_nodup s → inQ s (Attr.name (heap s !!! attr)) attr →
  ∃ s', _removeQName attr s = Ret tt s'
        ∧ wf s' ∧ buckets_nodup s'
        ∧ element s' = element s ∧ heap s' = heap s
        ∧ byNSAndLName s' = byNSAndLName s
        ∧ (∀ q b, inQ s' q b
                  ↔ inQ s q b
                    ∧ ¬ (q = Attr.name (heap s !!! attr) ∧ b = attr)).
Proof.
  intros W Hb Hin.
  destruct (_removeQName_core attr s W Hb Hin) as (s' & E' & Hb' & Hn & HR).
  destruct (_removeQName_spec attr s W) as (W' & Hel & Hh).
  rewrite E' in W', Hel, Hh. simpl in W', Hel, Hh.
  exists s'. done.
Qed.
End Buckets.

Lemma inQ_eq s s' q b : byQName s' = byQName s → inQ s' q b ↔ inQ s q b.
Proof. intros E. unfold inQ. by rewrite E. Qed.

Lemma update_same_names (h : list Attr.t) a f b :
  (∀ x, same_names (f x) x) →
  same_names (<[a := f (h !!! a)]> h !!! b) (h !!! b).
Proof.
  intros Hf. destruct (decide (b = a)) as [->|Hne].
  - destruct (decide (a < List.length h)) as [Hlt|Hge].
    + rewrite list_lookup_total_insert_eq by done. apply Hf.
    + rewrite list_insert_ge by lia. apply same_names_refl.
  - rewrite list_lookup_total_insert_ne by done. apply same_names_refl.
Qed.

Lemma wf_inNS_bound s k a : wf s → (k, a) ∈ byNSAndLName s → a < List.length (heap s).
Proof.
  intros W Hin. pose proof (wf_byNSAndLName _ W) as Hall.
  rewrite Forall_forall in Hall. exact (Hall _ Hin).
Qed.

(** A call that changes no index and no name keeps the indices in
    agreement. *)
Lemma consistent_frame s s' :
  byQName s' = byQName s → byNSAndLName s' = byNSAndLName s →
  (∀ k a, (k, a) ∈ byNSAndLName s →
          same_names (heap s' !!! a) (heap s !!! a)) →
  wf s' → consistent s → consistent s'.
Proof.
  intros Hq Hn Hnames W' [W L B]. split; [done| |].
  - rewrite Hn. eapply linked_ext; [exact L| |done].
    intros q a. by apply inQ_eq.
  - intros q e. rewrite Hq. apply B.
Qed.

Section Agreement.
Context `{Externals}.
Hypothesis valid_no_bar : ∀ q, isValidName q = true → no_bar q = true.
Hypothesis lower_no_bar : ∀ q, no_bar q = true → no_bar (toLowerCase q) = true.

Lemma Attributes_consistent elt : consistent (Attributes elt).
Proof.
  split; [apply Attributes_wf| |].
  - split; simpl.
    + constructor.
    + intros k a Hin. by apply elem_of_nil in Hin.
    + intros k a Hin. by apply elem_of_nil in Hin.
    + intros k a Hin. by apply elem_of_nil in Hin.
    + intros q a (e & E & _). cbn [Attributes byQName] in E.
      by rewrite lookup_empty in E.
  - intros q e E. cbn [Attributes byQName] in E.
    by rewrite lookup_empty in E.
Qed.

Lemma Attr_set_value_consistent a v s :
  consistent s →
  ∃ s', Attr_set_value a v s = Ret tt s' ∧ consistent s'.
Proof.
  intros C.
  destruct (Attr_set_value_heap a v s) as (s' & E & Hsame & Hheap).
  exists s'. split; [done|].
  apply (consistent_frame s); [apply Hsame|apply Hsame| |
    exact (same_indices_wf _ _ Hsame (consistent_wf _ C))|done].
  intros k b _. rewrite Hheap. by apply update_same_names.
Qed.

Lemma notify_removed_consistent a s :
  consistent s →
  ∃ s', notify_removed a s = Ret tt s' ∧ consistent s'.
Proof.
  intros C.
  destruct (notify_removed_spec a s) as (s' & E & Hsame & Hheap).
  exists s'. split; [done|].
  apply (consistent_frame s); [apply Hsame|apply Hsame| |
    exact (same_indices_wf _ _ Hsame (consistent_wf _ C))|done].
  intros k b _. rewrite Hheap. apply same_names_refl.
Qed.

Lemma update_consistent a f s :
  (∀ x, same_names (f x) x) → consistent s →
  consistent (set_heap (λ h, <[a := f (h !!! a)]> h) s).
Proof.
  intros Hf C.
  apply (consistent_frame s); [done|done| |
    by apply wf_update, consistent_wf|done].
  intros k b _. msimpl. by apply update_same_names.
Qed.

Lemma _newAttr_consistent qname s :
  consistent s → no_bar qname = true → byQName s !! qname = None →
  consistent (state_of (_newAttr qname s)).
Proof.
  intros [W L B] Hbar Hnone.
  destruct (_newAttr_spec qname s) as (s' & E & Hel & Hq & Hheap & Hwf).
  assert (Hn : byNSAndLName s'
               = OMap.assign ("|" +:+ qname) (List.length (heap s))
                   (byNSAndLName s)).
  { unfold _newAttr in E. msimpl. by injection E as <-. }
  rewrite E. cbn [state_of].
  set (new := Attr.new (_attrDecls (element s) !! qname) qname None None) in *.
  assert (Hnew : heap s' !!! List.length (heap s) = new).
  { rewrite Hheap. apply list_lookup_total_correct.
    by rewrite list_lookup_middle. }
  assert (Hfresh : OMap.lookup ("|" +:+ qname) (byNSAndLName s) = None).
  { destruct (OMap.lookup _ _) as [a|] eqn:El; [exfalso|done].
    apply OMap_lookup_Some_elem in El.
    pose proof (linked_key _ _ _ L _ _ El) as Hkey.
    destruct (linked_named _ _ _ L _ _ El) as (Hb & Hns & Hpre).
    unfold key_of in Hkey.
    destruct (key_split "" _ _ _ Hbar Hb Hkey) as [Hempty Hl].
    assert (Hnone' : Attr.namespaceURI (heap s !!! a) = None).
    { destruct (Attr.namespaceURI (heap s !!! a)) as [n|]; [|done].
      simpl in Hempty. by subst n. }
    pose proof (linked_ns_q _ _ _ L _ _ El) as Hin.
    unfold Attr.name in Hin. rewrite (Hpre Hnone'), <- Hl in Hin.
    by apply (inQ_lookup_None s qname a). }
  split; [auto| |].
  - rewrite Hn, (OMap_assign_fresh _ _ _ Hfresh).
    apply (linked_insert _ (inQ s) _ (λ a, heap s !!! a)); [done|done| | | | |].
    + intros Hin. apply elem_of_snd_inv in Hin as [k Hk].
      pose proof (wf_inNS_bound _ _ _ W Hk). lia.
    + by rewrite Hnew.
    + rewrite Hnew. by repeat split.
    + intros k a Hin. rewrite Hheap.
      rewrite lookup_total_app_l by exact (wf_inNS_bound _ _ _ W Hin).
      apply same_names_refl.
    + intros q b. rewrite Hnew.
      rewrite (inQ_eq (set_byQName <[qname := One (List.length (heap s))]> s) s')
        by done.
      rewrite inQ_insert. simpl. rewrite list_elem_of_singleton.
      change (Attr.name new) with qname.
      pose proof (inQ_lookup_None s qname b Hnone).
      destruct (decide (q = qname)) as [->|Hne]; tauto.
  - intros q e. rewrite Hq. destruct (decide (q = qname)) as [->|Hne].
    + rewrite lookup_insert_eq. intros [= <-]. apply NoDup_singleton.
    + rewrite lookup_insert_ne by done. apply B.
Qed.

Lemma no_bar_qualified s qname :
  isValidName qname = true → no_bar (qualified s qname) = true.
Proof.
  intros Hv. unfold qualified.
  destruct (isHTML (element s)); auto.
Qed.

Lemma setAttribute_consistent qname value s :
  consistent s → consistent (state_of (setAttribute qname value s)).
Proof.
  intros C. pose proof (consistent_wf _ C) as W.
  unfold setAttribute, normalize, lookupQName.
  destruct (isValidName qname) eqn:Hv; cbn [negb]; [|done].
  msimpl. fold (qualified s qname).
  pose proof (no_bar_qualified s qname Hv) as Hbar.
  set (q := qualified s qname) in *.
  destruct (String.eqb _ "xmlns"); msimpl; [done|].
  destruct (byQName s !! q) as [e|] eqn:E.
  - pose proof (map_Forall_lookup_1 _ _ _ _ (wf_byQName _ W) E) as Hok.
    destruct e as [|a|l iv]; simpl in Hok; [done| |]; msimpl.
    + by destruct (Attr_set_value_consistent a value s C) as (s' & -> & C').
    + destruct (l !! 0) as [a|]; [|done].
      by destruct (Attr_set_value_consistent a value s C) as (s' & -> & C').
  - msimpl.
    pose proof (_newAttr_consistent q s C Hbar E) as C1.
    destruct (_newAttr_spec q s) as (s1 & E1 & _).
    rewrite E1 in C1 |- *. cbn [state_of] in C1. msimpl.
    by destruct (Attr_set_value_consistent (List.length (heap s)) value s1 C1)
      as (s' & -> & C').
Qed.

Lemma set_consistent qname value s :
  consistent s → no_bar qname = true →
  consistent (state_of (set qname value s)).
Proof.
  intros C Hbar. pose proof (consistent_wf _ C) as W.
  unfold set, lookupQName. msimpl.
  destruct (byQName s !! qname) as [e|] eqn:E.
  - pose proof (map_Forall_lookup_1 _ _ _ _ (wf_byQName _ W) E) as Hok.
    destruct e as [|a|l iv]; simpl in Hok; [done| |]; msimpl.
    + apply update_consistent; [|done]. intros x. by repeat split.
    + destruct C as [_ L B]. split.
      * apply wf_set_byQName_insert; [done|]. exact Hok.
      * msimpl. eapply linked_ext; [exact L| |intros; apply same_names_refl].
        intros q b. rewrite inQ_insert. simpl.
        destruct (decide (q = qname)) as [->|Hne]; [|tauto].
        rewrite (inQ_lookup _ _ _ _ E). simpl. tauto.
      * apply buckets_nodup_insert; [done|]. exact (B _ _ E).
  - msimpl.
    pose proof (_newAttr_consistent qname s C Hbar E) as C1.
    destruct (_newAttr_spec qname s) as (s1 & E1 & _).
    rewrite E1 in C1 |- *. cbn [state_of] in C1. msimpl.
    apply update_consistent; [|done]. intros x. by repeat split.
Qed.

(** The state after one Attr has left both indices. *)
Lemma consistent_removed s s' k a :
  consistent s → (k, a) ∈ byNSAndLName s →
  wf s' → buckets_nodup s' → heap s' = heap s →
  byNSAndLName s' = OMap.delete k (byNSAndLName s) →
  (∀ q b, inQ s' q b
          ↔ inQ s q b ∧ ¬ (q = Attr.name (heap s !!! a) ∧ b = a)) →
  consistent s'.
Proof.
  intros [W L B] Hin W' B' Hh Hn HR. split; [done| |done].
  rewrite Hn, Hh. eapply linked_remove; [exact L|exact Hin|].
  intros q b. rewrite HR. split; [|tauto].
  intros [Hq Hne]. split; [done|]. intros ->.
  apply Hne. split; [|done].
  exact (proj1 (linked_q_ns _ _ _ L _ _ Hq)).
Qed.

Lemma inQ_inNS s q a :
  consistent s → inQ s q a →
  q = Attr.name (heap s !!! a)
  ∧ (key_of (heap s !!! a), a) ∈ byNSAndLName s.
Proof.
  intros [_ L _] Hq. destruct (linked_q_ns _ _ _ L _ _ Hq) as [Hname Hin].
  split; [done|]. apply elem_of_snd_inv in Hin as [k Hk].
  by rewrite <- (linked_key _ _ _ L _ _ Hk).
Qed.

Lemma removeAttribute_consistent qname s :
  consistent s → consistent (state_of (removeAttribute qname s)).
Proof.
  intros C. pose proof (consistent_wf _ C) as W.
  pose proof (consistent_buckets _ C) as B.
  unfold removeAttribute, normalize, lookupQName. msimpl.
  fold (qualified s qname). set (q := qualified s qname).
  destruct (byQName s !! q) as [e|] eqn:E; [|done].
  pose proof (map_Forall_lookup_1 _ _ _ _ (wf_byQName _ W) E) as Hok.
  pose proof (B _ _ E) as Hnd.
  assert (Hgoal : ∀ a s1,
    a ∈ entry_attrs e → wf s1 → buckets_nodup s1 → heap s1 = heap s →
    byNSAndLName s1 = byNSAndLName s → keys s1 = keys s →
    length s1 = length s → element s1 = element s →
    (∀ q' b, inQ s1 q' b ↔ inQ s q' b ∧ ¬ (q' = q ∧ b = a)) →
    consistent
      (state_of
         (notify_removed a
            (refresh_keys
               (set_byNSAndLName
                  (OMap.delete (or_empty (Attr.namespaceURI (heap s1 !!! a))
                                +:+ "|" +:+ Attr.localName (heap s1 !!! a)))
                  s1))))).
  { intros a s1 Ha W1 B1 Hh1 Hn1 Hk1 Hl1 He1 HR1.
    assert (Hq : inQ s q a) by (by apply (inQ_lookup _ _ _ _ E)).
    destruct (inQ_inNS s q a C Hq) as [Hname Hin].
    rewrite Hh1. fold (key_of (heap s !!! a)).
    match goal with
    | |- context [notify_removed a ?s2] =>
        destruct (notify_removed_consistent a s2) as (s' & -> & C'); [|done]
    end.
    apply (consistent_removed s _ (key_of (heap s !!! a)) a); try done.
    - by apply wf_delete.
    - msimpl. by rewrite Hn1.
    - intros q' b.
      rewrite (inQ_eq s1 (refresh_keys (set_byNSAndLName _ s1))) by done.
      by rewrite HR1, Hname. }
  destruct e as [|a|l iv]; simpl in Hok, Hnd; [done| |]; msimpl.
  - apply (Hgoal a (set_byQName (delete q) s)); try done.
    + simpl. by apply list_elem_of_singleton.
    + by apply wf_set_byQName_delete.
    + by apply buckets_nodup_delete.
    + intros q' b. rewrite inQ_delete.
      destruct (decide (q' = q)) as [->|Hne]; [|tauto].
      rewrite (inQ_lookup _ _ _ _ E). simpl. rewrite list_elem_of_singleton.
      tauto.
  - destruct Hok as [Hlen Hbound].
    destruct l as [|a [|b0 rest]]; simpl in Hlen; try lia.
    apply NoDup_cons in Hnd as [Ha Hnd'].
    assert (Hrest : ∀ b, b ∈ b0 :: rest ↔ b ∈ a :: b0 :: rest ∧ b ≠ a).
    { intros b. rewrite (elem_of_cons (b0 :: rest) b a).
      split; [|tauto]. intros Hb. split; [by right|]. by intros ->. }
    destruct (Nat.ltb 2 (List.length (a :: b0 :: rest))) eqn:E2; msimpl;
      simpl;
      match goal with
      | |- context [set_byNSAndLName _ ?s1] => apply (Hgoal a s1)
      end; try done; try (simpl; by left).
    + apply wf_set_byQName_insert; [done|]. simpl.
      apply Nat.ltb_lt in E2. simpl in E2. split; [lia|].
      by inversion Hbound.
    + by apply buckets_nodup_insert.
    + intros q' b. rewrite inQ_insert. simpl.
      destruct (decide (q' = q)) as [->|Hne]; [|tauto].
      rewrite (inQ_lookup _ _ _ _ E). simpl. specialize (Hrest b). tauto.
    + apply wf_set_byQName_insert; [done|]. simpl.
      inversion Hbound as [|? ? _ Hb']. by inversion Hb'.
    + apply buckets_nodup_insert; [done|]. apply NoDup_singleton.
    + apply Nat.ltb_ge in E2. simpl in E2.
      destruct rest; simpl in E2; [|lia].
      intros q' b. rewrite inQ_insert. simpl.
      destruct (decide (q' = q)) as [->|Hne]; [|tauto].
      rewrite (inQ_lookup _ _ _ _ E). simpl. specialize (Hrest b). tauto.
Qed.

Lemma removeAttributeNS_consistent ns lname s :
  consistent s → consistent (state_of (removeAttributeNS ns lname s)).
Proof.
  intros C. pose proof (consistent_wf _ C) as W.
  pose proof (consistent_buckets _ C) as B.
  pose proof (consistent_linked _ C) as L.
  unfold removeAttributeNS. msimpl.
  set (key := or_empty ns +:+ "|" +:+ lname).
  destruct (OMap.lookup key (byNSAndLName s)) as [a|] eqn:E; [|done].
  apply OMap_lookup_Some_elem in E. msimpl.
  match goal with
  | |- context [_removeQName a ?s1] =>
      destruct (_removeQName_linked a s1)
        as (s2 & -> & W2 & B2 & He2 & Hh2 & Hn2 & HR2);
      [by apply wf_delete|done
      |msimpl; rewrite (inQ_eq s s1) by done;
       exact (linked_ns_q _ _ _ L _ _ E)|]
  end.
  msimpl.
  destruct (notify_removed_consistent a s2) as (s' & -> & C'); [|done].
  apply (consistent_removed s s2 key a); try done.
Qed.

Lemma or_null_not_empty x : or_null x ≠ Some "".
Proof.
  destruct x as [n|]; simpl; [|done].
  destruct (String.eqb_spec n ""); congruence.
Qed.

Lemma setAttributeNS_consistent n qname value s :
  consistent s →
  consistent (state_of (setAttributeNS (Some n) qname value s)).
Proof.
  intros C. pose proof (consistent_wf _ C) as W.
  pose proof (consistent_buckets _ C) as B.
  pose proof (consistent_linked _ C) as L.
  unfold setAttributeNS.
  destruct (isValidName qname) eqn:Hv; cbn [negb]; [|done].
  destruct (isValidQName qname); cbn [negb]; [|done].
  pose proof (valid_no_bar _ Hv) as Hbar.
  destruct (match String.index 0 ":" qname with
            | Some pos => _ | None => _ end) as [prefix lname] eqn:Epl.
  assert (Hl : no_bar lname = true).
  { destruct (String.index 0 ":" qname); injection Epl as <- <-; [|done].
    by apply no_bar_substring. }
  cbn [to_string_or_null].
  set (key := n +:+ "|" +:+ lname).
  set (ns' := if opt_string_eqb (Some n) (Some "") then None else Some n).
  assert (Hns' : or_empty (or_null ns') = n
                 ∧ (or_null ns' = None → ns' = None)).
  { unfold ns', opt_string_eqb. case_bool_decide as Hd.
    - injection Hd as ->. done.
    - simpl. destruct (String.eqb_spec n "") as [->|Hne]; [done|].
      split; [done|]. intros [=]. }
  destruct Hns' as [Hns1 Hns2].
  match goal with
  | |- context [if ?c then throw NamespaceError else _] =>
      destruct c eqn:Hcond; [done|]
  end.
  assert (Hpre : ns' = None → prefix = None).
  { intros Hnone.
    apply orb_false_iff in Hcond as [Hcond _].
    apply orb_false_iff in Hcond as [Hcond _].
    apply orb_false_iff in Hcond as [Hcond _].
    unfold opt_string_eqb in Hcond. rewrite Hnone in Hcond.
    rewrite (bool_decide_eq_true_2 (@None string = None)) in Hcond by done.
    rewrite andb_true_r in Hcond. apply negb_false_iff in Hcond.
    by apply bool_decide_eq_true_1 in Hcond. }
  clear Hcond. msimpl.
  destruct (OMap.lookup key (byNSAndLName s)) as [a|] eqn:E; msimpl.
  - (* an Attr with this namespace and local name exists *)
    apply OMap_lookup_Some_elem in E.
    set (this := heap s !!! a) in *.
    destruct (negb (opt_string_eqb (Attr.prefix this) prefix)); msimpl;
      [|by destruct (Attr_set_value_consistent a value s C)
             as (s' & -> & C')].
    destruct (_removeQName_linked a s W B (linked_ns_q _ _ _ L _ _ E))
      as (s1 & -> & W1 & B1 & He1 & Hh1 & Hn1 & HR1).
    msimpl. fold this in HR1.
    pose proof (wf_inNS_bound _ _ _ W E) as Ha.
    match goal with
    | |- context [_addQName a ?s2] =>
        destruct (_addQName_linked a s2)
          as (s3 & -> & W3 & B3 & He3 & Hh3 & Hn3 & HR3);
        [by apply wf_update
        |msimpl; by rewrite length_insert, Hh1
        |done
        |intros q Hq; rewrite (inQ_eq s1 s2) in Hq by done;
         apply HR1 in Hq as [Hq Hne]; apply Hne; split; [|done];
         exact (proj1 (linked_q_ns _ _ _ L _ _ Hq))
        |]
    end.
    msimpl.
    assert (C3 : consistent s3).
    { split; [done| |done].
      rewrite Hn3. msimpl. rewrite Hn1.
      assert (Hnew : heap s3 !!! a = Attr.with_prefix prefix this).
      { rewrite Hh3. msimpl. rewrite Hh1.
        by rewrite list_lookup_total_insert_eq. }
      eapply (linked_rename _ (inQ s) _ (λ b, heap s !!! b));
        [exact L|exact E|by rewrite Hnew|by rewrite Hnew| | |].
      - rewrite Hnew.
        destruct (linked_named _ _ _ L _ _ E) as (Hb & Hne & _).
        split; [done|]. split; [done|]. simpl. intros Hnone.
        pose proof (linked_key _ _ _ L _ _ E) as Hkey.
        unfold key_of in Hkey. fold this in Hkey. rewrite Hnone in Hkey.
        destruct (key_split n "" _ _ Hl Hb Hkey) as [-> _].
        rewrite Hpre; [done|]. by apply Hns2.
      - intros k b Hin Hne. rewrite Hh3. msimpl. rewrite Hh1.
        rewrite list_lookup_total_insert_ne by done.
        apply same_names_refl.
      - intros q b. rewrite Hnew, HR3. msimpl. rewrite Hh1.
        rewrite list_lookup_total_insert_eq by done.
        match goal with
        | |- inQ ?s2 q b ∨ _ ↔ _ => rewrite (inQ_eq s1 s2) by done
        end.
        rewrite HR1. fold this. split.
        + intros [[Hq Hne]|Hq]; [left|by right].
          split; [done|]. intros ->. apply Hne. split; [|done].
          exact (proj1 (linked_q_ns _ _ _ L _ _ Hq)).
        + intros [[Hq Hne]|Hq]; [left|by right].
          split; [done|]. by intros [_ ->]. }
    by destruct (Attr_set_value_consistent a value s3 C3) as (s' & -> & C').
  - (* a new Attr *)
    apply OMap_lookup_None in E as Efresh. apply OMap_lookup_None in Efresh.
    set (decl := if opt_truthy prefix then None
                 else _attrDecls (element s) !! lname).
    set (new := Attr.new decl lname prefix ns').
    set (a := List.length (heap s)).
    match goal with
    | |- context [_addQName a ?s1] =>
        destruct (_addQName_linked a s1)
          as (s2 & -> & W2 & B2 & He2 & Hh2 & Hn2 & HR2);
        [apply wf_assign; [by apply wf_alloc|];
         msimpl; rewrite length_app; simpl; lia
        |msimpl; rewrite length_app; simpl; lia
        |done
        |intros q Hq; rewrite (inQ_eq s s1) in Hq by done;
         destruct (inQ_inNS s q a C Hq) as [_ Hin];
         pose proof (wf_inNS_bound _ _ _ W Hin); lia
        |]
    end.
    msimpl.
    assert (Hnew : heap s2 !!! a = new).
    { rewrite Hh2. msimpl. apply list_lookup_total_correct.
      by rewrite list_lookup_middle. }
    assert (C2 : consistent s2).
    { split; [done| |done].
      rewrite Hn2. msimpl. rewrite (OMap_assign_fresh _ _ _ Efresh).
      eapply (linked_insert _ (inQ s) _ (λ b, heap s !!! b));
        [exact L|exact Efresh| | | | |].
      - intros Hin. apply elem_of_snd_inv in Hin as [k Hk].
        pose proof (wf_inNS_bound _ _ _ W Hk). unfold a in *. lia.
      - rewrite Hnew. unfold key_of, new. cbn [Attr.new Attr.namespaceURI
          Attr.localName]. by rewrite Hns1.
      - rewrite Hnew. split; [done|]. split; [apply or_null_not_empty|].
        cbn [new Attr.new Attr.namespaceURI Attr.prefix]. intros Hnone.
        by rewrite (Hpre (Hns2 Hnone)).
      - intros k b Hin. rewrite Hh2. msimpl.
        rewrite lookup_total_app_l by exact (wf_inNS_bound _ _ _ W Hin).
        apply same_names_refl.
      - intros q b. rewrite HR2.
        match goal with
        | |- inQ ?s1 q b ∨ _ ↔ _ => rewrite (inQ_eq s s1) by done
        end.
        rewrite <- Hh2, Hnew. done. }
    by destruct (Attr_set_value_consistent a value s2 C2) as (s' & -> & C').
Qed.

Lemma call_consistent c s :
  legal c → consistent s → consistent (state_of (call c s)).
Proof.
  destruct c as [q v|ns q v|q|ns l|q v]; simpl; intros Hlegal C.
  - by apply setAttribute_consistent.
  - destruct ns as [n|]; [|done]. by apply setAttributeNS_consistent.
  - by apply removeAttribute_consistent.
  - by apply removeAttributeNS_consistent.
  - by apply set_consistent.
Qed.

Lemma calls_consistent cs s :
  Forall legal cs → consistent s → consistent (calls cs s).
Proof.
  intros Hcs. revert s.
  induction Hcs as [|c cs Hc _ IH]; intros s C; [done|].
  apply IH. by apply call_consistent.
Qed.
End Agreement.

Lemma byQName_attrs_inQ s a : a ∈ byQName_attrs s ↔ ∃ q, inQ s q a.
Proof.
  unfold byQName_attrs, inQ.
  apply (map_fold_weak_ind
           (λ r m, a ∈ r ↔ ∃ q e, m !! q = Some e ∧ a ∈ entry_attrs e)).
  - split; [intros Hin; by apply elem_of_nil in Hin|].
    intros (q & e & E & _). by rewrite lookup_empty in E.
  - intros q e m r Hnone IH. rewrite elem_of_app, IH. split.
    + intros [Hin|(q' & e' & E' & Hin)].
      * exists q, e. by rewrite lookup_insert_eq.
      * exists q', e'. split; [|done].
        rewrite lookup_insert_ne; [done|]. intros ->. congruence.
    + intros (q' & e' & E' & Hin).
      destruct (decide (q = q')) as [->|Hne].
      * rewrite lookup_insert_eq in E'. injection E' as ->. by left.
      * rewrite lookup_insert_ne in E' by done. right. by exists q', e'.
Qed.

Lemma consistent_indices_agree s : consistent s → indices_agree s.
Proof.
  intros [W L _]. split; [|split; [apply W|apply W]].
  intros a. rewrite byQName_attrs_inQ. unfold byNSAndLName_attrs. split.
  - intros Hin. apply elem_of_snd_inv in Hin as [k Hk].
    eexists. exact (linked_ns_q _ _ _ L _ _ Hk).
  - intros [q Hq]. exact (proj2 (linked_q_ns _ _ _ L _ _ Hq)).
Qed.

(** When "|" is in no legal name, the two indices and the sequence agree
    after any calls that never give [setAttributeNS] a null namespace
    (and give the raw [set] legal names only). *)
Lemma legal_calls_agree `{Externals} elt cs :
  (∀ q, isValidName q = true → no_bar q = true) →
  (∀ q, no_bar q = true → no_bar (toLowerCase q) = true) →
  Forall legal cs → indices_agree (calls cs (Attributes elt)).
Proof.
  intros Hvalid Hlower Hcs. apply consistent_indices_agree.
  apply calls_consistent; [done|done|done|apply Attributes_consistent].
Qed.

Lemma ascii_name_char_no_bar c :
  AsciiHost.name_char c = true → Ascii.eqb c "|" = false.
Proof. destruct c as [[] [] [] [] [] [] [] []]; by vm_compute. Qed.

Lemma ascii_valid_no_bar q : AsciiHost.valid_name q = true → no_bar q = true.
Proof.
  assert (Hall : ∀ s, AsciiHost.all_chars AsciiHost.name_char s = true →
                      no_bar s = true).
  { induction s as [|c s IH]; simpl; [done|].
    intros [Hc Hs]%andb_true_iff.
    by rewrite (ascii_name_char_no_bar c Hc), IH. }
  destruct q as [|c q]; simpl; [done|].
  intros [Hc Hq]%andb_true_iff.
  assert (Hc' : AsciiHost.name_char c = true).
  { unfold AsciiHost.name_char. by rewrite Hc. }
  by rewrite (ascii_name_char_no_bar c Hc'), Hall.
Qed.

Lemma ascii_lower_char_no_bar c :
  Ascii.eqb c "|" = false → Ascii.eqb (AsciiHost.lower_char c) "|" = false.
Proof. destruct c as [[] [] [] [] [] [] [] []]; by vm_compute. Qed.

Lemma ascii_lower_no_bar q : no_bar q = true → no_bar (AsciiHost.lower q) = true.
Proof.
  induction q as [|c q IH]; simpl; [done|].
  intros [Hc Hq]%andb_true_iff. apply negb_true_iff in Hc.
  by rewrite (ascii_lower_char_no_bar c Hc), IH.
Qed.

(** The same for the ASCII helpers. *)
Lemma legal_calls_agree_ascii elt cs :
  Forall legal cs →
  indices_agree (calls (H := AsciiHost.host) cs (Attributes elt)).
Proof.
  apply (legal_calls_agree (H := AsciiHost.host)).
  - exact ascii_valid_no_bar.
  - exact ascii_lower_no_bar.
Qed.

(** ** The properties of the specification *)

Section Claims.
Context `{Externals}.

Lemma getAttribute_first qname a s :
  first_attr (byQName s !! qualified s qname) = Some a →
  getAttribute qname s = Ret (Attr.data (heap s !!! a)) s.
Proof.
  unfold getAttribute, normalize, lookupQName, Attr_value. msimpl.
  fold (qualified s qname).
  destruct (byQName s !! qualified s qname) as [[|b|l iv]|]; simpl;
    try done.
  - by intros [= ->].
  - by intros ->.
Qed.

Lemma hasAttribute_first qname a s :
  first_attr (byQName s !! qualified s qname) = Some a →
  hasAttribute qname s = Ret true s.
Proof.
  unfold hasAttribute, normalize. msimpl. fold (qualified s qname).
  destruct (byQName s !! qualified s qname) as [e|]; simpl; [|done].
  done.
Qed.


(** C1. On every collection, for every name [qname] that is valid for
    [setAttribute] (a legal XML name whose normalized form does not
    start with the reserved "xmlns": the names the method accepts) and
    every string [v]: [setAttribute(qname, v)] returns, and
    [getAttribute(qname)] then returns [v]; both calls normalize
    [qname] in the same way. *)
Theorem setAttribute_then_getAttribute s qname v :
  reachable s → accepted s qname = true →
  ∃ s', setAttribute qname (VString v) s = Ret tt s'
        ∧ getAttribute qname s' = Ret (VString v) s'.
Proof.
  intros Hreach [Hvalid Hres%negb_true_iff]%andb_true_iff.
  destruct (setAttribute_accepted qname (VString v) s
              (reachable_wf s Hreach) Hvalid Hres)
    as (s' & a & Hset & _ & Hel & Hfirst & Hdata & _).
  exists s'. split; [exact Hset|].
  rewrite (getAttribute_first qname a).
  - by rewrite Hdata.
  - unfold qualified in *. by rewrite Hel.
Qed.

(** C10. The "xmlns" test of [setAttribute] is made on the normalized
    name. For a legal name whose lower-case form starts with "xmlns"
    but which does not itself: on an HTML element the call throws
    NamespaceError and changes nothing; on a non-HTML element it
    returns, the attribute is present afterwards, and a new Attr was
    created if there was none of that name. *)
Theorem xmlns_test_follows_normalization s_html s_xml qname value :
  isValidName qname = true →
  reserved (toLowerCase qname) = true → reserved qname = false →
  isHTML (element s_html) = true → isHTML (element s_xml) = false →
  reachable s_xml →
  setAttribute qname value s_html = Throw NamespaceError s_html
  ∧ ∃ s', setAttribute qname value s_xml = Ret tt s'
          ∧ hasAttribute qname s' = Ret true s'
          ∧ (byQName s_xml !! qname = None →
             List.length (heap s') = S (List.length (heap s_xml))).
Proof.
  intros Hvalid Hlow Hlit Hhtml Hxml Hreach. split.
  - unfold setAttribute, normalize. rewrite Hvalid. cbn [negb]. msimpl.
    rewrite Hhtml. unfold reserved in Hlow. by rewrite Hlow.
  - assert (Hq : qualified s_xml qname = qname)
      by (unfold qualified; by rewrite Hxml).
    destruct (setAttribute_accepted qname value s_xml
                (reachable_wf s_xml Hreach) Hvalid)
      as (s' & a & Hset & _ & Hel & Hfirst & _ & Hnew);
      [by rewrite Hq|].
    exists s'. split; [exact Hset|]. split.
    + apply (hasAttribute_first qname a).
      unfold qualified in *. by rewrite Hel.
    + by rewrite Hq in Hnew.
Qed.
End Claims.

Import AsciiHost.

Lemma setAttribute_then_getAttribute_witness :
  ∃ s', setAttribute "Title" (VString "x") (Attributes html_element) = Ret tt s'
        ∧ getAttribute "Title" s' = Ret (VString "x") s'.
Proof.
  apply (setAttribute_then_getAttribute (Attributes html_element) "Title" "x").
  - apply reachable_new.
  - reflexivity.
Defined.

Lemma xmlns_test_follows_normalization_witness :
  setAttribute "XMLNSfoo" (VString "v") (Attributes html_element)
  = Throw NamespaceError (Attributes html_element)
  ∧ ∃ s', setAttribute "XMLNSfoo" (VString "v") (Attributes xml_element) = Ret tt s'
          ∧ hasAttribute "XMLNSfoo" s' = Ret true s'
          ∧ (byQName (Attributes xml_element) !! "XMLNSfoo" = None →
             List.length (heap s') = S (List.length (heap (Attributes xml_element)))).
Proof.
  apply (xmlns_test_follows_normalization
           (Attributes html_element) (Attributes xml_element) "XMLNSfoo" (VString "v")).
  - reflexivity.
  - reflexivity.
  - reflexivity.
  - reflexivity.
  - reflexivity.
  - apply reachable_new.
Defined.

Lemma append_length a b : String.length (a +:+ b) = String.length a + String.length b.
Proof. induction a as [|c a IH]; simpl; [done|]. by rewrite IH. Qed.

Lemma append_ne_suffix a b : a ≠ "" → a +:+ b ≠ b.
Proof.
  intros Ha Heq. apply (f_equal String.length) in Heq.
  rewrite append_length in Heq.
  destruct a; [done|]. simpl in Heq. lia.
Qed.

Section Duplicates.
Context `{Externals}.

Variables (elt : Element) (nsA x y : string).
Hypothesis Hname : isValidName "foo" = true.
Hypothesis Hqname : isValidQName "foo" = true.
Hypothesis Hlower : toLowerCase "foo" = "foo".
Hypothesis Hns : nsA ≠ "".
Hypothesis Hxmlns : nsA ≠ XMLNS_NAMESPACE.

Local Lemma qualified_foo s : element s = elt → qualified s "foo" = "foo".
Proof.
  intros Hel. unfold qualified. rewrite Hel.
  destruct (isHTML elt); done.
Qed.

Local Lemma after_setAttribute :
  ∃ s, setAttribute "foo" (VString y) (Attributes elt) = Ret tt s
       ∧ element s = elt
       ∧ byQName s = {["foo" := One 0]}
       ∧ byNSAndLName s = [("|foo", 0)]
       ∧ heap s = [plain_foo elt y].
Proof.
  unfold setAttribute, normalize, lookupQName, _newAttr.
  rewrite Hname. cbn [negb]. msimpl. cbn [Attributes element].
  replace (if isHTML elt then toLowerCase "foo" else "foo") with "foo"
    by (destruct (isHTML elt); done).
  cbn [String.substring String.eqb Ascii.eqb Bool.eqb].
  msimpl. cbn [Attributes byQName]. rewrite lookup_empty. msimpl.
  match goal with
  | |- context [Attr_set_value ?a ?v ?s1] =>
      destruct (Attr_set_value_heap a v s1) as (s & -> & Hsame & Hheap)
  end.
  exists s. split; [done|].
  rewrite (same_element _ _ Hsame), (same_byQName _ _ Hsame),
    (same_byNSAndLName _ _ Hsame), Hheap.
  done.
Qed.

Local Lemma after_setAttributeNS s :
  element s = elt → byQName s = {["foo" := One 0]} →
  byNSAndLName s = [("|foo", 0)] → heap s = [plain_foo elt y] →
  ∃ s', setAttributeNS (Some nsA) "foo" (VString x) s = Ret tt s'
        ∧ element s' = elt
        ∧ byQName s' = {["foo" := Many [0; 1] VUndefined]}
        ∧ byNSAndLName s' = [("|foo", 0); (nsA +:+ "|foo", 1)]
        ∧ heap s' = [plain_foo elt y; namespaced_foo elt nsA x].
Proof.
  intros Hel Hq Hn Hh.
  assert (Hk : String.eqb (nsA +:+ "|foo") "|foo" = false).
  { apply String.eqb_neq. by apply append_ne_suffix. }
  assert (Hn1 : opt_string_eqb (Some nsA) (Some "") = false).
  { unfold opt_string_eqb. apply bool_decide_eq_false_2. congruence. }
  assert (Hn2 : String.eqb nsA XMLNS_NAMESPACE = false)
    by (by apply String.eqb_neq).
  assert (Hn3 : String.eqb nsA "" = false) by (by apply String.eqb_neq).
  assert (Hidx : String.index 0 ":" "foo" = None) by reflexivity.
  unfold setAttributeNS, _addQName, lookupQName.
  rewrite Hname, Hqname, Hidx, Hn1. cbn [negb ns_is to_string_or_null].
  rewrite Hn2. unfold opt_string_eqb.
  replace (bool_decide (@None string = None)) with true by reflexivity.
  replace (bool_decide (@None string = Some "xml")) with false by reflexivity.
  replace (bool_decide (@None string = Some "xmlns")) with false by reflexivity.
  replace (String.eqb "foo" "xmlns") with false by reflexivity.
  cbn [negb andb orb]. msimpl.
  replace ("|" +:+ "foo") with "|foo" by reflexivity.
  rewrite Hn. cbn [OMap.lookup]. rewrite Hk. msimpl.
  rewrite Hh, Hel, ?Hn, ?Hq.
  match goal with
  | |- context [Attr.name ?a] => change (Attr.name a) with "foo"
  end.
  rewrite lookup_singleton_eq. msimpl.
  match goal with
  | |- context [Attr_set_value ?a ?v ?s1] =>
      destruct (Attr_set_value_heap a v s1) as (s' & -> & Hsame & Hheap)
  end.
  exists s'. split; [done|].
  rewrite (same_element _ _ Hsame), (same_byQName _ _ Hsame),
    (same_byNSAndLName _ _ Hsame), Hheap.
  msimpl. rewrite Hel, Hn, Hq, Hh, insert_singleton_eq.
  cbn [OMap.assign]. rewrite Hk.
  split; [done|]. split; [done|]. split; [done|].
  reflexivity.
Qed.

Local Lemma after_removeAttribute s :
  element s = elt → byQName s = {["foo" := Many [0; 1] VUndefined]} →
  byNSAndLName s = [("|foo", 0); (nsA +:+ "|foo", 1)] →
  heap s = [plain_foo elt y; namespaced_foo elt nsA x] →
  ∃ s', removeAttribute "foo" s = Ret tt s'
        ∧ byQName s' = {["foo" := One 1]}
        ∧ byNSAndLName s' = [(nsA +:+ "|foo", 1)]
        ∧ keys s' = [nsA +:+ "|foo"]
        ∧ length s' = 1
        ∧ heap s' = [plain_foo elt y; namespaced_foo elt nsA x].
Proof.
  intros Hel Hq Hn Hh.
  assert (Hk : String.eqb "|foo" (nsA +:+ "|foo") = false).
  { apply String.eqb_neq. intros Heq. by apply (append_ne_suffix nsA "|foo"). }
  unfold removeAttribute, normalize, lookupQName. msimpl.
  fold (qualified s "foo"). rewrite (qualified_foo s Hel), Hq.
  rewrite lookup_singleton_eq. msimpl.
  cbn [List.length Nat.ltb Nat.leb lookup list_lookup].
  msimpl. rewrite Hh.
  match goal with
  | |- context [notify_removed ?a ?s1] =>
      destruct (notify_removed_spec a s1) as (s' & -> & Hsame & Hheap)
  end.
  exists s'. split; [done|].
  rewrite (same_byQName _ _ Hsame), (same_byNSAndLName _ _ Hsame),
    (same_keys _ _ Hsame), (same_length _ _ Hsame), Hheap.
  msimpl. rewrite Hq, Hn, Hh, insert_singleton_eq.
  change (or_empty (Attr.namespaceURI ([plain_foo elt y; namespaced_foo elt nsA x] !!! 0)) +:+ "|"
          +:+ Attr.localName ([plain_foo elt y; namespaced_foo elt nsA x] !!! 0)) with "|foo".
  cbn [OMap.delete]. rewrite Hk.
  replace (String.eqb "|foo" "|foo") with true by reflexivity.
  done.
Qed.

(** C3, as amended. When the two calls are made in the other order,
    [setAttribute("foo", y)] and then [setAttributeNS(nsA, "foo", x)]
    with [nsA] a non-empty namespace other than the XMLNS one, there
    are two Attr objects under the qualified name "foo";
    [getAttribute("foo")] returns the value of the first one inserted;
    [removeAttribute("foo")] removes that one only, and the other is
    still found under its namespace and local name. *)
Theorem duplicate_scenario_reversed :
  let s := calls [CsetAttribute "foo" (VString y);
                  CsetAttributeNS (Some nsA) "foo" (VString x)]
             (Attributes elt) in
  let s' := state_of (removeAttribute "foo" s) in
  byQName s !! "foo" = Some (Many [0; 1] VUndefined)
  ∧ result (getAttribute "foo" s) = inr (VString y)
  ∧ byQName s' !! "foo" = Some (One 1)
  ∧ keys s' = [nsA +:+ "|foo"] ∧ length s' = 1
  ∧ result (getAttributeNS (Some nsA) "foo" s') = inr (VString x)
  ∧ result (getAttributeNS (Some "") "foo" s') = inr VNull.
Proof.
  cbn zeta. unfold calls. cbn [fold_left call].
  destruct after_setAttribute as (s1 & -> & Hel1 & Hq1 & Hn1 & Hh1).
  cbn [state_of].
  destruct (after_setAttributeNS s1 Hel1 Hq1 Hn1 Hh1)
    as (s2 & -> & Hel2 & Hq2 & Hn2 & Hh2).
  cbn [state_of].
  destruct (after_removeAttribute s2 Hel2 Hq2 Hn2 Hh2)
    as (s3 & -> & Hq3 & Hn3 & Hkeys3 & Hlen3 & Hh3).
  cbn [state_of].
  assert (Hk : String.eqb "|foo" (nsA +:+ "|foo") = false).
  { apply String.eqb_neq. intros Heq. by apply (append_ne_suffix nsA "|foo"). }
  split; [by rewrite Hq2, lookup_singleton_eq|].
  split.
  { rewrite (getAttribute_first "foo" 0).
    - by rewrite Hh2.
    - by rewrite (qualified_foo s2 Hel2), Hq2, lookup_singleton_eq. }
  split; [by rewrite Hq3, lookup_singleton_eq|].
  split; [done|]. split; [done|].
  unfold getAttributeNS, Attr_value. msimpl. rewrite Hn3.
  cbn [to_string_or_null OMap.lookup].
  replace ("" +:+ "|" +:+ "foo") with "|foo" by reflexivity.
  replace ("|" +:+ "foo") with "|foo" by reflexivity.
  rewrite String.eqb_refl, Hk. msimpl. by rewrite Hh3.
Qed.
End Duplicates.

(** C3, as stated: on a non-HTML element with the namespace "urn:a"
    the two calls leave a single Attr under "foo". *)
Lemma duplicate_scenario_as_stated_fails :
  ¬ duplicate_scenario_as_stated xml_element "urn:a".
Proof.
  intros [(a & b & iv & _ & Hq) _].
  vm_compute in Hq. discriminate.
Qed.

Lemma duplicate_scenario_reversed_witness :
  let s := calls [CsetAttribute "foo" (VString "y");
                  CsetAttributeNS (Some "urn:a") "foo" (VString "x")]
             (Attributes xml_element) in
  let s' := state_of (removeAttribute "foo" s) in
  byQName s !! "foo" = Some (Many [0; 1] VUndefined)
  ∧ result (getAttribute "foo" s) = inr (VString "y")
  ∧ byQName s' !! "foo" = Some (One 1)
  ∧ keys s' = ["urn:a" +:+ "|foo"] ∧ length s' = 1
  ∧ result (getAttributeNS (Some "urn:a") "foo" s') = inr (VString "x")
  ∧ result (getAttributeNS (Some "") "foo" s') = inr VNull.
Proof.
  apply (duplicate_scenario_reversed xml_element "urn:a" "x" "y").
  - reflexivity.
  - reflexivity.
  - reflexivity.
  - discriminate.
  - discriminate.
Defined.

Section Sequences.
Context `{Externals}.

Lemma reachable_calls cs s : reachable s → reachable (calls cs s).
Proof.
  revert s. induction cs as [|c cs IH]; intros s Hs; [done|].
  apply IH. by constructor.
Qed.

(** The part of the agreement between the structures that always
    holds: the sequence and [length] are those of the namespace
    index. *)
Lemma reachable_keys_length s :
  reachable s →
  keys s = OMap.keys (byNSAndLName s)
  ∧ length s = List.length (byNSAndLName s)
  ∧ length s = List.length (keys s).
Proof.
  intros Hs. destruct (reachable_wf s Hs) as [_ _ Hk Hl].
  split; [done|]. split; [done|].
  by rewrite Hk, OMap_keys_length.
Qed.

(** The raw [set] sends no notification, whatever the state. *)
Lemma set_trace qname value s :
  trace (state_of (set qname value s)) = trace s.
Proof.
  unfold set, lookupQName, _newAttr. msimpl.
  by destruct (byQName s !! qname) as [[|a|l iv]|].
Qed.

(** The raw [set] changes the value of no Attr. *)
Lemma set_data qname value s a :
  a < List.length (heap s) →
  Attr.data (heap (state_of (set qname value s)) !!! a)
  = Attr.data (heap s !!! a).
Proof.
  intros Ha. unfold set, lookupQName, _newAttr. msimpl.
  destruct (byQName s !! qname) as [[|b|l iv]|]; msimpl; try done.
  - destruct (decide (a = List.length (heap s))) as [->|Hne]; [lia|].
    rewrite list_lookup_total_insert_ne by done.
    by rewrite lookup_total_app_l.
  - destruct (decide (a = b)) as [->|Hne].
    + by rewrite list_lookup_total_insert_eq.
    + by rewrite list_lookup_total_insert_ne.
  - destruct (decide (a = List.length (heap s))) as [->|Hne]; [lia|].
    rewrite list_lookup_total_insert_ne by done.
    by rewrite lookup_total_app_l.
Qed.

(** Whatever the state, the two removal methods never pass the local
    name or the old value to a hook. *)
Lemma notify_removed_trace a s :
  ∃ evs, trace (state_of (notify_removed a s)) = trace s ++ evs
         ∧ Forall removal_event evs.
Proof.
  unfold notify_removed. msimpl.
  destruct (Attr.hook (heap s !!! a)); msimpl;
    destruct (rooted (element s)); msimpl;
    (eexists; split;
     [rewrite <- ?app_assoc; reflexivity || (symmetry; apply app_nil_r)
     |repeat constructor]).
Qed.

Lemma removeAttribute_trace qname s :
  ∃ evs, trace (state_of (removeAttribute qname s)) = trace s ++ evs
         ∧ Forall removal_event evs.
Proof.
  assert (Hnil : ∃ evs, trace s = trace s ++ evs ∧ Forall removal_event evs).
  { exists []. split; [by rewrite app_nil_r|constructor]. }
  unfold removeAttribute, normalize, lookupQName. msimpl.
  destruct (byQName s !! _) as [[|a|l iv]|]; msimpl; try done.
  - match goal with
    | |- context [notify_removed a ?s1] =>
        exact (notify_removed_trace a s1)
    end.
  - destruct (Nat.ltb 2 (List.length l)); msimpl.
    + destruct (head l) as [a|]; msimpl; [|done].
      match goal with
      | |- context [notify_removed a ?s1] =>
          exact (notify_removed_trace a s1)
      end.
    + destruct (l !! 0) as [a|]; msimpl; [|done].
      match goal with
      | |- context [notify_removed a ?s1] =>
          exact (notify_removed_trace a s1)
      end.
Qed.

Lemma _removeQName_trace a s :
  trace (state_of (_removeQName a s)) = trace s.
Proof.
  unfold _removeQName. msimpl.
  destruct (byQName s !! _) as [[|b|l iv]|]; msimpl; try done.
  - by destruct (Nat.eqb b a).
  - destruct (indexOf l a); msimpl; [|done].
    by destruct (Nat.eqb (List.length l) 2).
Qed.

Lemma removeAttributeNS_trace ns lname s :
  ∃ evs, trace (state_of (removeAttributeNS ns lname s)) = trace s ++ evs
         ∧ Forall removal_event evs.
Proof.
  unfold removeAttributeNS. msimpl.
  destruct (OMap.lookup _ _) as [a|]; msimpl.
  - match goal with
    | |- context [_removeQName a ?s1] =>
        pose proof (_removeQName_trace a s1) as Htr;
        destruct (_removeQName a s1) as [[] s2|e s2]; msimpl
    end.
    + destruct (notify_removed_trace a s2) as (evs & Hevs & Hall).
      exists evs. by rewrite Hevs, Htr.
    + exists []. split; [by rewrite Htr, app_nil_r|constructor].
  - exists []. split; [by rewrite app_nil_r|constructor].
Qed.

(** [removeAttributeNS] treats null and "" alike. *)
Lemma removeAttributeNS_null_empty lname :
  removeAttributeNS None lname = removeAttributeNS (Some "") lname.
Proof. reflexivity. Qed.
End Sequences.

(** C2. After [setAttributeNS(null, "foo", "x")] and
    [removeAttribute("foo")] on a new collection, the namespace index
    and the sequence still hold the Attr (under the key "null|foo",
    with [length] 1 and [item(0)] the Attr), while the qualified-name
    index holds nothing: the structures do not agree. *)
Theorem indices_disagree_after_null_namespace :
  let s := calls [CsetAttributeNS None "foo" (VString "x");
                  CremoveAttribute "foo"] (Attributes xml_element) in
  reachable s
  ∧ outcomes [CsetAttributeNS None "foo" (VString "x");
              CremoveAttribute "foo"] (Attributes xml_element)
    = [inr tt; inr tt]
  ∧ byNSAndLName s = [("null|foo", 0)]
  ∧ keys s = ["null|foo"] ∧ length s = 1
  ∧ result (item 0 s) = inr (Some 0)
  ∧ byQName_attrs s = []
  ∧ result (hasAttribute "foo" s) = inr false
  ∧ ¬ indices_agree s.
Proof.
  cbn zeta. split; [apply reachable_calls, reachable_new|].
  repeat (split; [by vm_compute|]).
  intros [Hagree _]. specialize (Hagree 0). vm_compute in Hagree.
  destruct Hagree as [Hin _].
  assert (Hnil : 0 ∈ @nil nat) by (apply Hin; left).
  inversion Hnil.
Qed.

(** C4. With an [onchange] hook declared for "id" and the attribute set
    to "a", [removeAttribute("id")] and [removeAttributeNS("", "id")]
    each call the hook once, with undefined as the local name and
    undefined as the old value. *)
Theorem removal_hook_arguments :
  outcomes [CsetAttribute "id" (VString "a"); CremoveAttribute "id"]
    (Attributes element_with_hook) = [inr tt; inr tt]
  ∧ outcomes [CsetAttribute "id" (VString "a");
              CremoveAttributeNS (Some "") "id"]
      (Attributes element_with_hook) = [inr tt; inr tt]
  ∧ trace (calls [CsetAttribute "id" (VString "a"); CremoveAttribute "id"]
             (Attributes element_with_hook))
    = [Onchange 1 (VString "id") VUndefined (VString "a");
       Onchange 1 VUndefined VUndefined VNull]
  ∧ trace (calls [CsetAttribute "id" (VString "a");
                  CremoveAttributeNS (Some "") "id"]
             (Attributes element_with_hook))
    = [Onchange 1 (VString "id") VUndefined (VString "a");
       Onchange 1 VUndefined VUndefined VNull].
Proof. repeat split; by vm_compute. Qed.

(** C5. The raw [set] does not go through the [value] setter: on a new
    collection [set("id", "a")] creates the Attr but leaves its value
    undefined and calls no hook; after [setAttribute("id", "a")],
    [set("id", "b")] leaves the value "a" and calls no hook. *)
Theorem raw_set_bypasses_value :
  let s0 := Attributes element_with_hook in
  let s1 := calls [Cset "id" (VString "a")] s0 in
  let s2 := calls [CsetAttribute "id" (VString "a"); Cset "id" (VString "b")] s0 in
  outcomes [Cset "id" (VString "a")] s0 = [inr tt]
  ∧ outcomes [CsetAttribute "id" (VString "a"); Cset "id" (VString "b")] s0
    = [inr tt; inr tt]
  ∧ result (hasAttribute "id" s1) = inr true
  ∧ result (getAttribute "id" s1) = inr VUndefined
  ∧ trace s1 = []
  ∧ result (getAttribute "id" s2) = inr (VString "a")
  ∧ trace s2 = [Onchange 1 (VString "id") VUndefined (VString "a")].
Proof. cbn zeta. repeat split; by vm_compute. Qed.

(** C6. After [setAttribute("title", "hello")] the raw [get("title")]
    returns undefined, not "hello"; on a collection without the
    attribute it returns "". *)
Theorem raw_get_after_setAttribute :
  let s0 := Attributes html_element in
  let s := calls [CsetAttribute "title" (VString "hello")] s0 in
  outcomes [CsetAttribute "title" (VString "hello")] s0 = [inr tt]
  ∧ result (getAttribute "title" s) = inr (VString "hello")
  ∧ result (get "title" s) = inr VUndefined
  ∧ result (get "title" s0) = inr (VString "").
Proof. cbn zeta. repeat split; by vm_compute. Qed.

(** C7. A null namespace and an empty one do not give the same key:
    [setAttributeNS(null, "foo", v)] stores under "null|foo", where
    [setAttributeNS("", "foo", v)] and [setAttribute("foo", v)] store
    under "|foo"; [getAttributeNS] and [hasAttributeNS] with "" do not
    find what was stored with null, and the two calls of
    [setAttributeNS] create two Attr objects for the same namespace and
    local name. *)
Theorem null_and_empty_namespace_keys :
  let s0 := Attributes xml_element in
  let s_null := calls [CsetAttributeNS None "foo" (VString "v")] s0 in
  let s_empty := calls [CsetAttributeNS (Some "") "foo" (VString "v")] s0 in
  let s_plain := calls [CsetAttribute "foo" (VString "v")] s0 in
  let s_both := calls [CsetAttributeNS None "foo" (VString "v");
                       CsetAttributeNS (Some "") "foo" (VString "w")] s0 in
  outcomes [CsetAttributeNS None "foo" (VString "v");
            CsetAttributeNS (Some "") "foo" (VString "w")] s0
  = [inr tt; inr tt]
  ∧ keys s_null = ["null|foo"] ∧ keys s_empty = ["|foo"] ∧ keys s_plain = ["|foo"]
  ∧ result (getAttributeNS None "foo" s_null) = inr (VString "v")
  ∧ result (getAttributeNS (Some "") "foo" s_null) = inr VNull
  ∧ result (hasAttributeNS (Some "") "foo" s_null) = inr false
  ∧ result (getAttributeNS None "foo" s_plain) = inr VNull
  ∧ result (hasAttributeNS None "foo" s_plain) = inr false
  ∧ length s_both = 2
  ∧ Attr.namespaceURI <$> heap s_both = [None; None]
  ∧ Attr.localName <$> heap s_both = ["foo"; "foo"].
Proof. cbn zeta. repeat split; by vm_compute. Qed.

(** C8. For "disabled" reflected with [{boolean: true}], assigning
    false to the property stores the value false (the attribute is
    present afterwards), and assigning true stores the value true, not
    the empty string. *)
Theorem boolean_property_is_not_special :
  ∃ c, reflectAttribute empty_class "disabled" (Some boolean_declaration) = inr c
       ∧ let s0 := Attributes (instantiate c true false) in
         let s_false := state_of (write_property c "disabled" (VBool false) s0) in
         let s_true := state_of (write_property c "disabled" (VBool true) s0) in
         result (write_property c "disabled" (VBool false) s0) = inr tt
         ∧ result (hasAttribute "disabled" s_false) = inr true
         ∧ result (getAttribute "disabled" s_false) = inr (VBool false)
         ∧ result (getAttribute "disabled" s_true) = inr (VBool true).
Proof.
  eexists. split; [reflexivity|].
  cbn zeta. repeat split; by vm_compute.
Qed.

(** C9. For "dir" reflected with the legal values ltr, rtl and auto:
    after [setAttribute("dir", "sideways")], [getAttribute("dir")]
    returns "sideways" and the property reads as ""; when the attribute
    is absent, reading the property throws a TypeError. *)
Theorem enumerated_property_of_absent_attribute :
  ∃ c, reflectAttribute empty_class "dir" (Some dir_declaration) = inr c
       ∧ let s0 := Attributes (instantiate c true false) in
         let s := calls [CsetAttribute "dir" (VString "sideways")] s0 in
         outcomes [CsetAttribute "dir" (VString "sideways")] s0 = [inr tt]
         ∧ result (getAttribute "dir" s) = inr (VString "sideways")
         ∧ result (read_property c "dir" s) = inr (VString "")
         ∧ result (getAttribute "dir" s0) = inr VNull
         ∧ result (read_property c "dir" s0) = inl TypeError.
Proof.
  eexists. split; [reflexivity|].
  cbn zeta. repeat split; by vm_compute.
Qed.

(** * Further properties of the methods *)

Section Frames.
Context `{Externals}.

Lemma same_but_byQName_refl s : same_but_byQName s s.
Proof. by split. Qed.

Lemma _addQName_frame a s :
  ∃ s', _addQName a s = Ret tt s' ∧ same_but_byQName s s'.
Proof.
  unfold _addQName, lookupQName. msimpl.
  destruct (byQName s !! _) as [[|e|l iv]|]; msimpl;
    (eexists; split; [reflexivity|by split]).
Qed.

Lemma _removeQName_frame a s :
  same_but_byQName s (state_of (_removeQName a s)).
Proof.
  unfold _removeQName. msimpl.
  destruct (byQName s !! _) as [[|b|l iv]|]; msimpl;
    try apply same_but_byQName_refl.
  - destruct (Nat.eqb b a); msimpl; by split.
  - destruct (indexOf l a); msimpl; [|apply same_but_byQName_refl].
    destruct (Nat.eqb (List.length l) 2); msimpl; by split.
Qed.

Lemma _removeQName_throw a s e s' :
  _removeQName a s = Throw e s' → s' = s ∧ e = AssertionError.
Proof.
  unfold _removeQName. msimpl.
  destruct (byQName s !! _) as [[|b|l iv]|]; msimpl;
    try (by intros [= <- <-]).
  - destruct (Nat.eqb b a); msimpl; [done|by intros [= <- <-]].
  - destruct (indexOf l a); msimpl; [|by intros [= <- <-]].
    by destruct (Nat.eqb (List.length l) 2).
Qed.

(** What an assignment to [value] sends. *)
Lemma Attr_set_value_trace a v s :
  ∃ s', Attr_set_value a v s = Ret tt s'
        ∧ same_indices s s'
        ∧ heap s' = <[a := Attr.with_data v (heap s !!! a)]> (heap s)
        ∧ trace s' = trace s
                     ++ value_events (rooted (element s)) a (heap s !!! a) v.
Proof.
  destruct (Attr_set_value_heap a v s) as (s' & E & Hsame & Hheap).
  exists s'. split; [done|]. split; [done|]. split; [done|].
  unfold Attr_set_value, value_events in *. msimpl.
  case_bool_decide.
  - injection E as <-. by rewrite app_nil_r.
  - destruct (Attr.hook (heap s !!! a)); msimpl;
      destruct (rooted (element s)); msimpl; injection E as <-; msimpl;
      by rewrite <- ?app_assoc, ?app_nil_r.
Qed.

Lemma OMap_lookup_assign_eq {V} k (v : V) m :
  OMap.lookup k (OMap.assign k v m) = Some v.
Proof.
  induction m as [|[k' v'] m IH]; simpl.
  - by rewrite String.eqb_refl.
  - destruct (String.eqb k k') eqn:E; simpl; by rewrite E.
Qed.

Lemma OMap_has_delete {V} k (m : list (string * V)) :
  OMap.lookup k (OMap.delete k m) = None.
Proof.
  induction m as [|[k' v'] m IH]; simpl; [done|].
  destruct (String.eqb k k') eqn:E; simpl; [done|]. by rewrite E.
Qed.

Lemma OMap_assign_keys_NoDup {V} k (v : V) m :
  NoDup m.*1 → NoDup (OMap.assign k v m).*1.
Proof.
  induction m as [|[k' v'] m IH]; simpl.
  - intros _. apply NoDup_singleton.
  - intros [Hk' Hnd]%NoDup_cons.
    destruct (String.eqb_spec k k') as [->|Hne]; simpl.
    + by apply NoDup_cons.
    + apply NoDup_cons. split; [|auto].
      intros Hin. apply Hk'.
      apply list_elem_of_fmap in Hin as [[k'' v''] [Heq Hin]].
      simpl in Heq. subst k''.
      clear IH Hk' Hnd. induction m as [|[k1 v1] m IH]; simpl in *.
      * apply list_elem_of_singleton in Hin. by injection Hin as -> _.
      * destruct (String.eqb_spec k k1) as [->|Hne1].
        -- apply elem_of_cons in Hin as [[= -> _]|Hin]; [by left|].
           right. apply list_elem_of_fmap. by exists (k', v'').
        -- apply elem_of_cons in Hin as [[= -> _]|Hin]; [by left|].
           right. auto.
Qed.

Lemma OMap_assign_keys_Forall {V} (P : string → Prop) k (v : V) m :
  P k → Forall P m.*1 → Forall P (OMap.assign k v m).*1.
Proof.
  intros Hk. induction m as [|[k' v'] m IH]; simpl.
  - intros _. by repeat constructor.
  - intros [Hk' Hall]%Forall_cons.
    destruct (String.eqb k k'); simpl; apply Forall_cons; auto.
Qed.

Lemma OMap_delete_keys_Forall {V} (P : string → Prop) k (m : list (string * V)) :
  Forall P m.*1 → Forall P (OMap.delete k m).*1.
Proof.
  induction m as [|[k' v'] m IH]; simpl; [done|].
  intros [Hk' Hall]%Forall_cons.
  destruct (String.eqb k k'); simpl; [auto|]. apply Forall_cons; auto.
Qed.

Lemma OMap_assign_length {V} k (v : V) m :
  List.length m ≤ List.length (OMap.assign k v m)
  ∧ List.length (OMap.assign k v m) ≤ S (List.length m).
Proof.
  induction m as [|[k' v'] m IH]; simpl; [lia|].
  destruct (String.eqb k k'); simpl; lia.
Qed.

Lemma OMap_delete_length {V} k (m : list (string * V)) :
  NoDup m.*1 →
  List.length (OMap.delete k m) ≤ List.length m
  ∧ List.length m ≤ S (List.length (OMap.delete k m)).
Proof.
  induction m as [|[k' v'] m IH]; simpl; [lia|].
  intros [Hk' Hnd]%NoDup_cons.
  destruct (String.eqb_spec k k') as [->|Hne]; simpl.
  - assert (Hsame : OMap.delete k' m = m).
    { clear IH Hnd. induction m as [|[k1 v1] m IH]; simpl; [done|].
      simpl in Hk'. apply not_elem_of_cons in Hk' as [Hne Hk'].
      destruct (String.eqb_spec k' k1) as [->|_]; [done|].
      by rewrite IH. }
    rewrite Hsame. lia.
  - specialize (IH Hnd). lia.
Qed.

Lemma bar_key x y : no_bar (x +:+ "|" +:+ y) = false.
Proof. rewrite no_bar_app. simpl. apply andb_false_r. Qed.
End Frames.

Section IndexSteps.
Context `{Externals}.

Lemma index_step_refl m : index_step m m.
Proof. by left. Qed.

Lemma index_step_assign x y a m :
  index_step m (OMap.assign (x +:+ "|" +:+ y) a m).
Proof. right. left. exists (x +:+ "|" +:+ y), a. split; [apply bar_key|done]. Qed.

Lemma index_step_delete k m : index_step m (OMap.delete k m).
Proof. right. right. by exists k. Qed.

Lemma setAttribute_index_step qname value s :
  index_step (byNSAndLName s)
             (byNSAndLName (state_of (setAttribute qname value s))).
Proof.
  unfold setAttribute, normalize, lookupQName.
  destruct (isValidName qname); cbn [negb]; msimpl;
    [|apply index_step_refl].
  set (q := if isHTML (element s) then toLowerCase qname else qname).
  destruct (String.eqb _ "xmlns"); msimpl; [apply index_step_refl|].
  assert (Hnew : index_step (byNSAndLName s)
            (byNSAndLName (state_of
               (bind (bind (_newAttr q) (λ a, ret (Some a)))
                     (λ attr, match attr with
                              | Some a => Attr_set_value a value
                              | None => throw TypeError
                              end) s)))).
  { unfold _newAttr. msimpl.
    match goal with
    | |- context [Attr_set_value ?a ?v ?s1] =>
        destruct (Attr_set_value_spec a v s1) as (s' & -> & Hsame & _)
    end.
    simpl. rewrite (same_byNSAndLName _ _ Hsame). msimpl.
    replace ("|" +:+ q) with ("" +:+ "|" +:+ q) by reflexivity.
    apply index_step_assign. }
  destruct (byQName s !! q) as [[|a|l iv]|]; msimpl; try exact Hnew.
  - destruct (Attr_set_value_spec a value s) as (s' & -> & Hsame & _).
    simpl. rewrite (same_byNSAndLName _ _ Hsame). apply index_step_refl.
  - destruct (l !! 0) as [a|]; msimpl; [|apply index_step_refl].
    destruct (Attr_set_value_spec a value s) as (s' & -> & Hsame & _).
    simpl. rewrite (same_byNSAndLName _ _ Hsame). apply index_step_refl.
Qed.

Lemma set_index_step qname value s :
  index_step (byNSAndLName s) (byNSAndLName (state_of (set qname value s))).
Proof.
  unfold set, lookupQName, _newAttr. msimpl.
  destruct (byQName s !! qname) as [[|a|l iv]|]; msimpl;
    try apply index_step_refl;
    replace ("|" +:+ qname) with ("" +:+ "|" +:+ qname) by reflexivity;
    apply index_step_assign.
Qed.

Lemma removeAttribute_index_step qname s :
  index_step (byNSAndLName s)
             (byNSAndLName (state_of (removeAttribute qname s))).
Proof.
  unfold removeAttribute, normalize, lookupQName. msimpl.
  set (q := if isHTML (element s) then toLowerCase qname else qname).
  assert (Hgoal : ∀ a s1, byNSAndLName s1 = byNSAndLName s →
    index_step (byNSAndLName s)
      (byNSAndLName (state_of
         (notify_removed a
            (refresh_keys
               (set_byNSAndLName
                  (OMap.delete (or_empty (Attr.namespaceURI (heap s1 !!! a))
                                +:+ "|" +:+ Attr.localName (heap s1 !!! a)))
                  s1)))))).
  { intros a s1 Hs1.
    match goal with
    | |- context [notify_removed ?a ?s2] =>
        destruct (notify_removed_spec a s2) as (s' & -> & Hsame & _)
    end.
    simpl. rewrite (same_byNSAndLName _ _ Hsame). msimpl. rewrite Hs1.
    apply index_step_delete. }
  destruct (byQName s !! q) as [[|a|l iv]|]; msimpl;
    try apply index_step_refl.
  - apply (Hgoal a (set_byQName (delete q) s)). done.
  - destruct (Nat.ltb 2 (List.length l)); msimpl.
    + destruct (head l) as [a|]; msimpl; [|apply index_step_refl].
      match goal with
      | |- context [set_byNSAndLName _ ?s1] => apply (Hgoal a s1)
      end. done.
    + destruct (l !! 0) as [a|]; msimpl; [|apply index_step_refl].
      match goal with
      | |- context [set_byNSAndLName _ ?s1] => apply (Hgoal a s1)
      end. done.
Qed.

Lemma removeAttributeNS_index_step ns lname s :
  index_step (byNSAndLName s)
             (byNSAndLName (state_of (removeAttributeNS ns lname s))).
Proof.
  unfold removeAttributeNS. msimpl.
  destruct (OMap.lookup _ (byNSAndLName s)) as [a|]; msimpl;
    [|apply index_step_refl].
  match goal with
  | |- context [_removeQName ?a ?s1] =>
      pose proof (_removeQName_frame a s1) as Hframe;
      destruct (_removeQName a s1) as [[] s2|e s2] eqn:E
  end; simpl in *.
  - destruct (notify_removed_spec a s2) as (s' & -> & Hsame & _).
    simpl. rewrite (same_byNSAndLName _ _ Hsame).
    rewrite (sbq_byNSAndLName _ _ Hframe). msimpl.
    apply index_step_delete.
  - rewrite (sbq_byNSAndLName _ _ Hframe). msimpl.
    apply index_step_delete.
Qed.

Lemma setAttributeNS_index_step ns qname value s :
  index_step (byNSAndLName s)
             (byNSAndLName (state_of (setAttributeNS ns qname value s))).
Proof.
  unfold setAttributeNS.
  destruct (isValidName qname); cbn [negb]; [|apply index_step_refl].
  destruct (isValidQName qname); cbn [negb]; [|apply index_step_refl].
  destruct (match String.index 0 ":" qname with
            | Some pos => _ | None => _ end) as [prefix lname].
  match goal with
  | |- context [if ?c then throw NamespaceError else _] => destruct c
  end; [apply index_step_refl|].
  msimpl.
  destruct (OMap.lookup _ (byNSAndLName s)) as [a|] eqn:E; msimpl.
  - destruct (opt_string_eqb (Attr.prefix (heap s !!! a)) prefix);
      cbn [negb]; msimpl.
    + destruct (Attr_set_value_spec a value s) as (s' & -> & Hsame & _).
      simpl. rewrite (same_byNSAndLName _ _ Hsame). apply index_step_refl.
    + pose proof (_removeQName_frame a s) as Hframe.
      destruct (_removeQName a s) as [[] s1|e s1] eqn:E1; simpl in *.
      * match goal with
        | |- context [_addQName ?a ?s2] =>
            destruct (_addQName_frame a s2) as (s3 & -> & Hadd)
        end.
        destruct (Attr_set_value_spec a value s3) as (s' & -> & Hsame & _).
        simpl. rewrite (same_byNSAndLName _ _ Hsame).
        rewrite (sbq_byNSAndLName _ _ Hadd). msimpl.
        rewrite (sbq_byNSAndLName _ _ Hframe). apply index_step_refl.
      * rewrite (sbq_byNSAndLName _ _ Hframe). apply index_step_refl.
  - match goal with
    | |- context [_addQName ?a ?s2] =>
        destruct (_addQName_frame a s2) as (s3 & -> & Hadd)
    end.
    match goal with
    | |- context [Attr_set_value ?a ?v ?s1] =>
        destruct (Attr_set_value_spec a v s1) as (s' & -> & Hsame & _)
    end.
    simpl. rewrite (same_byNSAndLName _ _ Hsame).
    rewrite (sbq_byNSAndLName _ _ Hadd). msimpl.
    apply index_step_assign.
Qed.

Lemma call_index_step c s :
  index_step (byNSAndLName s) (byNSAndLName (state_of (call c s))).
Proof.
  destruct c; simpl.
  - apply setAttribute_index_step.
  - apply setAttributeNS_index_step.
  - apply removeAttribute_index_step.
  - apply removeAttributeNS_index_step.
  - apply set_index_step.
Qed.

Lemma Attributes_keys_ok elt : keys_ok (Attributes elt).
Proof. split; simpl; constructor. Qed.

Lemma index_step_keys_ok s s' :
  index_step (byNSAndLName s) (byNSAndLName s') → keys_ok s → keys_ok s'.
Proof.
  intros [E|[(k & a & Hk & E)|(k & E)]] [Hnd Hbar]; split; rewrite E;
    try done.
  - by apply OMap_assign_keys_NoDup.
  - by apply OMap_assign_keys_Forall.
  - by apply OMap_delete_keys_NoDup.
  - by apply OMap_delete_keys_Forall.
Qed.

Lemma reachable_keys_ok s : reachable s → keys_ok s.
Proof.
  induction 1 as [elt|s c _ IH]; [apply Attributes_keys_ok|].
  eapply index_step_keys_ok; [apply call_index_step|done].
Qed.
End IndexSteps.

Section Collection.
Context `{Externals}.

(** X1. [item]: in every reachable state [item(i)] returns, without
    changing anything, the Attr at position [i] of the namespace
    index in insertion order, and undefined when there is none; there
    is one exactly for the indices below [length]. *)
Theorem item_follows_insertion_order s i :
  reachable s →
  item i s = Ret (snd <$> byNSAndLName s !! i) s
  ∧ (i < length s ↔ is_Some (byNSAndLName s !! i)).
Proof.
  intros Hs.
  pose proof (reachable_wf s Hs) as W.
  destruct (reachable_keys_ok s Hs) as [Hnd Hbar].
  split.
  - unfold item. msimpl. rewrite (wf_keys _ W). unfold OMap.keys.
    change (List.map fst (byNSAndLName s)) with ((byNSAndLName s).*1).
    rewrite list_lookup_fmap.
    destruct (byNSAndLName s !! i) as [[k a]|] eqn:E; simpl.
    + f_equal. apply OMap_elem_lookup; [done|].
      by apply list_elem_of_lookup_2 in E.
    + f_equal. apply OMap_lookup_None. intros Hin.
      rewrite Forall_forall in Hbar. by apply Hbar in Hin.
  - rewrite (wf_length _ W). symmetry. apply lookup_lt_is_Some.
Qed.

(** X2. One call of a mutating method, returning or throwing, changes
    [length] by at most one. *)
Theorem call_changes_length_by_one c s :
  reachable s →
  length (state_of (call c s)) ≤ S (length s)
  ∧ length s ≤ S (length (state_of (call c s))).
Proof.
  intros Hs.
  pose proof (reachable_wf s Hs) as W.
  pose proof (reachable_wf _ (reachable_call s c Hs)) as W'.
  rewrite (wf_length _ W), (wf_length _ W').
  destruct (call_index_step c s) as [E|[(k & a & _ & E)|(k & E)]];
    rewrite E.
  - lia.
  - pose proof (OMap_assign_length k a (byNSAndLName s)). lia.
  - pose proof (OMap_delete_length k (byNSAndLName s)
                  (keys_nodup _ (reachable_keys_ok s Hs))). lia.
Qed.

(** X3. In every reachable state [getAttribute] and [hasAttribute]
    return without changing anything, and agree: [hasAttribute] is
    true exactly when the bucket of the normalized name has a first
    Attr, whose value [getAttribute] returns; otherwise
    [getAttribute] returns null. *)
Theorem getAttribute_agrees_with_hasAttribute qname s :
  reachable s →
  let first := first_attr (byQName s !! qualified s qname) in
  getAttribute qname s
  = Ret (match first with
         | Some a => Attr.data (heap s !!! a)
         | None => VNull
         end) s
  ∧ hasAttribute qname s = Ret (bool_decide (is_Some first)) s.
Proof.
  intros Hs. cbn zeta.
  pose proof (reachable_wf s Hs) as W.
  destruct (byQName s !! qualified s qname) as [e|] eqn:E.
  - destruct (wf_first_attr _ _ _ W E) as (a & Hfirst & _).
    rewrite Hfirst. rewrite <- E in Hfirst. split.
    + by apply getAttribute_first.
    + by rewrite (hasAttribute_first _ _ _ Hfirst).
  - split.
    + unfold getAttribute, normalize, lookupQName. msimpl.
      fold (qualified s qname). by rewrite E.
    + unfold hasAttribute, normalize. msimpl.
      fold (qualified s qname). by rewrite E.
Qed.

(** X4. The outcome of [setAttribute] in a reachable state: for a name
    that is not a legal XML name it throws InvalidCharacterError; for a
    legal name whose normalized form starts with "xmlns" it throws
    NamespaceError; in both cases nothing is changed; for every other
    name it returns. *)
Theorem setAttribute_outcome qname value s :
  reachable s →
  match isValidName qname, reserved (qualified s qname) with
  | false, _ => setAttribute qname value s = Throw InvalidCharacterError s
  | true, true => setAttribute qname value s = Throw NamespaceError s
  | true, false => ∃ s', setAttribute qname value s = Ret tt s'
  end.
Proof.
  intros Hs.
  destruct (isValidName qname) eqn:Hvalid.
  - destruct (reserved (qualified s qname)) eqn:Hres.
    + unfold setAttribute, normalize. rewrite Hvalid. cbn [negb]. msimpl.
      fold (qualified s qname). unfold reserved in Hres. by rewrite Hres.
    + destruct (setAttribute_accepted qname value s
                  (reachable_wf s Hs) Hvalid Hres) as (s' & a & Hset & _).
      by exists s'.
  - unfold setAttribute. by rewrite Hvalid.
Qed.

End Collection.

Section Setting.
Context `{Externals}.

Lemma ns_is_true n c : ns_is n c = true ↔ n = Some c.
Proof.
  destruct n as [n|]; simpl; [|done].
  rewrite String.eqb_eq. split; [by intros ->|by intros [= ->]].
Qed.

Lemma setAttributeNS_unfold ns qname value :
  setAttributeNS ns qname value
  = if negb (isValidName qname) then throw InvalidCharacterError
    else if negb (isValidQName qname) then throw NamespaceError
    else
      let prefix := (split_qname qname).1 in
      let lname := (split_qname qname).2 in
      let key := to_string_or_null ns +:+ "|" +:+ lname in
      let ns := normalize_ns ns in
      let is_xmlns := String.eqb qname "xmlns" || opt_string_eqb prefix (Some "xmlns") in
      if (negb (opt_string_eqb prefix None) && opt_string_eqb ns None)
         || (opt_string_eqb prefix (Some "xml") && negb (ns_is ns XML_NAMESPACE))
         || (is_xmlns && negb (ns_is ns XMLNS_NAMESPACE))
         || (ns_is ns XMLNS_NAMESPACE && negb is_xmlns)
      then throw NamespaceError
      else
        let! m := gets byNSAndLName in
        let! attr :=
          match OMap.lookup key m with
          | None =>
              let! elt := gets element in
              let decl := if opt_truthy prefix then None
                          else _attrDecls elt !! lname in
              let! attr := alloc (Attr.new decl lname prefix ns) in
              modify (set_byNSAndLName (OMap.assign key attr)) ;;;
              modify refresh_keys ;;;
              _addQName attr ;;;
              ret attr
          | Some attr =>
              let! this := deref attr in
              when (negb (opt_string_eqb (Attr.prefix this) prefix))
                (_removeQName attr ;;;
                 update attr (Attr.with_prefix prefix) ;;;
                 _addQName attr) ;;;
              ret attr
          end in
        Attr_set_value attr value.
Proof.
  unfold setAttributeNS, split_qname, normalize_ns.
  by destruct (String.index 0 ":" qname).
Qed.

(** X6. The notifications of [setAttribute]: a call that is accepted
    sends exactly what one assignment to [value] of the Attr it
    operates on sends. That Attr is the first of the bucket of the
    normalized name, or, when the bucket is empty, a new Attr whose
    value is undefined: nothing when the value is unchanged, else the
    declared hook once with local name, old and new value, then
    [mutateAttr] when the element is rooted. *)
Theorem setAttribute_notifications qname value s :
  reachable s → accepted s qname = true →
  let q := qualified s qname in
  let a := default (List.length (heap s)) (first_attr (byQName s !! q)) in
  let this := match first_attr (byQName s !! q) with
              | Some a => heap s !!! a
              | None => Attr.new (_attrDecls (element s) !! q) q None None
              end in
  ∃ s', setAttribute qname value s = Ret tt s'
        ∧ trace s' = trace s
                     ++ value_events (rooted (element s)) a this value.
Proof.
  intros Hs [Hvalid Hres%negb_true_iff]%andb_true_iff. cbn zeta.
  pose proof (reachable_wf s Hs) as W.
  unfold setAttribute, normalize, lookupQName.
  rewrite Hvalid. cbn [negb]. msimpl. fold (qualified s qname).
  unfold reserved in Hres. rewrite Hres. msimpl.
  set (q := qualified s qname).
  destruct (byQName s !! q) as [e|] eqn:E.
  - destruct (wf_first_attr _ _ _ W E) as (a & Hfirst & _).
    rewrite Hfirst. simpl.
    destruct (Attr_set_value_trace a value s) as (s' & Hset & _ & _ & Htr).
    exists s'. split; [|done].
    destruct e as [|b|l iv]; simpl in Hfirst; try done.
    + by injection Hfirst as ->.
    + msimpl. by rewrite Hfirst.
  - simpl. unfold _newAttr. msimpl.
    match goal with
    | |- context [Attr_set_value ?a ?v ?s1] =>
        destruct (Attr_set_value_trace a v s1) as (s' & Hset & _ & _ & Htr)
    end.
    exists s'. split; [done|]. rewrite Htr. msimpl.
    by rewrite list_lookup_total_middle.
Qed.

(** X7. [setAttributeNS] then [getAttributeNS]: after
    [setAttributeNS(ns, qname, value)] has returned in a reachable
    state, [getAttributeNS] with the same [ns] (a string or null) and
    the local name of [qname] returns [value], and [hasAttributeNS]
    returns true. *)
Theorem setAttributeNS_then_getAttributeNS ns qname value s s' :
  reachable s →
  setAttributeNS ns qname value s = Ret tt s' →
  getAttributeNS ns (split_qname qname).2 s' = Ret value s'
  ∧ hasAttributeNS ns (split_qname qname).2 s' = Ret true s'.
Proof.
  intros Hs. pose proof (reachable_wf s Hs) as W.
  rewrite setAttributeNS_unfold.
  destruct (isValidName qname); cbn [negb]; [|done].
  destruct (isValidQName qname); cbn [negb]; [|done].
  cbn zeta.
  set (prefix := (split_qname qname).1).
  set (lname := (split_qname qname).2).
  set (key := to_string_or_null ns +:+ "|" +:+ lname).
  match goal with
  | |- context [if ?c then throw NamespaceError else _] => destruct c
  end; [done|].
  assert (Hmain : ∀ a s3,
            OMap.lookup key (byNSAndLName s3) = Some a →
            a < List.length (heap s3) →
            Attr_set_value a value s3 = Ret tt s' →
            getAttributeNS ns lname s' = Ret value s'
            ∧ hasAttributeNS ns lname s' = Ret true s').
  { intros a s3 Hl Ha Hset.
    destruct (Attr_set_value_spec a value s3) as (s4 & E & Hsame & Hdata).
    rewrite Hset in E. injection E as <-.
    unfold getAttributeNS, hasAttributeNS, OMap.has, Attr_value. msimpl.
    fold key. rewrite (same_byNSAndLName _ _ Hsame), Hl. msimpl.
    by rewrite (Hdata Ha). }
  msimpl.
  destruct (OMap.lookup key (byNSAndLName s)) as [a|] eqn:E; msimpl.
  - pose proof (OMap_lookup_bound _ _ _ _ (wf_byNSAndLName _ W) E) as Ha.
    destruct (opt_string_eqb (Attr.prefix (heap s !!! a)) prefix);
      cbn [negb]; msimpl.
    + by apply Hmain.
    + pose proof (_removeQName_frame a s) as Hframe.
      destruct (_removeQName a s) as [[] s1|e s1]; simpl in *; [|done].
      match goal with
      | |- context [_addQName ?a ?s2] =>
          destruct (_addQName_frame a s2) as (s3 & -> & Hadd)
      end.
      apply Hmain.
      * rewrite (sbq_byNSAndLName _ _ Hadd). msimpl.
        by rewrite (sbq_byNSAndLName _ _ Hframe).
      * rewrite (sbq_heap _ _ Hadd). msimpl.
        by rewrite length_insert, (sbq_heap _ _ Hframe).
  - match goal with
    | |- context [_addQName ?a ?s2] =>
        destruct (_addQName_frame a s2) as (s3 & -> & Hadd)
    end.
    apply Hmain.
    + rewrite (sbq_byNSAndLName _ _ Hadd). msimpl.
      apply OMap_lookup_assign_eq.
    + rewrite (sbq_heap _ _ Hadd). msimpl. rewrite length_app. simpl. lia.
Qed.

(** X8. A [setAttributeNS] that throws has changed nothing, whatever
    the state: InvalidCharacterError is for a name that is not a legal
    XML name, NamespaceError for a legal one, and the only other
    exception is the failed assertion of [_removeQName], raised before
    anything is written. *)
Theorem setAttributeNS_failure_changes_nothing ns qname value s e s' :
  setAttributeNS ns qname value s = Throw e s' →
  s' = s
  ∧ match e with
    | InvalidCharacterError => isValidName qname = false
    | NamespaceError => isValidName qname = true
    | AssertionError => isValidName qname = true ∧ isValidQName qname = true
    | TypeError => False
    end.
Proof.
  rewrite setAttributeNS_unfold.
  destruct (isValidName qname); cbn [negb]; [|by intros [= <- <-]].
  destruct (isValidQName qname); cbn [negb]; [|by intros [= <- <-]].
  cbn zeta.
  match goal with
  | |- context [if ?c then throw NamespaceError else _] => destruct c
  end; [by intros [= <- <-]|].
  msimpl.
  destruct (OMap.lookup _ (byNSAndLName s)) as [a|]; msimpl.
  - destruct (opt_string_eqb (Attr.prefix (heap s !!! a)) _);
      cbn [negb]; msimpl.
    + destruct (Attr_set_value_spec a value s) as (s4 & -> & _). done.
    + destruct (_removeQName a s) as [[] s1|e1 s1] eqn:E1; simpl.
      * match goal with
        | |- context [_addQName ?a ?s2] =>
            destruct (_addQName_frame a s2) as (s3 & -> & Hadd)
        end.
        destruct (Attr_set_value_spec a value s3) as (s4 & -> & _). done.
      * apply _removeQName_throw in E1 as [-> ->]. by intros [= <- <-].
  - match goal with
    | |- context [_addQName ?a ?s2] =>
        destruct (_addQName_frame a s2) as (s3 & -> & Hadd)
    end.
    match goal with
    | |- context [Attr_set_value ?a ?v ?s1] =>
        destruct (Attr_set_value_spec a v s1) as (s4 & -> & _)
    end. done.
Qed.

(** X9. The namespace rules that a [setAttributeNS] which returns has
    checked, with the empty namespace read as null: the name is a
    legal XML name and a legal qualified name; a prefix needs a
    namespace; the prefix "xml" needs the XML namespace; and the name
    is "xmlns" or has the prefix "xmlns" exactly when the namespace is
    the XMLNS namespace. *)
Theorem setAttributeNS_namespace_rules ns qname value s s' :
  setAttributeNS ns qname value s = Ret tt s' →
  let prefix := (split_qname qname).1 in
  let ns' := normalize_ns ns in
  isValidName qname = true ∧ isValidQName qname = true
  ∧ (prefix ≠ None → ns' ≠ None)
  ∧ (prefix = Some "xml" → ns' = Some XML_NAMESPACE)
  ∧ ((qname = "xmlns" ∨ prefix = Some "xmlns")
     ↔ ns' = Some XMLNS_NAMESPACE).
Proof.
  rewrite setAttributeNS_unfold.
  destruct (isValidName qname); cbn [negb]; [|done].
  destruct (isValidQName qname); cbn [negb]; [|done].
  cbn zeta.
  set (prefix := (split_qname qname).1).
  set (ns' := normalize_ns ns).
  match goal with
  | |- context [if ?c then throw NamespaceError else _] =>
      destruct c eqn:Hcheck
  end; [done|].
  intros _. split; [done|]. split; [done|].
  apply orb_false_iff in Hcheck as [Hcheck H4].
  apply orb_false_iff in Hcheck as [Hcheck H3].
  apply orb_false_iff in Hcheck as [H1 H2].
  unfold opt_string_eqb in *.
  pose proof (ns_is_true ns' XML_NAMESPACE) as Hxml.
  pose proof (ns_is_true ns' XMLNS_NAMESPACE) as Hxmlns.
  pose proof (String.eqb_eq qname "xmlns") as Hq.
  destruct (ns_is ns' XML_NAMESPACE), (ns_is ns' XMLNS_NAMESPACE),
    (String.eqb qname "xmlns");
    repeat case_bool_decide; simpl in *; try done;
    intuition congruence.
Qed.
End Setting.

Section Removing.
Context `{Externals}.

Lemma OMap_delete_assign {V} k (v : V) m :
  OMap.delete k (OMap.assign k v m) = OMap.delete k m.
Proof.
  induction m as [|[k' v'] m IH]; simpl.
  - by rewrite String.eqb_refl.
  - destruct (String.eqb k k') eqn:E; simpl; rewrite E; [done|].
    by rewrite IH.
Qed.

Lemma OMap_delete_length_le {V} k (m : list (string * V)) :
  List.length (OMap.delete k m) ≤ List.length m.
Proof.
  induction m as [|[k' v'] m IH]; simpl; [lia|].
  destruct (String.eqb k k'); simpl; lia.
Qed.

Lemma hasAttribute_false qname s :
  hasAttribute qname s = Ret false s ↔ byQName s !! qualified s qname = None.
Proof.
  unfold hasAttribute, normalize. msimpl. fold (qualified s qname).
  destruct (byQName s !! qualified s qname) as [e|]; simpl; split;
    intros E; try done.
Qed.

(** What [setAttribute] does for an accepted name whose bucket is
    empty: it creates an Attr with no prefix and no namespace. *)
Lemma setAttribute_fresh qname value s :
  accepted s qname = true →
  byQName s !! qualified s qname = None →
  let q := qualified s qname in
  let a := List.length (heap s) in
  ∃ s', setAttribute qname value s = Ret tt s'
        ∧ element s' = element s
        ∧ byQName s' = <[q := One a]> (byQName s)
        ∧ byNSAndLName s' = OMap.assign ("|" +:+ q) a (byNSAndLName s)
        ∧ keys s' = OMap.keys (byNSAndLName s')
        ∧ length s' = List.length (byNSAndLName s')
        ∧ heap s' = heap s ++ [Attr.with_data value
                                 (Attr.new (_attrDecls (element s) !! q) q None None)].
Proof.
  intros [Hvalid Hres%negb_true_iff]%andb_true_iff E. cbn zeta.
  unfold setAttribute, normalize, lookupQName.
  rewrite Hvalid. cbn [negb]. msimpl. fold (qualified s qname).
  unfold reserved in Hres. rewrite Hres. msimpl. rewrite E.
  unfold _newAttr. msimpl.
  match goal with
  | |- context [Attr_set_value ?a ?v ?s1] =>
      destruct (Attr_set_value_heap a v s1) as (s' & -> & Hsame & Hheap)
  end.
  destruct Hsame as [He Hl Hq Hn Hk _]. msimpl.
  exists s'. split; [done|]. split; [done|]. split; [done|].
  split; [done|]. split; [by rewrite Hk, Hn|].
  split; [by rewrite Hl, Hn, OMap_keys_length|].
  rewrite Hheap. msimpl.
  rewrite list_lookup_total_middle by done.
  rewrite <- (Nat.add_0_r (List.length (heap s))) at 1.
  by rewrite insert_app_r.
Qed.

(** X10. [setAttribute] then [removeAttribute]: when [hasAttribute]
    is false for an accepted name in a reachable state, setting the
    attribute and removing it again both return; afterwards
    [hasAttribute] is false again, [getAttribute] returns null, the
    qualified-name index is what it was, and the sequence is not
    longer than it was. *)
Theorem setAttribute_then_removeAttribute qname value s :
  reachable s → accepted s qname = true →
  hasAttribute qname s = Ret false s →
  ∃ s1 s2, setAttribute qname value s = Ret tt s1
           ∧ removeAttribute qname s1 = Ret tt s2
           ∧ hasAttribute qname s2 = Ret false s2
           ∧ getAttribute qname s2 = Ret VNull s2
           ∧ byQName s2 = byQName s
           ∧ length s2 ≤ length s.
Proof.
  intros Hs Hacc Hhas. apply hasAttribute_false in Hhas.
  pose proof (reachable_wf s Hs) as W.
  destruct (setAttribute_fresh qname value s Hacc Hhas)
    as (s1 & Hset & He1 & Hq1 & Hn1 & Hk1 & Hl1 & Hh1).
  cbn zeta in *. set (q := qualified s qname) in *.
  assert (Hqual : qualified s1 qname = q).
  { unfold qualified, q. by rewrite He1. }
  exists s1.
  assert (Hrem : ∃ s2, removeAttribute qname s1 = Ret tt s2
                       ∧ element s2 = element s
                       ∧ byQName s2 = byQName s
                       ∧ byNSAndLName s2
                         = OMap.delete ("|" +:+ q) (byNSAndLName s)
                       ∧ length s2 = List.length (byNSAndLName s2)).
  { unfold removeAttribute, normalize, lookupQName. msimpl.
    fold (qualified s1 qname). rewrite Hqual, Hq1, lookup_insert_eq.
    msimpl. rewrite Hh1, list_lookup_total_middle by done.
    cbn [Attr.with_data Attr.new Attr.namespaceURI Attr.localName
         or_null or_empty].
    match goal with
    | |- context [notify_removed ?a ?s3] =>
        destruct (notify_removed_spec a s3) as (s2 & -> & Hsame & _)
    end.
    destruct Hsame as [He Hl Hq Hn Hk _]. msimpl.
    exists s2. split; [done|]. split; [by rewrite He|].
    split; [rewrite Hq; msimpl; rewrite Hq1; by apply delete_insert_id|].
    assert (Hn2 : byNSAndLName s2
                  = OMap.delete ("|" +:+ q) (byNSAndLName s)).
    { rewrite Hn, Hn1. rewrite append_nil_l. apply OMap_delete_assign. }
    split; [done|].
    rewrite Hl, OMap_keys_length. rewrite append_nil_l.
    by rewrite Hn1, OMap_delete_assign, <- Hn2. }
  destruct Hrem as (s2 & Hrem & He2 & Hq2 & Hn2 & Hl2).
  exists s2.
  assert (Hqual2 : qualified s2 qname = q).
  { unfold qualified, q. by rewrite He2. }
  assert (Hnone : byQName s2 !! qualified s2 qname = None).
  { by rewrite Hqual2, Hq2. }
  split; [done|]. split; [done|]. split; [by apply hasAttribute_false|].
  split.
  { unfold getAttribute, normalize, lookupQName. msimpl.
    fold (qualified s2 qname). by rewrite Hnone. }
  split; [done|].
  rewrite Hl2, Hn2, (wf_length _ W). apply OMap_delete_length_le.
Qed.

(** X11. [removeAttribute] on a name with several Attr objects removes
    the first only: the bucket keeps the others (as a single Attr when
    one is left), [getAttribute] then returns the value of the second,
    and the namespace index loses the key recomputed from the first. *)
Theorem removeAttribute_removes_first_only qname a b rest iv s :
  byQName s !! qualified s qname = Some (Many (a :: b :: rest) iv) →
  ∃ s', removeAttribute qname s = Ret tt s'
        ∧ byQName s' !! qualified s qname
          = Some (match rest with
                  | [] => One b
                  | _ => Many (b :: rest) iv
                  end)
        ∧ getAttribute qname s' = Ret (Attr.data (heap s !!! b)) s'
        ∧ byNSAndLName s'
          = OMap.delete (key_of (heap s !!! a)) (byNSAndLName s).
Proof.
  intros E.
  assert (Hgoal : ∀ e s1,
            byQName s1 = <[qualified s qname := e]> (byQName s) →
            first_attr (Some e) = Some b →
            element s1 = element s → heap s1 = heap s →
            byNSAndLName s1 = OMap.delete (key_of (heap s !!! a)) (byNSAndLName s) →
            ∃ s', notify_removed a s1 = Ret tt s'
                  ∧ byQName s' !! qualified s qname = Some e
                  ∧ getAttribute qname s' = Ret (Attr.data (heap s !!! b)) s'
                  ∧ byNSAndLName s'
                    = OMap.delete (key_of (heap s !!! a)) (byNSAndLName s)).
  { intros e s1 Hq Hfirst He Hh Hn.
    destruct (notify_removed_spec a s1) as (s' & Hnot & Hsame & Hheap).
    destruct Hsame as [He' _ Hq' Hn' _ _].
    exists s'. split; [done|].
    assert (Hl : byQName s' !! qualified s qname = Some e).
    { by rewrite Hq', Hq, lookup_insert_eq. }
    split; [done|]. split; [|by rewrite Hn', Hn].
    assert (Hqual : qualified s' qname = qualified s qname).
    { unfold qualified. by rewrite He', He. }
    rewrite <- Hh, <- Hheap. apply getAttribute_first.
    by rewrite Hqual, Hl. }
  unfold removeAttribute, normalize, lookupQName. msimpl.
  fold (qualified s qname). rewrite E. msimpl.
  destruct rest as [|c rest]; simpl; msimpl.
  - match goal with
    | |- context [notify_removed _ ?s1] => apply (Hgoal (One b) s1)
    end; done.
  - match goal with
    | |- context [notify_removed _ ?s1] =>
        apply (Hgoal (Many (b :: c :: rest) iv) s1)
    end; done.
Qed.

(** X12. After [removeAttributeNS(ns, lname)], whether it returned or
    threw and whatever the state, the entry of the empty-for-null
    namespace and [lname] is gone: [hasAttributeNS] is false and
    [getAttributeNS] returns null. *)
Theorem removeAttributeNS_then_hasAttributeNS ns lname s :
  let s' := state_of (removeAttributeNS ns lname s) in
  hasAttributeNS (Some (or_empty ns)) lname s' = Ret false s'
  ∧ getAttributeNS (Some (or_empty ns)) lname s' = Ret VNull s'.
Proof.
  cbn zeta.
  assert (Hgoal : ∀ s', OMap.lookup (or_empty ns +:+ "|" +:+ lname)
                                    (byNSAndLName s') = None →
            hasAttributeNS (Some (or_empty ns)) lname s' = Ret false s'
            ∧ getAttributeNS (Some (or_empty ns)) lname s' = Ret VNull s').
  { intros s' Hl. unfold hasAttributeNS, getAttributeNS, OMap.has. msimpl.
    cbn [to_string_or_null]. by rewrite Hl. }
  unfold removeAttributeNS. msimpl.
  destruct (OMap.lookup _ (byNSAndLName s)) as [a|] eqn:E; msimpl;
    [|by apply Hgoal].
  match goal with
  | |- context [_removeQName ?a ?s1] =>
      pose proof (_removeQName_frame a s1) as Hframe;
      destruct (_removeQName a s1) as [[] s2|e s2]
  end; simpl in *.
  - destruct (notify_removed_spec a s2) as (s' & -> & Hsame & _).
    simpl. apply Hgoal.
    rewrite (same_byNSAndLName _ _ Hsame), (sbq_byNSAndLName _ _ Hframe).
    msimpl. apply OMap_has_delete.
  - apply Hgoal. rewrite (sbq_byNSAndLName _ _ Hframe).
    msimpl. apply OMap_has_delete.
Qed.

(** X13. The raw [set] and [get] of the reflection fast path agree
    with each other: in a reachable state [set(qname, value)] returns
    and [get(qname)] then returns [value], whether the bucket holds no
    Attr, one, or an array. *)
Theorem raw_set_then_raw_get qname value s :
  reachable s →
  ∃ s', set qname value s = Ret tt s' ∧ get qname s' = Ret value s'.
Proof.
  intros Hs. pose proof (reachable_wf s Hs) as W.
  unfold set, lookupQName, _newAttr. msimpl.
  assert (Hnew : ∀ s1, s1 = s →
    ∃ s',
      Ret tt
        (set_heap
           (λ h, <[List.length (heap s1)
                   := Attr.with_idlvalue value (h !!! List.length (heap s1))]> h)
           (refresh_keys
              (set_byNSAndLName
                 (OMap.assign ("|" +:+ qname) (List.length (heap s1)))
                 (set_byQName <[qname := One (List.length (heap s1))]>
                    (set_heap
                       (λ h, h ++ [Attr.new (_attrDecls (element s1) !! qname)
                                     qname None None]) s1)))))
      = Ret tt s' ∧ get qname s' = Ret value s').
  { intros s1 ->. eexists. split; [reflexivity|].
    unfold get, lookupQName. msimpl. rewrite lookup_insert_eq. msimpl.
    rewrite list_lookup_total_middle by done.
    rewrite list_lookup_total_insert_eq; [done|].
    rewrite length_app. simpl. lia. }
  destruct (byQName s !! qname) as [[|a|l iv]|] eqn:E; msimpl;
    try (by apply Hnew).
  - pose proof (map_Forall_lookup_1 _ _ _ _ (wf_byQName _ W) E) as Ha.
    simpl in Ha.
    eexists. split; [reflexivity|].
    unfold get, lookupQName. msimpl. rewrite E. msimpl.
    by rewrite list_lookup_total_insert_eq.
  - eexists. split; [reflexivity|].
    unfold get, lookupQName. msimpl. by rewrite lookup_insert_eq.
Qed.

(** X14. An attribute created by [setAttribute] is in the empty
    namespace: when [hasAttribute] is false for an accepted name in a
    reachable state, [setAttribute] returns and [getAttributeNS] with
    the empty namespace and the normalized name then returns the
    value; when also [hasAttributeNS] was false for them, the new key
    is last in [keys], [length] is one more, and [item] at the old
    [length] is the new Attr. *)
Theorem setAttribute_creates_in_empty_namespace qname value s :
  reachable s → accepted s qname = true →
  hasAttribute qname s = Ret false s →
  let q := qualified s qname in
  ∃ s', setAttribute qname value s = Ret tt s'
        ∧ getAttributeNS (Some "") q s' = Ret value s'
        ∧ (hasAttributeNS (Some "") q s = Ret false s →
           keys s' = keys s ++ ["|" +:+ q]
           ∧ length s' = S (length s)
           ∧ item (length s) s' = Ret (Some (List.length (heap s))) s').
Proof.
  intros Hs Hacc Hhas. apply hasAttribute_false in Hhas. cbn zeta.
  pose proof (reachable_wf s Hs) as W.
  destruct (setAttribute_fresh qname value s Hacc Hhas)
    as (s' & Hset & He & Hq & Hn & Hk & Hl & Hh).
  cbn zeta in *. set (q := qualified s qname) in *.
  exists s'. split; [done|]. split.
  - unfold getAttributeNS, Attr_value. msimpl.
    cbn [to_string_or_null]. rewrite append_nil_l.
    rewrite Hn, OMap_lookup_assign_eq. msimpl.
    by rewrite Hh, list_lookup_total_middle.
  - unfold hasAttributeNS, OMap.has. msimpl.
    cbn [to_string_or_null]. rewrite append_nil_l.
    destruct (OMap.lookup ("|" +:+ q) (byNSAndLName s)) eqn:E; [done|].
    intros _.
    rewrite (OMap_assign_fresh _ _ _ E) in Hn.
    assert (Hkeys : keys s' = keys s ++ ["|" +:+ q]).
    { rewrite Hk, Hn, (wf_keys _ W). unfold OMap.keys.
      by rewrite List.map_app. }
    split; [done|].
    split; [rewrite Hl, Hn, length_app, (wf_length _ W); simpl; lia|].
    unfold item. msimpl. rewrite Hkeys.
    assert (Hlen : length s = List.length (keys s)).
    { by rewrite (wf_keys _ W), OMap_keys_length, (wf_length _ W). }
    rewrite Hlen, list_lookup_middle by done. simpl.
    rewrite Hn. f_equal.
    rewrite <- (OMap_assign_fresh _ _ _ E). apply OMap_lookup_assign_eq.
Qed.
End Removing.

Section Reflecting.
Context `{Externals}.

(** What a successful [reflectAttribute] builds: the declaration it
    registers and the accessor it defines. *)
Lemma reflectAttribute_inr c name declaration c' :
  reflectAttribute c name declaration = inr c' →
  let d := default SimpleAttributeDeclaration declaration in
  ∃ d', proto_attrDecls c !! name = None
        ∧ proto_attrDecls c' = <[name := d']> (proto_attrDecls c)
        ∧ idlToContent d' = idlToContent d
        ∧ contentToIDL d'
          = match legalValues d with
            | Some lv => Some (legal_contentToIDL lv)
            | None => contentToIDL d
            end
        ∧ (is_Some (legalValues d) → idlToContent d = None)
        ∧ proto_properties c' !! property_name name declaration
          = Some {| getter :=
                      match contentToIDL d' with
                      | Some f => let! raw := Element_getAttribute name in
                                  convert f raw
                      | None => let! raw := Element_getAttribute name in
                                ret (js_or raw (VString ""))
                      end;
                    setter :=
                      match idlToContent d' with
                      | Some f => fun v => let! content := convert f v in
                                           Element_setAttribute name content
                      | None => fun v => Element_setAttribute name v
                      end |}.
Proof.
  unfold reflectAttribute, property_name. cbn zeta.
  set (d := default SimpleAttributeDeclaration declaration).
  case_bool_decide as Hdecl; [done|].
  assert (Hnone : proto_attrDecls c !! name = None).
  { by apply eq_None_not_Some. }
  destruct (legalValues d) as [lv|] eqn:Hlv.
  - destruct (contentToIDL d) as [f|] eqn:Hc; simpl; [done|].
    destruct (idlToContent d) as [g|] eqn:Hi; simpl; [done|].
    intros [= <-]. eexists. split; [done|]. split; [reflexivity|].
    simpl. rewrite Hi. split; [done|]. split; [done|]. split; [done|].
    by rewrite lookup_insert_eq.
  - intros [= <-]. exists d. split; [done|]. split; [reflexivity|].
    split; [done|]. split; [done|].
    split; [by intros [? ?]|].
    simpl. by rewrite lookup_insert_eq.
Qed.

(** X15. [reflectAttribute] registers a name once: when it succeeds
    the name had no declaration on the class, it has one afterwards,
    the declarations of all other names are untouched, the accessor
    property exists under [idlname] or else the name, and reflecting
    the same name again, with any declaration, fails its assertion. *)
Theorem reflectAttribute_registers_once c name declaration c' :
  reflectAttribute c name declaration = inr c' →
  proto_attrDecls c !! name = None
  ∧ is_Some (proto_attrDecls c' !! name)
  ∧ (∀ other, other ≠ name →
       proto_attrDecls c' !! other = proto_attrDecls c !! other)
  ∧ is_Some (proto_properties c' !! property_name name declaration)
  ∧ (∀ again, reflectAttribute c' name again = inl AssertionError).
Proof.
  intros Hr.
  destruct (reflectAttribute_inr _ _ _ _ Hr)
    as (d' & Hnone & Hdecls & _ & _ & _ & Hprop).
  split; [done|].
  assert (Hsome : is_Some (proto_attrDecls c' !! name)).
  { rewrite Hdecls, lookup_insert_eq. by eexists. }
  split; [done|]. split.
  { intros other Hne. by rewrite Hdecls, lookup_insert_ne. }
  split; [rewrite Hprop; by eexists|].
  intros again. unfold reflectAttribute.
  by rewrite bool_decide_eq_true_2.
Qed.

(** X16. A reflected property without conversions: for a declaration
    with no [legalValues], no [idlToContent] and no [contentToIDL],
    writing a value to the property of an element whose collection is
    reachable and accepts the name stores the value itself as the
    attribute's value, and reading the property returns it, or the
    empty string when it is falsy. *)
Theorem reflected_property_write_then_read c name declaration c' value s :
  reflectAttribute c name declaration = inr c' →
  let d := default SimpleAttributeDeclaration declaration in
  legalValues d = None → idlToContent d = None → contentToIDL d = None →
  reachable s → accepted s name = true →
  let prop := property_name name declaration in
  ∃ s', write_property c' prop value s = Ret tt s'
        ∧ getAttribute name s' = Ret value s'
        ∧ read_property c' prop s' = Ret (js_or value (VString "")) s'.
Proof.
  intros Hr d Hlv Hi Hc Hs Hacc prop.
  destruct (reflectAttribute_inr _ _ _ _ Hr)
    as (d' & _ & _ & Hi' & Hc' & _ & Hprop).
  cbn zeta in *. fold d in Hi', Hc'. rewrite Hlv, Hc in Hc'.
  rewrite Hi in Hi'. rewrite Hi', Hc' in Hprop.
  apply andb_true_iff in Hacc as [Hvalid Hres%negb_true_iff].
  destruct (setAttribute_accepted name value s
              (reachable_wf s Hs) Hvalid Hres)
    as (s' & a & Hset & _ & Hel & Hfirst & Hdata & _).
  assert (Hget : getAttribute name s' = Ret value s').
  { rewrite <- Hdata. apply getAttribute_first.
    unfold qualified in *. by rewrite Hel. }
  exists s'. unfold write_property, read_property, prop.
  rewrite Hprop. simpl. unfold Element_setAttribute, Element_getAttribute.
  split; [done|]. split; [done|].
  unfold bind. by rewrite Hget.
Qed.

(** X17. A reflected enumerated property: for a declaration with
    [legalValues], writing a string to the property stores the string
    itself as the attribute's value, whether legal or not, and reading
    the property returns the entry of [legalValues] for the lowercased
    string, or the empty string when that entry is missing or falsy. *)
Theorem enumerated_property_write_then_read c name declaration lv c' v s :
  reflectAttribute c name (Some declaration) = inr c' →
  legalValues declaration = Some lv →
  reachable s → accepted s name = true →
  let prop := property_name name (Some declaration) in
  ∃ s', write_property c' prop (VString v) s = Ret tt s'
        ∧ getAttribute name s' = Ret (VString v) s'
        ∧ read_property c' prop s'
          = Ret (js_or (lv (toLowerCase v)) (VString "")) s'.
Proof.
  intros Hr Hlv Hs Hacc prop.
  destruct (reflectAttribute_inr _ _ _ _ Hr)
    as (d' & _ & _ & Hi' & Hc' & Hnoconv & Hprop).
  cbn zeta in *. simpl in Hi', Hc', Hnoconv.
  rewrite Hlv in Hc'. rewrite Hnoconv in Hi' by (by eexists).
  rewrite Hi', Hc' in Hprop.
  apply andb_true_iff in Hacc as [Hvalid Hres%negb_true_iff].
  destruct (setAttribute_accepted name (VString v) s
              (reachable_wf s Hs) Hvalid Hres)
    as (s' & a & Hset & _ & Hel & Hfirst & Hdata & _).
  assert (Hget : getAttribute name s' = Ret (VString v) s').
  { rewrite <- Hdata. apply getAttribute_first.
    unfold qualified in *. by rewrite Hel. }
  exists s'. unfold write_property, read_property, prop.
  rewrite Hprop. simpl. unfold Element_setAttribute, Element_getAttribute.
  split; [done|]. split; [done|].
  unfold bind. by rewrite Hget.
Qed.

(** X18. Unique namespaced identity: when "|" is in no legal name,
    after any calls that never give [setAttributeNS] a null namespace
    (and give the raw [set] names without "|"), the two indices hold
    the same Attr objects, and no two positions of the sequence hold
    Attr objects with the same namespace and local name. *)
Theorem legal_calls_unique_identity elt cs :
  (∀ q, isValidName q = true → no_bar q = true) →
  (∀ q, no_bar q = true → no_bar (toLowerCase q) = true) →
  Forall legal cs →
  let s := calls cs (Attributes elt) in
  indices_agree s
  ∧ ∀ i j ki kj a b,
      byNSAndLName s !! i = Some (ki, a) →
      byNSAndLName s !! j = Some (kj, b) →
      Attr.namespaceURI (heap s !!! a) = Attr.namespaceURI (heap s !!! b) →
      Attr.localName (heap s !!! a) = Attr.localName (heap s !!! b) →
      i = j.
Proof.
  intros Hvalid Hlower Hcs s.
  assert (C : consistent s).
  { apply calls_consistent; [done|done|done|apply Attributes_consistent]. }
  split; [by apply consistent_indices_agree|].
  intros i j ki kj a b Hi Hj Hns Hl.
  destruct C as [_ L _].
  pose proof (linked_key _ _ _ L _ _ (list_elem_of_lookup_2 _ _ _ Hi)) as Hki.
  pose proof (linked_key _ _ _ L _ _ (list_elem_of_lookup_2 _ _ _ Hj)) as Hkj.
  assert (Hk : ki = kj).
  { rewrite Hki, Hkj. unfold key_of. by rewrite Hns, Hl. }
  apply (NoDup_lookup _ i j ki (linked_keys _ _ _ L)).
  - by rewrite list_lookup_fmap, Hi.
  - by rewrite list_lookup_fmap, Hj, Hk.
Qed.

(** X19. The shape of the qualified-name index in every reachable
    state: an entry is never undefined; it is one allocated Attr, or
    an array of at least two allocated Attr objects. *)
Theorem byQName_entries_well_formed s q e :
  reachable s → byQName s !! q = Some e →
  entry_ok (List.length (heap s)) e.
Proof.
  intros Hs E.
  exact (map_Forall_lookup_1 _ _ _ _ (wf_byQName _ (reachable_wf s Hs)) E).
Qed.
End Reflecting.

Section Failures.
Context `{Externals}.

Lemma removeAttribute_wf_returns qname s :
  wf s →
  ∃ s', removeAttribute qname s = Ret tt s'
        ∧ (byQName s !! qualified s qname = None → s' = s).
Proof.
  intros W.
  unfold removeAttribute, normalize, lookupQName. msimpl.
  fold (qualified s qname).
  destruct (byQName s !! qualified s qname) as [e|] eqn:E;
    [|by exists s].
  pose proof (map_Forall_lookup_1 _ _ _ _ (wf_byQName _ W) E) as Hok.
  destruct e as [|a|l iv]; simpl in Hok; [done| |]; msimpl.
  - match goal with
    | |- context [notify_removed ?a ?s1] =>
        destruct (notify_removed_spec a s1) as (s' & -> & _)
    end.
    by exists s'.
  - destruct Hok as [Hlen _].
    destruct l as [|a [|b l]]; simpl in Hlen; try lia.
    destruct (Nat.ltb 2 (List.length (a :: b :: l))); simpl; msimpl;
      match goal with
      | |- context [notify_removed ?a ?s1] =>
          destruct (notify_removed_spec a s1) as (s' & -> & _)
      end; by exists s'.
Qed.

Lemma set_returns qname value s : ∃ s', set qname value s = Ret tt s'.
Proof.
  unfold set, lookupQName, _newAttr. msimpl.
  destruct (byQName s !! qname) as [[|a|l iv]|]; msimpl; by eexists.
Qed.

(** X20. [removeAttribute] never throws in a reachable state, and
    does nothing when [hasAttribute] is false. *)
Theorem removeAttribute_returns qname s :
  reachable s →
  ∃ s', removeAttribute qname s = Ret tt s'
        ∧ (hasAttribute qname s = Ret false s → s' = s).
Proof.
  intros Hs.
  destruct (removeAttribute_wf_returns qname s (reachable_wf s Hs))
    as (s' & Hrem & Hnone).
  exists s'. split; [done|].
  intros Hhas. by apply Hnone, hasAttribute_false.
Qed.

Lemma removeAttributeNS_consistent_returns ns lname s :
  consistent s → ∃ s', removeAttributeNS ns lname s = Ret tt s'.
Proof.
  intros C. pose proof (consistent_wf _ C) as W.
  pose proof (consistent_buckets _ C) as B.
  pose proof (consistent_linked _ C) as L.
  unfold removeAttributeNS. msimpl.
  destruct (OMap.lookup _ (byNSAndLName s)) as [a|] eqn:E;
    [|by exists s].
  apply OMap_lookup_Some_elem in E. msimpl.
  match goal with
  | |- context [_removeQName a ?s1] =>
      destruct (_removeQName_core a s1) as (s2 & -> & _);
      [by apply wf_delete|done
      |msimpl; rewrite (inQ_eq s s1) by done;
       exact (linked_ns_q _ _ _ L _ _ E)|]
  end.
  msimpl.
  destruct (notify_removed_spec a s2) as (s' & -> & _). by exists s'.
Qed.

Lemma setAttributeNS_consistent_throws ns qname value s e s' :
  consistent s →
  setAttributeNS ns qname value s = Throw e s' →
  e = InvalidCharacterError ∨ e = NamespaceError.
Proof.
  intros C. pose proof (consistent_wf _ C) as W.
  pose proof (consistent_buckets _ C) as B.
  pose proof (consistent_linked _ C) as L.
  rewrite setAttributeNS_unfold.
  destruct (isValidName qname); cbn [negb]; [|intros [= <- _]; by left].
  destruct (isValidQName qname); cbn [negb]; [|intros [= <- _]; by right].
  cbn zeta.
  match goal with
  | |- context [if ?c then throw NamespaceError else _] => destruct c
  end; [intros [= <- _]; by right|].
  msimpl.
  destruct (OMap.lookup _ (byNSAndLName s)) as [a|] eqn:E; msimpl.
  - destruct (opt_string_eqb (Attr.prefix (heap s !!! a)) _);
      cbn [negb]; msimpl.
    + destruct (Attr_set_value_spec a value s) as (s4 & -> & _). done.
    + apply OMap_lookup_Some_elem in E.
      destruct (_removeQName_core a s) as (s1 & -> & _);
        [done|done|exact (linked_ns_q _ _ _ L _ _ E)|].
      msimpl.
      match goal with
      | |- context [_addQName ?a ?s2] =>
          destruct (_addQName_frame a s2) as (s3 & -> & Hadd)
      end.
      destruct (Attr_set_value_spec a value s3) as (s4 & -> & _). done.
  - match goal with
    | |- context [_addQName ?a ?s2] =>
        destruct (_addQName_frame a s2) as (s3 & -> & Hadd)
    end.
    match goal with
    | |- context [Attr_set_value ?a ?v ?s1] =>
        destruct (Attr_set_value_spec a v s1) as (s4 & -> & _)
    end. done.
Qed.

(** X21. No internal failure after legal calls: when "|" is in no
    legal name, after any calls that never give [setAttributeNS] a
    null namespace (and give the raw [set] names without "|"), a
    further call of any of the five methods, with any arguments,
    returns or throws one of the two validation errors,
    InvalidCharacterError and NamespaceError; the two removal methods
    and the raw [set] return. *)
Theorem legal_calls_fail_only_on_validation elt cs c :
  (∀ q, isValidName q = true → no_bar q = true) →
  (∀ q, no_bar q = true → no_bar (toLowerCase q) = true) →
  Forall legal cs →
  let r := result (call c (calls cs (Attributes elt))) in
  match c with
  | CsetAttribute _ _ | CsetAttributeNS _ _ _ =>
      r = inr tt ∨ r = inl InvalidCharacterError ∨ r = inl NamespaceError
  | CremoveAttribute _ | CremoveAttributeNS _ _ | Cset _ _ => r = inr tt
  end.
Proof.
  intros Hvalid Hlower Hcs. cbn zeta.
  set (s := calls cs (Attributes elt)).
  assert (C : consistent s).
  { apply calls_consistent; [done|done|done|apply Attributes_consistent]. }
  assert (Hs : reachable s).
  { apply reachable_calls. constructor. }
  destruct c as [q v|ns q v|q|ns l|q v]; simpl.
  - destruct (isValidName q) eqn:Hq;
      [destruct (reserved (qualified s q)) eqn:Hres|].
    + right. right. unfold setAttribute, normalize. rewrite Hq.
      cbn [negb]. msimpl. fold (qualified s q).
      unfold reserved in Hres. by rewrite Hres.
    + destruct (setAttribute_accepted q v s (reachable_wf s Hs) Hq Hres)
        as (s' & a & -> & _).
      by left.
    + right. left. unfold setAttribute. by rewrite Hq.
  - destruct (setAttributeNS ns q v s) as [[] s'|e s'] eqn:E; [by left|].
    right. simpl.
    destruct (setAttributeNS_consistent_throws _ _ _ _ _ _ C E) as [->| ->];
      auto.
  - destruct (removeAttribute_wf_returns q s (reachable_wf s Hs))
      as (s' & -> & _).
    done.
  - destruct (removeAttributeNS_consistent_returns ns l s C) as [s' ->].
    done.
  - destruct (set_returns q v s) as [s' ->]. done.
Qed.
End Failures.

Section Namespaced.
Context `{Externals}.

Lemma _addQName_inQ a s :
  ∃ s', _addQName a s = Ret tt s'
        ∧ same_but_byQName s s'
        ∧ inQ s' (Attr.name (heap s !!! a)) a.
Proof.
  unfold _addQName, lookupQName, inQ. msimpl.
  destruct (byQName s !! _) as [[|e|l iv]|]; msimpl;
    (eexists; split; [reflexivity|]; split; [by split|]);
    msimpl; rewrite lookup_insert_eq; eexists; (split; [reflexivity|]);
    simpl.
  - apply list_elem_of_singleton. done.
  - rewrite elem_of_cons, list_elem_of_singleton. by right.
  - rewrite elem_of_app, list_elem_of_singleton. by right.
  - apply list_elem_of_singleton. done.
Qed.

Lemma with_prefix_same x p : Attr.prefix x = p → Attr.with_prefix p x = x.
Proof. intros <-. by destruct x. Qed.

(** X22. [setAttributeNS] on a namespace and local name that the
    namespace index already has: when it returns in a reachable state,
    it has created no Attr and has left the namespace index, [keys]
    and [length] as they were; the Attr found keeps its identity, its
    local name, namespace, declaration and [idlvalue], and has the
    prefix of the qualified name and the new value. *)
Theorem setAttributeNS_updates_existing ns qname value a s s' :
  reachable s →
  OMap.lookup (to_string_or_null ns +:+ "|" +:+ (split_qname qname).2)
              (byNSAndLName s) = Some a →
  setAttributeNS ns qname value s = Ret tt s' →
  byNSAndLName s' = byNSAndLName s
  ∧ keys s' = keys s ∧ length s' = length s
  ∧ heap s'
    = <[a := Attr.with_data value
               (Attr.with_prefix (split_qname qname).1 (heap s !!! a))]>
        (heap s).
Proof.
  intros Hs E. pose proof (reachable_wf s Hs) as W.
  pose proof (OMap_lookup_bound _ _ _ _ (wf_byNSAndLName _ W) E) as Ha.
  rewrite setAttributeNS_unfold.
  destruct (isValidName qname); cbn [negb]; [|done].
  destruct (isValidQName qname); cbn [negb]; [|done].
  cbn zeta.
  set (prefix := (split_qname qname).1).
  match goal with
  | |- context [if ?c then throw NamespaceError else _] => destruct c
  end; [done|].
  msimpl. rewrite E. msimpl.
  unfold opt_string_eqb. case_bool_decide as Hp; cbn [negb]; msimpl.
  - destruct (Attr_set_value_heap a value s) as (s4 & -> & Hsame & Hheap).
    intros [= <-]. destruct Hsame as [_ Hl _ Hn Hk _].
    split; [done|]. split; [done|]. split; [done|].
    by rewrite Hheap, with_prefix_same.
  - pose proof (_removeQName_frame a s) as Hframe.
    destruct (_removeQName a s) as [[] s1|e s1]; simpl in *; [|done].
    destruct Hframe as [_ Hl1 Hn1 Hk1 Hh1 _].
    match goal with
    | |- context [_addQName ?a ?s2] =>
        destruct (_addQName_frame a s2) as (s3 & -> & Hadd)
    end.
    destruct Hadd as [_ Hl3 Hn3 Hk3 Hh3 _]. msimpl.
    destruct (Attr_set_value_heap a value s3) as (s4 & -> & Hsame & Hheap).
    intros [= <-]. destruct Hsame as [_ Hl _ Hn Hk _].
    split; [by rewrite Hn, Hn3|]. split; [by rewrite Hk, Hk3|].
    split; [by rewrite Hl, Hl3|].
    rewrite Hheap, Hh3, Hh1.
    rewrite list_lookup_total_insert_eq by done.
    by rewrite list_insert_insert_eq.
Qed.

(** X23. [setAttributeNS] on a namespace and local name that the
    namespace index does not have: when it returns in a reachable
    state, it has created one Attr, with the local name and the prefix
    of the qualified name (an empty prefix read as null), the
    namespace (empty read as null), the declaration of the local name
    on the element's type unless there is a prefix, and the value; its
    key is appended to the namespace index and to [keys], [length] is
    one more, and the new Attr is in the bucket of its qualified
    name. *)
Theorem setAttributeNS_creates ns qname value s s' :
  reachable s →
  let prefix := (split_qname qname).1 in
  let lname := (split_qname qname).2 in
  let key := to_string_or_null ns +:+ "|" +:+ lname in
  let decl := if opt_truthy prefix then None
              else _attrDecls (element s) !! lname in
  let new := Attr.new decl lname prefix (normalize_ns ns) in
  OMap.lookup key (byNSAndLName s) = None →
  setAttributeNS ns qname value s = Ret tt s' →
  heap s' = heap s ++ [Attr.with_data value new]
  ∧ byNSAndLName s' = byNSAndLName s ++ [(key, List.length (heap s))]
  ∧ keys s' = keys s ++ [key]
  ∧ length s' = S (length s)
  ∧ inQ s' (Attr.name new) (List.length (heap s)).
Proof.
  intros Hs prefix lname key decl new E. pose proof (reachable_wf s Hs) as W.
  rewrite setAttributeNS_unfold.
  destruct (isValidName qname); cbn [negb]; [|done].
  destruct (isValidQName qname); cbn [negb]; [|done].
  cbn zeta. fold prefix lname key.
  match goal with
  | |- context [if ?c then throw NamespaceError else _] => destruct c
  end; [done|].
  msimpl. rewrite E. msimpl. fold decl new.
  match goal with
  | |- context [_addQName ?a ?s2] =>
      destruct (_addQName_inQ a s2) as (s3 & -> & Hadd & Hin)
  end.
  destruct Hadd as [_ Hl3 Hn3 Hk3 Hh3 _]. msimpl.
  rewrite list_lookup_total_middle in Hin by done.
  match goal with
  | |- context [Attr_set_value ?a ?v ?s1] =>
      destruct (Attr_set_value_heap a v s1) as (s4 & -> & Hsame & Hheap)
  end.
  intros [= <-]. destruct Hsame as [_ Hl Hq Hn Hk _].
  split.
  { rewrite Hheap, Hh3.
    rewrite list_lookup_total_middle by done.
    rewrite <- (Nat.add_0_r (List.length (heap s))) at 1.
    by rewrite insert_app_r. }
  split; [by rewrite Hn, Hn3, (OMap_assign_fresh _ _ _ E)|].
  split.
  { rewrite Hk, Hk3, (OMap_assign_fresh _ _ _ E), (wf_keys _ W).
    unfold OMap.keys. by rewrite List.map_app. }
  split.
  { rewrite Hl, Hl3, (OMap_assign_fresh _ _ _ E), OMap_keys_length.
    rewrite length_app, (wf_length _ W). simpl. lia. }
  by rewrite (inQ_eq s3 s4 _ _ Hq).
Qed.
End Namespaced.

(** ** The further properties at concrete inputs *)

Lemma two_attributes_reachable : reachable two_attributes.
Proof. apply reachable_calls. constructor. Qed.

Lemma two_foo_reachable : reachable two_foo.
Proof. apply reachable_calls. constructor. Qed.

Lemma item_follows_insertion_order_witness :
  item 1 two_attributes
  = Ret (snd <$> byNSAndLName two_attributes !! 1) two_attributes
  ∧ (1 < length two_attributes ↔ is_Some (byNSAndLName two_attributes !! 1)).
Proof.
  apply (item_follows_insertion_order two_attributes 1).
  apply two_attributes_reachable.
Defined.

Lemma call_changes_length_by_one_witness :
  length (state_of (call (CremoveAttribute "a") two_attributes))
  ≤ S (length two_attributes)
  ∧ length two_attributes
    ≤ S (length (state_of (call (CremoveAttribute "a") two_attributes))).
Proof.
  apply (call_changes_length_by_one (CremoveAttribute "a") two_attributes).
  apply two_attributes_reachable.
Defined.

Lemma getAttribute_agrees_with_hasAttribute_witness :
  let first := first_attr (byQName two_foo !! qualified two_foo "foo") in
  getAttribute "foo" two_foo
  = Ret (match first with
         | Some a => Attr.data (heap two_foo !!! a)
         | None => VNull
         end) two_foo
  ∧ hasAttribute "foo" two_foo = Ret (bool_decide (is_Some first)) two_foo.
Proof.
  apply (getAttribute_agrees_with_hasAttribute "foo" two_foo).
  apply two_foo_reachable.
Defined.

Lemma setAttribute_outcome_witness :
  match isValidName "1a", reserved (qualified (Attributes html_element) "1a") with
  | false, _ =>
      setAttribute "1a" (VString "v") (Attributes html_element)
      = Throw InvalidCharacterError (Attributes html_element)
  | true, true =>
      setAttribute "1a" (VString "v") (Attributes html_element)
      = Throw NamespaceError (Attributes html_element)
  | true, false =>
      ∃ s', setAttribute "1a" (VString "v") (Attributes html_element) = Ret tt s'
  end.
Proof.
  apply (setAttribute_outcome "1a" (VString "v") (Attributes html_element)).
  apply reachable_new.
Defined.


Lemma setAttribute_notifications_witness :
  let s := Attributes element_with_hook in
  let q := qualified s "ID" in
  let a := default (List.length (heap s)) (first_attr (byQName s !! q)) in
  let this := match first_attr (byQName s !! q) with
              | Some a => heap s !!! a
              | None => Attr.new (_attrDecls (element s) !! q) q None None
              end in
  ∃ s', setAttribute "ID" (VString "x") s = Ret tt s'
        ∧ trace s' = trace s
                     ++ value_events (rooted (element s)) a this (VString "x").
Proof.
  apply (setAttribute_notifications "ID" (VString "x")
           (Attributes element_with_hook)).
  - apply reachable_new.
  - reflexivity.
Defined.

Lemma setAttributeNS_then_getAttributeNS_witness :
  let s' := state_of (setAttributeNS (Some "urn:a") "p:foo" (VString "z") two_foo) in
  getAttributeNS (Some "urn:a") (split_qname "p:foo").2 s' = Ret (VString "z") s'
  ∧ hasAttributeNS (Some "urn:a") (split_qname "p:foo").2 s' = Ret true s'.
Proof.
  apply (setAttributeNS_then_getAttributeNS
           (Some "urn:a") "p:foo" (VString "z") two_foo).
  - apply two_foo_reachable.
  - reflexivity.
Defined.

Lemma setAttributeNS_failure_changes_nothing_witness :
  two_foo = two_foo ∧ isValidName "p:foo" = true.
Proof.
  apply (setAttributeNS_failure_changes_nothing
           None "p:foo" (VString "z") two_foo NamespaceError two_foo).
  reflexivity.
Defined.

Lemma setAttributeNS_namespace_rules_witness :
  let prefix := (split_qname "xml:lang").1 in
  let ns' := normalize_ns (Some "http://www.w3.org/XML/1998/namespace") in
  isValidName "xml:lang" = true ∧ isValidQName "xml:lang" = true
  ∧ (prefix ≠ None → ns' ≠ None)
  ∧ (prefix = Some "xml" → ns' = Some XML_NAMESPACE)
  ∧ (("xml:lang" = "xmlns" ∨ prefix = Some "xmlns")
     ↔ ns' = Some XMLNS_NAMESPACE).
Proof.
  apply (setAttributeNS_namespace_rules
           (Some "http://www.w3.org/XML/1998/namespace") "xml:lang"
           (VString "en") (Attributes xml_element)
           (state_of (setAttributeNS (Some "http://www.w3.org/XML/1998/namespace")
                        "xml:lang" (VString "en") (Attributes xml_element)))).
  reflexivity.
Defined.

Lemma setAttribute_then_removeAttribute_witness :
  ∃ s1 s2, setAttribute "c" (VString "3") two_attributes = Ret tt s1
           ∧ removeAttribute "c" s1 = Ret tt s2
           ∧ hasAttribute "c" s2 = Ret false s2
           ∧ getAttribute "c" s2 = Ret VNull s2
           ∧ byQName s2 = byQName two_attributes
           ∧ length s2 ≤ length two_attributes.
Proof.
  apply (setAttribute_then_removeAttribute "c" (VString "3") two_attributes).
  - apply two_attributes_reachable.
  - reflexivity.
  - reflexivity.
Defined.

Lemma removeAttribute_removes_first_only_witness :
  ∃ s', removeAttribute "foo" two_foo = Ret tt s'
        ∧ byQName s' !! qualified two_foo "foo" = Some (One 1)
        ∧ getAttribute "foo" s' = Ret (Attr.data (heap two_foo !!! 1)) s'
        ∧ byNSAndLName s'
          = OMap.delete (key_of (heap two_foo !!! 0)) (byNSAndLName two_foo).
Proof.
  apply (removeAttribute_removes_first_only "foo" 0 1 [] VUndefined two_foo).
  reflexivity.
Defined.

Lemma raw_set_then_raw_get_witness :
  ∃ s', set "foo" (VString "z") two_foo = Ret tt s'
        ∧ get "foo" s' = Ret (VString "z") s'.
Proof.
  apply (raw_set_then_raw_get "foo" (VString "z") two_foo).
  apply two_foo_reachable.
Defined.

Lemma setAttribute_creates_in_empty_namespace_witness :
  let s := two_attributes in
  let q := qualified s "c" in
  ∃ s', setAttribute "c" (VString "3") s = Ret tt s'
        ∧ getAttributeNS (Some "") q s' = Ret (VString "3") s'
        ∧ (hasAttributeNS (Some "") q s = Ret false s →
           keys s' = keys s ++ ["|" +:+ q]
           ∧ length s' = S (length s)
           ∧ item (length s) s' = Ret (Some (List.length (heap s))) s').
Proof.
  apply (setAttribute_creates_in_empty_namespace "c" (VString "3") two_attributes).
  - apply two_attributes_reachable.
  - reflexivity.
  - reflexivity.
Defined.

Lemma reflectAttribute_registers_once_witness :
  proto_attrDecls empty_class !! "dir" = None
  ∧ is_Some (proto_attrDecls class_with_dir !! "dir")
  ∧ (∀ other, other ≠ "dir" →
       proto_attrDecls class_with_dir !! other = proto_attrDecls empty_class !! other)
  ∧ is_Some (proto_properties class_with_dir
             !! property_name "dir" (Some dir_declaration))
  ∧ (∀ again, reflectAttribute class_with_dir "dir" again = inl AssertionError).
Proof.
  apply (reflectAttribute_registers_once empty_class "dir" (Some dir_declaration)).
  reflexivity.
Defined.

Lemma reflected_property_write_then_read_witness :
  let s := Attributes html_element in
  let prop := property_name "title" None in
  ∃ s', write_property class_with_title prop (VString "x") s = Ret tt s'
        ∧ getAttribute "title" s' = Ret (VString "x") s'
        ∧ read_property class_with_title prop s'
          = Ret (js_or (VString "x") (VString "")) s'.
Proof.
  apply (reflected_property_write_then_read empty_class "title" None
           class_with_title (VString "x") (Attributes html_element)).
  - reflexivity.
  - reflexivity.
  - reflexivity.
  - reflexivity.
  - apply reachable_new.
  - reflexivity.
Defined.

Lemma enumerated_property_write_then_read_witness :
  let s := Attributes html_element in
  let prop := property_name "dir" (Some dir_declaration) in
  ∃ s', write_property class_with_dir prop (VString "RTL") s = Ret tt s'
        ∧ getAttribute "dir" s' = Ret (VString "RTL") s'
        ∧ read_property class_with_dir prop s'
          = Ret (js_or (dir_legalValues (toLowerCase "RTL")) (VString "")) s'.
Proof.
  apply (enumerated_property_write_then_read empty_class "dir" dir_declaration
           dir_legalValues class_with_dir "RTL" (Attributes html_element)).
  - reflexivity.
  - reflexivity.
  - apply reachable_new.
  - reflexivity.
Defined.

Lemma legal_calls_unique_identity_witness :
  let s := calls [CsetAttribute "foo" (VString "y");
                  CsetAttributeNS (Some "urn:a") "foo" (VString "x")]
                 (Attributes xml_element) in
  indices_agree s
  ∧ ∀ i j ki kj a b,
      byNSAndLName s !! i = Some (ki, a) →
      byNSAndLName s !! j = Some (kj, b) →
      Attr.namespaceURI (heap s !!! a) = Attr.namespaceURI (heap s !!! b) →
      Attr.localName (heap s !!! a) = Attr.localName (heap s !!! b) →
      i = j.
Proof.
  apply (legal_calls_unique_identity xml_element
           [CsetAttribute "foo" (VString "y");
            CsetAttributeNS (Some "urn:a") "foo" (VString "x")]).
  - apply ascii_valid_no_bar.
  - apply ascii_lower_no_bar.
  - repeat constructor. done.
Defined.

Lemma byQName_entries_well_formed_witness :
  entry_ok (List.length (heap two_foo)) (Many [0; 1] VUndefined).
Proof.
  apply (byQName_entries_well_formed two_foo "foo").
  - apply two_foo_reachable.
  - reflexivity.
Defined.

Lemma removeAttribute_returns_witness :
  ∃ s', removeAttribute "c" two_attributes = Ret tt s'
        ∧ (hasAttribute "c" two_attributes = Ret false two_attributes →
           s' = two_attributes).
Proof.
  apply (removeAttribute_returns "c" two_attributes).
  apply two_attributes_reachable.
Defined.

Lemma legal_calls_fail_only_on_validation_witness :
  let r := result (call (CremoveAttributeNS (Some "urn:a") "foo")
                     (calls [CsetAttribute "foo" (VString "y");
                             CsetAttributeNS (Some "urn:a") "foo" (VString "x")]
                            (Attributes xml_element))) in
  r = inr tt.
Proof.
  apply (legal_calls_fail_only_on_validation xml_element
           [CsetAttribute "foo" (VString "y");
            CsetAttributeNS (Some "urn:a") "foo" (VString "x")]
           (CremoveAttributeNS (Some "urn:a") "foo")).
  - apply ascii_valid_no_bar.
  - apply ascii_lower_no_bar.
  - repeat constructor. done.
Defined.

Lemma setAttributeNS_updates_existing_witness :
  let s' := state_of (setAttributeNS (Some "urn:a") "p:foo" (VString "z") two_foo) in
  byNSAndLName s' = byNSAndLName two_foo
  ∧ keys s' = keys two_foo ∧ length s' = length two_foo
  ∧ heap s'
    = <[1 := Attr.with_data (VString "z")
               (Attr.with_prefix (split_qname "p:foo").1 (heap two_foo !!! 1))]>
        (heap two_foo).
Proof.
  apply (setAttributeNS_updates_existing
           (Some "urn:a") "p:foo" (VString "z") 1 two_foo).
  - apply two_foo_reachable.
  - reflexivity.
  - reflexivity.
Defined.

Lemma setAttributeNS_creates_witness :
  let s := two_foo in
  let s' := state_of (setAttributeNS (Some "urn:b") "p:bar" (VString "z") s) in
  let prefix := (split_qname "p:bar").1 in
  let lname := (split_qname "p:bar").2 in
  let key := to_string_or_null (Some "urn:b") +:+ "|" +:+ lname in
  let decl := if opt_truthy prefix then None
              else _attrDecls (element s) !! lname in
  let new := Attr.new decl lname prefix (normalize_ns (Some "urn:b")) in
  heap s' = heap s ++ [Attr.with_data (VString "z") new]
  ∧ byNSAndLName s' = byNSAndLName s ++ [(key, List.length (heap s))]
  ∧ keys s' = keys s ++ [key]
  ∧ length s' = S (length s)
  ∧ inQ s' (Attr.name new) (List.length (heap s)).
Proof.
  apply (setAttributeNS_creates (Some "urn:b") "p:bar" (VString "z") two_foo).
  - apply two_foo_reachable.
  - reflexivity.
  - reflexivity.
Defined.
